(** * Redimo streams: a shallow embedding of [streams.go]

    The stream layer of redimo keeps a Redis-like append-only log and its
    consumer groups on top of a DynamoDB table.  This development embeds
    the XID codec, the store operations the stream code issues, and the
    stream commands themselves, and then proves the properties stated for
    them. *)

From Stdlib Require Import ZArith Ascii String List Lia Bool.
From stdpp Require Import gmap strings list fin_maps sorting.

Local Open Scope Z_scope.

(* ================================================================== *)
(** * Part I. Definitions                                               *)
(* ================================================================== *)

(** ** Machine integers

    Go's fixed-width integers are carried as [Z]; every place where the
    source can leave the range applies the wrap-around explicitly. *)

Definition maxUint64 : Z := 18446744073709551615.
Definition maxInt64 : Z := 9223372036854775807.
Definition maxInt32 : Z := 2147483647.

Definition uint64 (z : Z) : Z := z mod 2 ^ 64.
Definition int64 (z : Z) : Z := (z + 2 ^ 63) mod 2 ^ 64 - 2 ^ 63.
Definition int32 (z : Z) : Z := (z + 2 ^ 31) mod 2 ^ 32 - 2 ^ 31.

(** ** The Go library functions used by the XID codec *)

Module time.
(** A [time.Time], seen through [Unix()] and the sub-second part. *)
Record Time : Type := mk { sec : Z; nsec : Z }.

(** [time.Unix(sec, nsec)]. *)
Definition Unix (s n : Z) : Time := mk s n.

(** The method [t.Unix()]: whole seconds since the epoch. *)
Definition Time_Unix (t : Time) : Z := sec t.

(** The method [t.After(u)]. *)
Definition After (t u : Time) : bool :=
  (sec u <? sec t) || ((sec u =? sec t) && (nsec u <? nsec t)).
End time.

Module fmt.
(** The decimal digit [d] (0..9) as a byte. *)
Definition digit (d : Z) : ascii := ascii_of_N (48 + Z.to_N d).

(** Decimal digits of a non-negative number, most significant first,
    without padding.  [fuel] bounds the number of digits. *)
Fixpoint digits (fuel : nat) (n : Z) : string :=
  match fuel with
  | O => EmptyString
  | S f =>
      if n <? 10 then String (digit n) EmptyString
      else digits f (n / 10) +:+ String (digit (n mod 10)) EmptyString
  end.

(** A 64-bit value has at most 20 decimal digits. *)
Definition itoa (n : Z) : string := digits 20 n.

Fixpoint zeros (k : nat) : string :=
  match k with
  | O => EmptyString
  | S k' => String "0" (zeros k')
  end.

Definition padZero (width : nat) (s : string) : string :=
  zeros (width - String.length s) +:+ s.

(** [fmt.Sprintf("%020d", n)]: the sign, when there is one, comes first
    and counts towards the width; zeros fill the rest. *)
Definition Sprintf_020d (n : Z) : string :=
  if n <? 0 then String "-" (padZero 19 (itoa (- n)))
  else padZero 20 (itoa n).
End fmt.

Module strconv.
Inductive NumError : Type := ErrSyntax | ErrRange.

Definition isDigit (c : ascii) : bool :=
  let n := Z.of_N (N_of_ascii c) in (48 <=? n) && (n <=? 57).

Definition digitVal (c : ascii) : Z := Z.of_N (N_of_ascii c) - 48.

(** The digit loop of [ParseUint(s, 10, 64)], started with accumulator
    [n].  A range error returns at once with the maximum value, a byte
    that is not a decimal digit is a syntax error with value 0. *)
Fixpoint parseDigits (s : string) (n : Z) : Z * option NumError :=
  match s with
  | EmptyString => (n, None)
  | String c s' =>
      if isDigit c then
        if maxUint64 / 10 + 1 <=? n then (maxUint64, Some ErrRange)
        else
          let n1 := n * 10 + digitVal c in
          if maxUint64 <? n1 then (maxUint64, Some ErrRange)
          else parseDigits s' n1
      else (0, Some ErrSyntax)
  end.

(** [strconv.ParseUint(s, 10, 64)]. *)
Definition ParseUint (s : string) : Z * option NumError :=
  match s with
  | EmptyString => (0, Some ErrSyntax)
  | _ => parseDigits s 0
  end.

(** [strconv.ParseInt(s, 10, 64)]. *)
Definition ParseInt (s : string) : Z * option NumError :=
  match s with
  | EmptyString => (0, Some ErrSyntax)
  | String c rest =>
      let neg := Ascii.eqb c "-" in
      let body := if Ascii.eqb c "+" || neg then rest else s in
      match ParseUint body with
      | (_, Some ErrSyntax) => (0, Some ErrSyntax)
      | (un, _) =>
          let cutoff := 2 ^ 63 in
          if negb neg && (cutoff <=? un) then (cutoff - 1, Some ErrRange)
          else if neg && (cutoff <? un) then (- cutoff, Some ErrRange)
          else (if neg then - un else un, None)
      end
  end.
End strconv.

Module strings.
(** [strings.Split(s, sep)] for a one-byte separator: the pieces of [s]
    between the occurrences of [sep]; never the empty list. *)
Fixpoint Split (s : string) (sep : ascii) : list string :=
  match s with
  | EmptyString => [EmptyString]
  | String c s' =>
      match Split s' sep with
      | p :: ps =>
          if Ascii.eqb c sep then EmptyString :: p :: ps
          else String c p :: ps
      | [] => [String c EmptyString]
      end
  end.

(** [strings.Join(parts, sep)]. *)
Definition Join (parts : list string) (sep : string) : string :=
  String.concat sep parts.
End strings.

(** ** XID: stream item identifiers *)

(** [type XID string]. *)
Abbreviation XID := string.

Definition XStart : XID := "00000000000000000000-00000000000000000000".
Definition XEnd : XID := "99999999999999999999-99999999999999999999".
Definition XAutoID : XID := "*".

(** [NewXID(ts, seq)]; [seq] is a [uint64]. *)
Definition NewXID (ts : time.Time) (seq : Z) : XID :=
  let timePart := fmt.Sprintf_020d (time.Time_Unix ts) in
  let sequencePart := fmt.Sprintf_020d seq in
  strings.Join [timePart; sequencePart] "-".

Definition NewTimeXID (ts : time.Time) : XID := NewXID ts 0.

(** [xid.Time()]: the parse error is dropped, the value kept. *)
Definition Time (xid : XID) : time.Time :=
  let parts := strings.Split xid "-" in
  let tsec := fst (strconv.ParseInt (List.nth 0 parts EmptyString)) in
  time.Unix tsec 0.

(** [xid.Seq()].  [parts[1]] is an index out of range when the string has
    no separator: the Go code panics there, which is [None] here. *)
Definition Seq (xid : XID) : option Z :=
  let parts := strings.Split xid "-" in
  match parts with
  | _ :: p1 :: _ => Some (fst (strconv.ParseUint p1))
  | _ => None
  end.

(** [xid.Next()]: the addition is on [uint64] and wraps. *)
Definition Next (xid : XID) : option XID :=
  match Seq xid with
  | Some s => Some (NewXID (Time xid) (uint64 (s + 1)))
  | None => None
  end.

(** [xid.Prev()]. *)
Definition Prev (xid : XID) : option XID :=
  match Seq xid with
  | Some s => if s <=? 1 then Some xid
              else Some (NewXID (Time xid) (uint64 (s - 1)))
  | None => None
  end.

Definition First (xid : XID) : XID :=
  let timePart := fmt.Sprintf_020d (time.Time_Unix (Time xid)) in
  strings.Join [timePart; "00000000000000000000"] "-".

Definition Last (xid : XID) : XID :=
  let timePart := fmt.Sprintf_020d (time.Time_Unix (Time xid)) in
  strings.Join [timePart; "99999999999999999999"] "-".

(** Byte-wise comparison of Go strings, which is also the order of
    DynamoDB sort keys of type S. *)
Definition str_lt (a b : string) : Prop := String.compare a b = Lt.

(** Pair order on (timestamp, sequence). *)
Definition pair_lt (a b : Z * Z) : Prop :=
  fst a < fst b \/ (fst a = fst b /\ snd a < snd b).

(** ** The table

    One DynamoDB table with a string partition key and a string sort key.
    An item is held under its key pair; [Attrs] are its other attributes. *)

Inductive AttributeValue : Type :=
| AVS (s : string)     (* types.AttributeValueMemberS *)
| AVN (n : Z).         (* types.AttributeValueMemberN *)

Global Instance AttributeValue_eq_dec : EqDecision AttributeValue.
Proof. solve_decision. Defined.

Abbreviation Attrs := (gmap string AttributeValue).
Abbreviation Table := (gmap (string * string) Attrs).

(** Modelled from the spec: [keyDef] and its [toAV] are not among the
    sources; section 6 lays every record out under a partition key and a
    sort key, and the callers build [keyDef{pk: ..., sk: ...}]. *)
Record keyDef : Type := mkKey { pk : string; sk : string }.

Definition toAV (k : keyDef) : string * string := (pk k, sk k).

(** The attribute that holds a record's value; the update expression
    ["ADD #val :delta"] of [incr] names it. *)
Definition vk : string := "val".

(** Modelled from the spec: the value types are not among the sources;
    section 1 asks of the value encoding that it round-trips strings and
    integers.  [ReturnValue{av}.String()] and [.Int()] give the zero
    value when the attribute is missing or of the other type. *)
Definition StringValue (s : string) : AttributeValue := AVS s.
Definition IntValue (n : Z) : AttributeValue := AVN n.

Definition ReturnValue_String (av : option AttributeValue) : string :=
  match av with Some (AVS s) => s | _ => EmptyString end.

Definition ReturnValue_Int (av : option AttributeValue) : Z :=
  match av with Some (AVN n) => int64 n | _ => 0 end.

(** ** Errors *)

#[warnings="-register-all"]
Inductive error : Type :=
| ErrStore                     (* the store failed: transport, validation *)
| ErrConditionalCheckFailed    (* a condition did not hold, or the
                                  transaction was cancelled *)
| ErrXGroupNotInitialized
| ErrTooMuchContention         (* errors.New("too much contention") *)
| ErrCouldNotLoadStreamItem (cause : option error).
                               (* fmt.Errorf("could not loat stream item: %w", err) *)

(** Modelled from the spec: [conditionFailureError] is not among the
    sources; section 7 describes it as the dedicated predicate that
    recognises the store's condition-not-met signal. *)
Definition conditionFailureError (err : option error) : bool :=
  match err with
  | Some ErrConditionalCheckFailed => true
  | _ => false
  end.

(** ** The world a command runs in

    [tbl] is the table, [now] the wall clock.  [faults] schedules what
    goes wrong with the coming store calls, one entry per call ([None]: the
    call goes through; an exhausted schedule: every call goes through).
    [pages] schedules the page sizes of the coming queries: an entry [p]
    makes the store stop after [S p] items, as it does at its response
    size limit; an exhausted schedule puts no such bound. *)

Inductive fault : Type :=
| Unavailable    (* the call fails *)
| Conflict.      (* a transaction is cancelled by a concurrent one *)

Record World : Type := mkWorld {
  tbl : Table;
  now : time.Time;
  faults : list (option fault);
  pages : list nat
}.

Definition set_tbl (t : Table) (w : World) : World :=
  mkWorld t (now w) (faults w) (pages w).

(** A command ends with a result and a world, panics (a Go run-time
    panic), or exhausts the fuel given to one of its loops. *)
Inductive Result (A : Type) : Type :=
| Done (a : A) (w : World)
| Panic
| OutOfFuel.
Arguments Done {A} a w.
Arguments Panic {A}.
Arguments OutOfFuel {A}.

Definition M (A : Type) : Type := World -> Result A.

Definition ret {A} (a : A) : M A := fun w => Done a w.

Definition bind {A B} (m : M A) (k : A -> M B) : M B :=
  fun w => match m w with
           | Done a w' => k a w'
           | Panic => Panic
           | OutOfFuel => OutOfFuel
           end.

Definition panic {A} : M A := fun _ => Panic.

Notation "'let*' x ':=' m 'in' k" := (bind m (fun x => k))
  (at level 10, x pattern, m at level 100, k at level 200).

(** [time.Now()]. *)
Definition Now : M time.Time := fun w => Done (now w) w.

(** Every store call first takes its entry of the fault schedule. *)
Definition take_fault : M (option fault) :=
  fun w => match faults w with
           | [] => Done None w
           | f :: fs => Done f (mkWorld (tbl w) (now w) fs (pages w))
           end.

Definition next_page : M (option nat) :=
  fun w => match pages w with
           | [] => Done None w
           | p :: ps => Done (Some (S p)) (mkWorld (tbl w) (now w) (faults w) ps)
           end.

Definition get_tbl : M Table := fun w => Done (tbl w) w.
Definition put_tbl (t : Table) : M unit := fun w => Done tt (set_tbl t w).

(** ** Conditions and update clauses

    Modelled from the spec: the expression builder is not among the
    sources.  Its methods are taken by what the callers pass and by
    sections 4.3 and 4.6: a condition compares an attribute of the stored
    item with a value or tests its presence, [SET] assigns an attribute,
    [ADD] adds to a number (an absent attribute counts as 0). *)

Inductive AttrRef : Type :=
| PartitionKeyAttr                (* c.partitionKey *)
| SortKeyAttr                     (* c.sortKey *)
| Attr (name : string).

Inductive Condition : Type :=
| CondExists (a : AttrRef)                            (* attribute_exists(#a) *)
| CondNotExists (a : AttrRef)                         (* attribute_not_exists(#a) *)
| CondLessThan (a : AttrRef) (v : AttributeValue)     (* #a < :v *)
| CondLessThanOrEqualTo (a : AttrRef) (v : AttributeValue)  (* #a <= :v *)
| CondEquality (a : AttrRef) (v : AttributeValue).    (* #a = :v *)

Inductive UpdateClause : Type :=
| SET (name : string) (v : AttributeValue)
| ADD (name : string) (delta : Z).

Record expressionBuilder : Type := mkBuilder {
  conditions : list Condition;
  clauses : list UpdateClause
}.

Definition newExpresionBuilder : expressionBuilder := mkBuilder [] [].

Definition addCondition (c : Condition) (b : expressionBuilder) :=
  mkBuilder (conditions b ++ [c]) (clauses b).
Definition addClause (u : UpdateClause) (b : expressionBuilder) :=
  mkBuilder (conditions b) (clauses b ++ [u]).

Definition addConditionExists a := addCondition (CondExists a).
Definition addConditionNotExists a := addCondition (CondNotExists a).
Definition addConditionLessThan a v := addCondition (CondLessThan a v).
Definition addConditionLessThanOrEqualTo a v :=
  addCondition (CondLessThanOrEqualTo a v).
Definition addConditionEquality a v := addCondition (CondEquality a v).
Definition updateSET name v := addClause (SET name v).

(** The attribute [a] of the item stored at [k], [old] being that item. *)
Definition attr_of (k : string * string) (old : option Attrs) (a : AttrRef)
  : option AttributeValue :=
  match old with
  | None => None
  | Some attrs =>
      match a with
      | PartitionKeyAttr => Some (AVS (fst k))
      | SortKeyAttr => Some (AVS (snd k))
      | Attr name => attrs !! name
      end
  end.

(** Comparisons hold only between two values of one type; a missing
    attribute satisfies none. *)
Definition av_ltb (x y : AttributeValue) : bool :=
  match x, y with
  | AVS a, AVS b => String.ltb a b
  | AVN a, AVN b => a <? b
  | _, _ => false
  end.

Definition av_leb (x y : AttributeValue) : bool :=
  match x, y with
  | AVS a, AVS b => String.leb a b
  | AVN a, AVN b => a <=? b
  | _, _ => false
  end.

Definition holds (k : string * string) (old : option Attrs) (c : Condition) : bool :=
  match c with
  | CondExists a => bool_decide (is_Some (attr_of k old a))
  | CondNotExists a => bool_decide (attr_of k old a = None)
  | CondLessThan a v =>
      match attr_of k old a with Some x => av_ltb x v | None => false end
  | CondLessThanOrEqualTo a v =>
      match attr_of k old a with Some x => av_leb x v | None => false end
  | CondEquality a v => bool_decide (attr_of k old a = Some v)
  end.

(** [None]: the clause is not valid on this item ([ADD] to a string). *)
Definition apply_clause (attrs : Attrs) (u : UpdateClause) : option Attrs :=
  match u with
  | SET name v => Some (<[name := v]> attrs)
  | ADD name delta =>
      match attrs !! name with
      | None => Some (<[name := AVN delta]> attrs)
      | Some (AVN n) => Some (<[name := AVN (n + delta)]> attrs)
      | Some (AVS _) => None
      end
  end.

Fixpoint apply_clauses (attrs : Attrs) (us : list UpdateClause) : option Attrs :=
  match us with
  | [] => Some attrs
  | u :: us' =>
      match apply_clause attrs u with
      | Some attrs' => apply_clauses attrs' us'
      | None => None
      end
  end.

(** ** Store calls *)

Inductive ReturnValues : Type := ReturnNone | ReturnAllOld | ReturnAllNew.

(** [UpdateItem]: an upsert under a condition.  The result carries
    [resp.Attributes] (empty when nothing is returned) and the error. *)
Definition UpdateItem (k : string * string) (b : expressionBuilder)
    (rv : ReturnValues) : M (option Attrs * option error) :=
  let* f := take_fault in
  match f with
  | Some _ => ret (None, Some ErrStore)
  | None =>
      let* t := get_tbl in
      let old := t !! k in
      if forallb (holds k old) (conditions b) then
        match apply_clauses (default ∅ old) (clauses b) with
        | Some new =>
            let* _ := put_tbl (<[k := new]> t) in
            ret (match rv with
                 | ReturnNone => None
                 | ReturnAllOld => old
                 | ReturnAllNew => Some new
                 end, None)
        | None => ret (None, Some ErrStore)
        end
      else ret (None, Some ErrConditionalCheckFailed)
  end.

(** [DeleteItem] with [ReturnValues: ALL_OLD]. *)
Definition DeleteItem (k : string * string) : M (option Attrs * option error) :=
  let* f := take_fault in
  match f with
  | Some _ => ret (None, Some ErrStore)
  | None =>
      let* t := get_tbl in
      let* _ := put_tbl (delete k t) in
      ret (t !! k, None)
  end.

(** [GetItem]. *)
Definition GetItem (k : string * string) : M (option Attrs * option error) :=
  let* f := take_fault in
  match f with
  | Some _ => ret (None, Some ErrStore)
  | None => let* t := get_tbl in ret (t !! k, None)
  end.

Inductive TransactWriteItem : Type :=
| TxPut (k : string * string) (item : Attrs)
| TxUpdate (k : string * string) (b : expressionBuilder).

Definition tx_key (a : TransactWriteItem) : string * string :=
  match a with TxPut k _ => k | TxUpdate k _ => k end.

Definition tx_holds (t : Table) (a : TransactWriteItem) : bool :=
  match a with
  | TxPut _ _ => true
  | TxUpdate k b => forallb (holds k (t !! k)) (conditions b)
  end.

Definition tx_apply (t : Table) (a : TransactWriteItem) : option Table :=
  match a with
  | TxPut k item => Some (<[k := item]> t)
  | TxUpdate k b =>
      match apply_clauses (default ∅ (t !! k)) (clauses b) with
      | Some new => Some (<[k := new]> t)
      | None => None
      end
  end.

Fixpoint tx_apply_all (t : Table) (l : list TransactWriteItem) : option Table :=
  match l with
  | [] => Some t
  | a :: l' =>
      match tx_apply t a with
      | Some t' => tx_apply_all t' l'
      | None => None
      end
  end.

(** What a transaction does once the store has let it through: two
    actions on one item are rejected; the conditions are checked on the
    table as it stands; then all writes are applied, or none. *)
Definition tx_body (actions : list TransactWriteItem) : M (option error) :=
  fun w =>
    if negb (bool_decide (NoDup (tx_key <$> actions))) then Done (Some ErrStore) w
    else if forallb (tx_holds (tbl w)) actions then
      match tx_apply_all (tbl w) actions with
      | Some t' => Done None (set_tbl t' w)
      | None => Done (Some ErrStore) w
      end
    else Done (Some ErrConditionalCheckFailed) w.

(** [TransactWriteItems]: all or nothing. *)
Definition TransactWriteItems (actions : list TransactWriteItem) : M (option error) :=
  let* f := take_fault in
  match f with
  | Some Unavailable => ret (Some ErrStore)
  | Some Conflict => ret (Some ErrConditionalCheckFailed)
  | None => tx_body actions
  end.

(** The sort keys of partition [p] between [lo] and [hi], ascending. *)
Definition sort_keys (t : Table) (p lo hi : string) : list string :=
  merge_sort String.le
    (snd <$> filter (fun k : string * string =>
                       fst k = p /\ (lo ≤ snd k)%string /\ (snd k ≤ hi)%string)
                    (fst <$> map_to_list t)).

Record QueryInput : Type := mkQuery {
  q_pk : string;                        (* #pk = :pk *)
  q_start : string;                     (* #sk BETWEEN :start AND :stop *)
  q_stop : string;
  ExclusiveStartKey : option string;    (* the sort key of the cursor *)
  Limit : option Z;
  ScanIndexForward : bool;
  FilterExpression : option (string * AttributeValue)   (* #name = :value *)
}.

Record QueryOutput : Type := mkOutput {
  Items : list (string * Attrs);        (* sort key and attributes *)
  LastEvaluatedKey : option string
}.

Definition beyond (forward : bool) (cursor : option string) (s : string) : bool :=
  match cursor with
  | None => true
  | Some c => if forward then String.ltb c s else String.ltb s c
  end.

Definition passes (flt : option (string * AttributeValue)) (attrs : Attrs) : bool :=
  match flt with
  | None => true
  | Some (name, v) => bool_decide (attrs !! name = Some v)
  end.

(** The parts of a query's answer on table [t]: the keys of the range in
    scan order, those beyond the cursor, how many the store reads ([cap] is
    the page size it has chosen), the keys read, the key reported as last
    evaluated, and the items handed back. *)
Definition q_scan (t : Table) (q : QueryInput) : list string :=
  let keys := sort_keys t (q_pk q) (q_start q) (q_stop q) in
  if ScanIndexForward q then keys else reverse keys.

Definition q_rest (t : Table) (q : QueryInput) : list string :=
  List.filter (beyond (ScanIndexForward q) (ExclusiveStartKey q)) (q_scan t q).

Definition q_bound (q : QueryInput) (cap : option nat) : option nat :=
  match Limit q, cap with
  | Some n, Some c => Some (Nat.min (Z.to_nat n) c)
  | Some n, None => Some (Z.to_nat n)
  | None, Some c => Some c
  | None, None => None
  end.

Definition q_read (t : Table) (q : QueryInput) (cap : option nat) : list string :=
  match q_bound q cap with
  | Some n => take n (q_rest t q)
  | None => q_rest t q
  end.

Definition q_lek (t : Table) (q : QueryInput) (cap : option nat) : option string :=
  match q_bound q cap with
  | Some n => if (n <=? length (q_rest t q))%nat then last (q_read t q cap) else None
  | None => None
  end.

Definition q_items (t : Table) (q : QueryInput) (read : list string)
  : list (string * Attrs) :=
  omap (fun s => match t !! (q_pk q, s) with
                 | Some attrs =>
                     if passes (FilterExpression q) attrs
                     then Some (s, attrs) else None
                 | None => None
                 end) read.

(** [Query].  The store walks the keys of the range in scan order from the
    cursor on and stops after [Limit] keys or at the end of its page,
    whichever comes first; when it stops that way it reports the last key
    it looked at.  The filter applies to what was read.  A [Limit] below 1
    and a range whose upper bound is below its lower bound are rejected. *)
Definition Query (q : QueryInput) : M (QueryOutput * option error) :=
  let* f := take_fault in
  match f with
  | Some _ => ret (mkOutput [] None, Some ErrStore)
  | None =>
      if match Limit q with Some n => n <? 1 | None => false end
      then ret (mkOutput [] None, Some ErrStore)
      else if String.ltb (q_stop q) (q_start q)
      then ret (mkOutput [] None, Some ErrStore)
      else
        let* cap := next_page in
        let* t := get_tbl in
        ret (mkOutput (q_items t q (q_read t q cap)) (q_lek t q cap), None)
  end.

(** ** Stream records and their keys *)

Definition consumerKey : string := "cnk".
Definition lastDeliveryTimestampKey : string := "ldk".
Definition deliveryCountKey : string := "dck".

Record StreamItem : Type := mkStreamItem {
  ID : XID;
  Fields : gmap string AttributeValue
}.

Record PendingItem : Type := mkPendingItem {
  pi_ID : XID;
  Consumer : string;
  LastDelivered : time.Time;
  DeliveryCount : Z
}.

Inductive XReadOption : Type :=
| XReadPending       (* "PENDING" *)
| XReadNew           (* "READ_NEW" *)
| XReadNewAutoACK.   (* "READ_NEW_NO_ACK" *)

Definition xSequenceKey (key : string) : keyDef :=
  mkKey (strings.Join ["_redimo"; "seq"; key] "/") "seq".

Definition xGroupKey (key group : string) : string :=
  strings.Join ["_redimo"; key; group] "/".

Definition xGroupCursorKey (key group : string) : keyDef :=
  mkKey (xGroupKey key group) "_redimo/cursor".

(** The watermark update of [XADD]: [#val < :val], [SET #val = :val]. *)
Definition sequenceUpdateAction (xid : XID) (key : string) : TransactWriteItem :=
  let builder := newExpresionBuilder in
  let builder := addConditionLessThan (Attr vk) (StringValue xid) builder in
  let builder := updateSET vk (StringValue xid) builder in
  TxUpdate (toAV (xSequenceKey key)) builder.

Definition toPutAction (pi : PendingItem) (key : string) : TransactWriteItem :=
  let builder := newExpresionBuilder in
  let builder := updateSET consumerKey (StringValue (Consumer pi)) builder in
  let builder := updateSET lastDeliveryTimestampKey
                   (IntValue (time.Time_Unix (LastDelivered pi))) builder in
  let builder := addClause (ADD deliveryCountKey 1) builder in
  TxUpdate (toAV (mkKey key (pi_ID pi))) builder.

Definition updateDeliveryAction (pi : PendingItem) (key : string)
  : M ((string * string) * expressionBuilder) :=
  let builder := newExpresionBuilder in
  let builder := addConditionEquality (Attr consumerKey) (StringValue (Consumer pi)) builder in
  let* t := Now in
  let builder := updateSET lastDeliveryTimestampKey (IntValue (time.Time_Unix t)) builder in
  let builder := addClause (ADD deliveryCountKey 1) builder in
  ret (toAV (mkKey key (pi_ID pi)), builder).

Definition parsePendingItem (item : string * Attrs) : PendingItem :=
  let avm := snd item in
  let timestamp := ReturnValue_Int (avm !! lastDeliveryTimestampKey) in
  mkPendingItem (fst item)
    (ReturnValue_String (avm !! consumerKey))
    (time.Unix timestamp 0)
    (int32 (ReturnValue_Int (avm !! deliveryCountKey))).

(** [i.toAV]: the caller's fields go under their names prefixed with
    an underscore; the two key attributes are the key pair. *)
Definition StreamItem_toAV (i : StreamItem) : Attrs :=
  kmap (String "_") (Fields i).

Definition putAction (i : StreamItem) (key : string) : TransactWriteItem :=
  TxPut (toAV (mkKey key (ID i))) (StreamItem_toAV i).

Definition parseStreamItem (item : string * Attrs) : StreamItem :=
  mkStreamItem (fst item)
    (list_to_map
       (omap (fun kv : string * AttributeValue =>
                match fst kv with
                | String "_" k' => Some (k', snd kv)
                | _ => None
                end)
             (map_to_list (snd item)))).

(** Fuel for the paging loops: a query that reports a last key has read
    at least one key or taken a page of the schedule. *)
Definition loop_fuel : M nat :=
  fun w => Done (2 + length (pages w) + size (tbl w))%nat w.

Definition out_of_fuel {A} : M A := fun _ => OutOfFuel.

(** ** Strings and hashes: the two commands the stream code calls *)

Definition emptySK : string := "/".

Definition incr (key : string) (value : AttributeValue)
  : M (option AttributeValue * option error) :=
  match value with
  | AVN delta =>
      let builder := addClause (ADD vk delta) newExpresionBuilder in
      let* r := UpdateItem (toAV (mkKey key emptySK)) builder ReturnAllNew in
      match snd r with
      | None => ret (match fst r with Some a => a !! vk | None => None end, None)
      | Some e => ret (None, Some e)
      end
  | AVS _ => ret (None, Some ErrStore)
  end.

Definition INCRBY (key : string) (delta : Z) : M (Z * option error) :=
  let* r := incr key (IntValue delta) in
  match snd r with
  | None => ret (ReturnValue_Int (fst r), None)
  | Some e => ret (0, Some e)
  end.

Definition INCR (key : string) : M (Z * option error) := INCRBY key 1.

(** [HSET(key, fieldMap)], the one-argument form; the fields are written
    one by one. *)
Fixpoint HSET_loop (key : string) (fieldMap : list (string * AttributeValue))
    (newlySavedFields : gmap string AttributeValue)
  : M (gmap string AttributeValue * option error) :=
  match fieldMap with
  | [] => ret (newlySavedFields, None)
  | (field, value) :: rest =>
      let builder := updateSET vk value newExpresionBuilder in
      let* r := UpdateItem (toAV (mkKey key field)) builder ReturnAllOld in
      match snd r with
      | Some e => ret (newlySavedFields, Some e)
      | None =>
          HSET_loop key rest
            (match fst r with
             | None => <[field := value]> newlySavedFields
             | Some _ => newlySavedFields
             end)
      end
  end.

Definition HSET (key : string) (fieldMap : gmap string AttributeValue)
  : M (gmap string AttributeValue * option error) :=
  HSET_loop key (map_to_list fieldMap) ∅.

(** ** The stream commands *)

Fixpoint XACK_loop (key group : string) (ids : list XID) (acknowledgedIds : list XID)
  : M (list XID * option error) :=
  match ids with
  | [] => ret (acknowledgedIds, None)
  | id :: rest =>
      let* r := DeleteItem (toAV (mkKey (xGroupKey key group) id)) in
      match snd r with
      | Some e => ret (acknowledgedIds, Some e)
      | None =>
          XACK_loop key group rest
            (match fst r with
             | Some _ => acknowledgedIds ++ [id]
             | None => acknowledgedIds
             end)
      end
  end.

Definition XACK (key group : string) (ids : list XID) : M (list XID * option error) :=
  XACK_loop key group ids [].

Fixpoint XDEL_loop (key : string) (ids : list XID) (deletedItems : list XID)
  : M (list XID * option error) :=
  match ids with
  | [] => ret (deletedItems, None)
  | id :: rest =>
      let* r := DeleteItem (toAV (mkKey key id)) in
      match snd r with
      | Some e => ret (deletedItems, Some e)
      | None =>
          XDEL_loop key rest
            (match fst r with
             | Some _ => deletedItems ++ [id]
             | None => deletedItems
             end)
      end
  end.

Definition XDEL (key : string) (ids : list XID) : M (list XID * option error) :=
  XDEL_loop key ids [].

Definition xInitAction (key : string) : TransactWriteItem :=
  let builder := newExpresionBuilder in
  let builder := addConditionNotExists (Attr vk) builder in
  let builder := updateSET vk (StringValue XStart) builder in
  TxUpdate (toAV (xSequenceKey key)) builder.

Definition xInit (key : string) : M (option error) :=
  let* err := TransactWriteItems [xInitAction key] in
  if conditionFailureError err then ret None else ret err.

(** [XADD].  [budget] counts the iterations [retryCount < 2] still
    allows; a successful transaction ends the loop. *)
Fixpoint XADD_loop (budget : nat) (retryCount : Z) (key : string) (id : XID)
    (fields : gmap string AttributeValue) : M (XID * option error) :=
  match budget with
  | O => ret (id, None)
  | S budget' =>
      let* minted :=
        if String.eqb id XAutoID then
          let* t := Now in
          let* r := INCR (strings.Join ["_redimo"; "xcount"; key] "/") in
          match snd r with
          | Some e => ret (inl (id, Some e))
          | None => ret (inr (NewXID t (uint64 (fst r))))
          end
        else ret (inr id) in
      match minted with
      | inl early => ret early
      | inr id =>
          let actions :=
            [putAction (mkStreamItem id fields) key; sequenceUpdateAction id key] in
          let* err := TransactWriteItems actions in
          match err with
          | Some _ =>
              if conditionFailureError err && (retryCount =? 0) then
                let* err := xInit key in
                match err with
                | Some _ => ret (EmptyString, err)
                | None => XADD_loop budget' (retryCount + 1) key id fields
                end
              else ret (EmptyString, err)
          | None => ret (id, None)
          end
      end
  end.

Definition XADD (key : string) (id : XID) (fields : gmap string AttributeValue)
  : M (XID * option error) :=
  XADD_loop 2 0 key id fields.

(** [xRange]: the paging loop [for hasMoreResults && count > 0]. *)
Fixpoint xRange_loop (fuel : nat) (key : string) (start stop : XID) (forward : bool)
    (cursor : option string) (count : Z) (streamItems : list StreamItem)
  : M (list StreamItem * option error) :=
  match fuel with
  | O => out_of_fuel
  | S fuel' =>
      if 0 <? count then
        let* r := Query (mkQuery key start stop cursor (Some count) forward None) in
        match snd r with
        | Some e => ret (streamItems, Some e)
        | None =>
            let resp := fst r in
            let streamItems := streamItems ++ (parseStreamItem <$> Items resp) in
            let count := int32 (count - Z.of_nat (length (Items resp))) in
            match LastEvaluatedKey resp with
            | Some c => xRange_loop fuel' key start stop forward (Some c) count streamItems
            | None => ret (streamItems, None)
            end
        end
      else ret (streamItems, None)
  end.

Definition xRange (key : string) (start stop : XID) (count : Z) (forward : bool)
  : M (list StreamItem * option error) :=
  let* fuel := loop_fuel in
  xRange_loop fuel key start stop forward None count [].

Definition XRANGE (key : string) (start stop : XID) (count : Z) :=
  xRange key start stop count true.

Definition XREVRANGE (key : string) (end_ start : XID) (count : Z) :=
  xRange key start end_ count false.

(** [XREAD]; [from.Next()] panics on an XID without separator. *)
Definition XREAD (key : string) (from : XID) (count : Z)
  : M (list StreamItem * option error) :=
  match Next from with
  | Some start => XRANGE key start XEnd count
  | None => panic
  end.

Fixpoint XCLAIM_loop (key group consumer : string) (lastDeliveredBefore : time.Time)
    (ids : list XID) (items : list StreamItem) : M (list StreamItem * option error) :=
  match ids with
  | [] => ret (items, None)
  | id :: rest =>
      let builder := newExpresionBuilder in
      let builder := addConditionExists PartitionKeyAttr builder in
      let builder := addConditionLessThanOrEqualTo (Attr lastDeliveryTimestampKey)
                       (IntValue (time.Time_Unix lastDeliveredBefore)) builder in
      let* t := Now in
      let builder := updateSET lastDeliveryTimestampKey (IntValue (time.Time_Unix t)) builder in
      let builder := updateSET deliveryCountKey (IntValue 0) builder in
      let builder := updateSET consumerKey (StringValue consumer) builder in
      let* r := UpdateItem (toAV (mkKey (xGroupKey key group) id)) builder ReturnNone in
      let err := snd r in
      if conditionFailureError err then
        XCLAIM_loop key group consumer lastDeliveredBefore rest items
      else
        match err with
        | Some _ => ret (items, err)
        | None =>
            let* f := XRANGE key id id 1 in
            match snd f, fst f with
            | None, item :: _ =>
                XCLAIM_loop key group consumer lastDeliveredBefore rest (items ++ [item])
            | err, _ => ret (items, Some (ErrCouldNotLoadStreamItem err))
            end
        end
  end.

Definition XCLAIM (key group consumer : string) (lastDeliveredBefore : time.Time)
    (ids : list XID) : M (list StreamItem * option error) :=
  XCLAIM_loop key group consumer lastDeliveredBefore ids [].

Definition xGroupCursorSet (key group : string) (start : XID) : M (option error) :=
  let cursorKey := xGroupCursorKey key group in
  let* r := HSET (pk cursorKey) {[ sk cursorKey := StringValue start ]} in
  ret (snd r).

Definition XGROUP (key group : string) (start : XID) : M (option error) :=
  xGroupCursorSet key group start.

Definition xGroupCursorGet (key group : string) : M (XID * option error) :=
  let* r := GetItem (toAV (xGroupCursorKey key group)) in
  match snd r with
  | Some e => ret (EmptyString, Some e)
  | None =>
      let cursor :=
        ReturnValue_String (match fst r with Some item => item !! vk | None => None end) in
      if String.eqb cursor EmptyString then ret (EmptyString, Some ErrXGroupNotInitialized)
      else ret (cursor, None)
  end.

Definition xGroupCursorPushAction (key group : string) (id : XID) : TransactWriteItem :=
  let builder := newExpresionBuilder in
  let builder := updateSET vk (StringValue id) builder in
  let builder := addConditionLessThan (Attr vk) (StringValue id) builder in
  TxUpdate (toAV (xGroupCursorKey key group)) builder.

(** The body of the page loop of [xGroupReadPending]: [inl] is a
    [return] out of the command, [inr] the state after the page. *)
Fixpoint readPending_page (key group : string) (page : list (string * Attrs))
    (items : list StreamItem) (count : Z)
  : M ((list StreamItem * option error) + (list StreamItem * Z)) :=
  match page with
  | [] => ret (inr (items, count))
  | item :: rest =>
      let pendingItem := parsePendingItem item in
      let* a := updateDeliveryAction pendingItem (xGroupKey key group) in
      let* r := UpdateItem (fst a) (snd a) ReturnNone in
      match snd r with
      | Some e => ret (inl (items, Some e))
      | None =>
          let* f := XRANGE key (pi_ID pendingItem) (pi_ID pendingItem) 1 in
          match snd f, fst f with
          | None, fetched :: _ =>
              readPending_page key group rest (items ++ [fetched]) (int32 (count - 1))
          | err, _ => ret (inl (items, err))
          end
      end
  end.

Fixpoint xGroupReadPending_loop (fuel : nat) (key group consumer : string)
    (cursor : option string) (count : Z) (items : list StreamItem)
  : M (list StreamItem * option error) :=
  match fuel with
  | O => out_of_fuel
  | S fuel' =>
      if 0 <? count then
        let* r := Query (mkQuery (xGroupKey key group) XStart XEnd cursor (Some count) true
                           (Some (consumerKey, StringValue consumer))) in
        match snd r with
        | Some e => ret (items, Some e)
        | None =>
            let resp := fst r in
            let* p := readPending_page key group (Items resp) items count in
            match p with
            | inl early => ret early
            | inr (items, count) =>
                match LastEvaluatedKey resp with
                | Some c => xGroupReadPending_loop fuel' key group consumer (Some c) count items
                | None => ret (items, None)
                end
            end
        end
      else ret (items, None)
  end.

Definition xGroupReadPending (key group consumer : string) (count : Z)
  : M (list StreamItem * option error) :=
  let* fuel := loop_fuel in
  xGroupReadPending_loop fuel key group consumer None count [].

(** One pass of the retry loop of [XREADGROUP]: [inl] is a [return],
    [inr tt] the fall-through to [retryCount++]. *)
Definition readNew_attempt (key group consumer : string) (opt : XReadOption)
  : M ((list StreamItem * option error) + unit) :=
  let* c := xGroupCursorGet key group in
  match snd c with
  | Some e => ret (inl ([], Some e))
  | None =>
      let currentCursor := fst c in
      match Next currentCursor with
      | None => panic
      | Some start =>
          let* r := XRANGE key start XEnd 1 in
          match snd r, fst r with
          | None, item :: _ =>
              let items := fst r in
              let actions := [xGroupCursorPushAction key group (ID item)] in
              let* t := Now in
              let actions :=
                match opt with
                | XReadNew =>
                    actions ++ [toPutAction (mkPendingItem (ID item) consumer t 0)
                                  (xGroupKey key group)]
                | _ => actions
                end in
              let* err := TransactWriteItems actions in
              match err with
              | None => ret (inl (items, None))
              | Some _ =>
                  if negb (conditionFailureError err) then ret (inl (items, err))
                  else ret (inr tt)
              end
          | err, items => ret (inl (items, err))
          end
      end
  end.

Fixpoint readNew_loop (budget : nat) (key group consumer : string)
    (opt : XReadOption) : M (list StreamItem * option error) :=
  match budget with
  | O => ret ([], Some ErrTooMuchContention)
  | S budget' =>
      let* a := readNew_attempt key group consumer opt in
      match a with
      | inl result => ret result
      | inr _ => readNew_loop budget' key group consumer opt
      end
  end.

Definition XREADGROUP (key group consumer : string) (opt : XReadOption)
    (maxCount : Z) : M (list StreamItem * option error) :=
  match opt with
  | XReadPending => xGroupReadPending key group consumer maxCount
  | _ => readNew_loop 5 key group consumer opt
  end.

(** The scan of one page in [XTRIM]: keep while [newCount] lasts, then
    collect. *)
Fixpoint trim_page (page : list (string * Attrs)) (newCount : Z) (idsToDelete : list XID)
  : list XID * Z :=
  match page with
  | [] => (idsToDelete, newCount)
  | item :: rest =>
      if newCount =? 0 then trim_page rest newCount (idsToDelete ++ [fst item])
      else trim_page rest (int32 (newCount - 1)) idsToDelete
  end.

Fixpoint XTRIM_loop (fuel : nat) (key : string) (cursor : option string)
    (newCount deletedCount : Z) : M (Z * option error) :=
  match fuel with
  | O => out_of_fuel
  | S fuel' =>
      let* r := Query (mkQuery key XStart XEnd cursor None false None) in
      match snd r with
      | Some e => ret (deletedCount, Some e)
      | None =>
          let resp := fst r in
          let '(idsToDelete, newCount) := trim_page (Items resp) newCount [] in
          let* d :=
            if (0 <? length idsToDelete)%nat then
              let deletedCount := int32 (deletedCount + int32 (Z.of_nat (length idsToDelete))) in
              let* x := XDEL key idsToDelete in
              ret (deletedCount, snd x)
            else ret (deletedCount, None) in
          match snd d with
          | Some e => ret (fst d, Some e)
          | None =>
              match LastEvaluatedKey resp with
              | Some c => XTRIM_loop fuel' key (Some c) newCount (fst d)
              | None => ret (fst d, None)
              end
          end
      end
  end.

Definition XTRIM (key : string) (newCount : Z) : M (Z * option error) :=
  let* fuel := loop_fuel in
  XTRIM_loop fuel key None newCount 0.

(** ** Vocabulary of the properties *)

(** [fixed w n]: the [w] low decimal digits of [n]. *)
Fixpoint fixed (w : nat) (n : Z) : string :=
  match w with
  | O => EmptyString
  | S w' => fixed w' (n / 10) +:+ String (fmt.digit (n mod 10)) EmptyString
  end.

(** Strings of decimal digits. *)
Fixpoint all_digits (s : string) : Prop :=
  match s with
  | EmptyString => True
  | String c s' => (exists d, 0 <= d < 10 /\ c = fmt.digit d) /\ all_digits s'
  end.

(** A valid pair: a timestamp at or after the epoch that fits [int64]
    seconds, and a [uint64] sequence number. *)
Definition valid_pair (t s : Z) : Prop :=
  0 <= t <= maxInt64 /\ 0 <= s <= maxUint64.

(** The XID of a pair, through the constructor of the source. *)
Definition encode (t s : Z) : XID := NewXID (time.Unix t 0) s.

(** The world once a call has taken its entry of the fault schedule. *)
Definition popped (w : World) : World :=
  mkWorld (tbl w) (now w) (tail (faults w)) (pages w).

(** The world once a query has taken its entry of the page schedule. *)
Definition turned (w : World) : World :=
  mkWorld (tbl w) (now w) (faults w) (tail (pages w)).

Definition cap_of (w : World) : option nat :=
  match pages w with [] => None | p :: _ => Some (S p) end.

Definition first_item (t : Table) (key : string) (start stop : XID) : list StreamItem :=
  match sort_keys t key start stop with
  | s :: _ => [parseStreamItem (s, default ∅ (t !! (key, s)))]
  | [] => []
  end.

(** What the delete loop does to the result list and to the table. *)
Fixpoint del_run (p : string) (ids : list XID) (acc : list XID) (t : Table)
  : list XID * Table :=
  match ids with
  | [] => (acc, t)
  | id :: rest =>
      del_run p rest
        (match t !! (p, id) with Some _ => acc ++ [id] | None => acc end)
        (delete (p, id) t)
  end.

(** The table after the deletion of the items [ids] of partition [p]. *)
Definition del_tbl (p : string) (ids : list XID) (t : Table) : Table :=
  foldl (fun t id => delete (p, id) t) t ids.

(** The IDs of the stream at [key], oldest first. *)
Definition stream_ids (t : Table) (key : string) : list XID :=
  sort_keys t key XStart XEnd.

(** The query of [XTRIM]: the whole stream, newest first. *)
Definition trim_query (key : string) (cursor : option string) : QueryInput :=
  mkQuery key XStart XEnd cursor None false None.

Definition desc : relation string := flip String.le.

(** The watermark of the stream at [key]: the value held by its
    sequence record. *)
Definition watermark (t : Table) (key : string) : option AttributeValue :=
  match t !! toAV (xSequenceKey key) with
  | Some attrs => attrs !! vk
  | None => None
  end.

Definition xadd_actions (key : string) (id : XID) (fields : gmap string AttributeValue) :=
  [putAction (mkStreamItem id fields) key; sequenceUpdateAction id key].

Definition appended (t : Table) (key : string) (id : XID)
    (fields : gmap string AttributeValue) : Table :=
  <[toAV (xSequenceKey key) :=
      <[vk := AVS id]> (default ∅ (t !! toAV (xSequenceKey key)))]>
    (<[(key, id) := StreamItem_toAV (mkStreamItem id fields)]> t).

Definition initialised (t : Table) (key : string) : Table :=
  <[toAV (xSequenceKey key) :=
      <[vk := AVS XStart]> (default ∅ (t !! toAV (xSequenceKey key)))]> t.

(** The pending entry after a claim by [consumer] at time [t]. *)
Definition claimed (consumer : string) (entry : Attrs) (t : time.Time) : Attrs :=
  <[consumerKey := AVS consumer]>
    (<[deliveryCountKey := AVN 0]>
       (<[lastDeliveryTimestampKey := AVN (time.Time_Unix t)]> entry)).

(** The conditioned update that [XCLAIM] builds for one ID. *)
Definition claim_builder (consumer : string) (lastDeliveredBefore t : time.Time)
  : expressionBuilder :=
  updateSET consumerKey (StringValue consumer)
    (updateSET deliveryCountKey (IntValue 0)
       (updateSET lastDeliveryTimestampKey (IntValue (time.Time_Unix t))
          (addConditionLessThanOrEqualTo (Attr lastDeliveryTimestampKey)
             (IntValue (time.Time_Unix lastDeliveredBefore))
             (addConditionExists PartitionKeyAttr newExpresionBuilder)))).

(** The value held by the cursor record of the group. *)
Definition cursor_of (key group : string) (t : Table) : option AttributeValue :=
  match t !! toAV (xGroupCursorKey key group) with
  | Some attrs => attrs !! vk
  | None => None
  end.

(** The cursor has stayed, or has moved to a strictly greater XID. *)
Definition cursor_le (a b : option AttributeValue) : Prop :=
  a = b \/ exists x y, a = Some (AVS x) /\ b = Some (AVS y) /\ str_lt x y.

(** The transaction of a read that delivers the item [id]. *)
Definition read_actions (key group : string) (opt : XReadOption) (consumer : string)
    (tm : time.Time) (id : XID) : list TransactWriteItem :=
  match opt with
  | XReadNew =>
      [xGroupCursorPushAction key group id] ++
      [toPutAction (mkPendingItem id consumer tm 0) (xGroupKey key group)]
  | _ => [xGroupCursorPushAction key group id]
  end.

(** Several reads of the group, one after the other. *)
Fixpoint XREADGROUP_many (key group : string) (calls : list (string * XReadOption * Z))
  : M unit :=
  match calls with
  | [] => ret tt
  | (consumer, opt, maxCount) :: rest =>
      let* _ := XREADGROUP key group consumer opt maxCount in
      XREADGROUP_many key group rest
  end.

(** The pending entry a first delivery to [consumer] creates. *)
Definition delivered (consumer : string) (tm : time.Time) : Attrs :=
  <[deliveryCountKey := AVN 1]>
    (<[lastDeliveryTimestampKey := AVN (time.Time_Unix tm)]>
       (<[consumerKey := AVS consumer]> ∅)).

(** The table after the delivery of the item [x] to [consumer]. *)
Definition after_read (key group consumer : string) (opt : XReadOption)
    (tm : time.Time) (x : XID) (t : Table) : Table :=
  let ck := toAV (xGroupCursorKey key group) in
  let t1 := <[ck := <[vk := AVS x]> (default ∅ (t !! ck))]> t in
  match opt with
  | XReadNew => <[(xGroupKey key group, x) := delivered consumer tm]> t1
  | _ => t1
  end.

(** ** Concrete streams *)

Definition id_5_1 : XID := "00000000000000000005-00000000000000000001".
Definition id_5_2 : XID := "00000000000000000005-00000000000000000002".
Definition id_5_max : XID := "00000000000000000005-18446744073709551615".

Definition quiet_world (t : Table) : World := mkWorld t (time.Unix 100 0) [] [].

(** The stream ["s"] after [XADD] of [id_5_1]. *)
Definition stream_one : Table :=
  {[ ("s", id_5_1) := ∅; ("_redimo/seq/s", "seq") := {[ vk := AVS id_5_1 ]} ]}.

(** The same stream after [XADD] of [NewXID(time.Unix(5, 0), math.MaxUint64)]. *)
Definition stream_max : Table :=
  {[ ("s", id_5_1) := ∅; ("s", id_5_max) := ∅;
     ("_redimo/seq/s", "seq") := {[ vk := AVS id_5_max ]} ]}.

(** The group ["g"] of the stream ["s"], its cursor set by
    [XGROUP("s", "g", id_5_max)]. *)
Definition group_at_max : Table :=
  {[ ("s", id_5_1) := ∅;
     ("_redimo/seq/s", "seq") := {[ vk := AVS id_5_1 ]};
     ("_redimo/s/g", "_redimo/cursor") := {[ vk := AVS id_5_max ]} ]}.

(** The group with its cursor at [id_5_1]. *)
Definition group_at_one : Table :=
  {[ ("_redimo/s/g", "_redimo/cursor") := {[ vk := AVS id_5_1 ]} ]}.

Definition group_at_start : Table :=
  {[ ("_redimo/s/g", "_redimo/cursor") := {[ vk := AVS XStart ]} ]}.

(** A pending entry of consumer ["a"], last delivered at second 50. *)
Definition pending_one : Table :=
  {[ ("s", id_5_1) := ∅;
     ("_redimo/s/g", id_5_1) :=
       {[ consumerKey := AVS "a"; lastDeliveryTimestampKey := AVN 50;
          deliveryCountKey := AVN 3 ]} ]}.

Definition pending_entry : Attrs :=
  {[ consumerKey := AVS "a"; lastDeliveryTimestampKey := AVN 50;
     deliveryCountKey := AVN 3 ]}.

(** The same entry once its stream item has been deleted. *)
Definition pending_orphan : Table :=
  {[ ("_redimo/s/g", id_5_1) :=
       {[ consumerKey := AVS "a"; lastDeliveryTimestampKey := AVN 50;
          deliveryCountKey := AVN 3 ]} ]}.

(** A stream of two items. *)
Definition stream_two : Table :=
  {[ ("s", id_5_1) := ∅; ("s", id_5_2) := ∅ ]}.

(** A stream of three items, read by the store one item per page. *)
Definition stream_three : Table :=
  {[ ("s", id_5_1) := ∅; ("s", id_5_2) := ∅; ("s", id_5_max) := ∅ ]}.

Definition paged_world : World :=
  mkWorld stream_three (time.Unix 100 0) [] [0%nat; 0%nat; 0%nat; 0%nat].

(** The group before and after its first read in the mode without
    acknowledgement. *)
Definition group_ready : Table :=
  {[ ("s", id_5_1) := ∅;
     ("_redimo/s/g", "_redimo/cursor") := {[ vk := AVS XStart ]} ]}.

Definition group_read : Table :=
  {[ ("s", id_5_1) := ∅;
     ("_redimo/s/g", "_redimo/cursor") := {[ vk := AVS id_5_1 ]} ]}.

(** ** Vocabulary of the range reads *)

(** The stream items of [key] with the given IDs, as [XRANGE] hands them
    back. *)
Definition items_of (t : Table) (key : string) (ids : list XID) : list StreamItem :=
  (fun s => parseStreamItem (s, default ∅ (t !! (key, s)))) <$> ids.

(** The query of [xRange], forward. *)
Definition range_query (key : string) (start stop : XID) (cursor : option string)
    (count : Z) : QueryInput :=
  mkQuery key start stop cursor (Some count) true None.

(** An XID in canonical form: the encoding of a valid pair. *)
Definition canonical (x : XID) : Prop :=
  exists t s, valid_pair t s /\ x = encode t s.

(** The IDs of a list that come strictly after [from]. *)
Definition after_id (from : XID) (ids : list XID) : list XID :=
  List.filter (String.ltb from) ids.

(** A stream whose IDs are all canonical and below the greatest sequence
    number. *)
Definition regular_stream (t : Table) (key : string) : Prop :=
  forall x, x ∈ stream_ids t key ->
    exists tm s, valid_pair tm s /\ s < maxUint64 /\ x = encode tm s.

(** A schedule on which five transactions in a row are cancelled: each
    attempt of a read makes three store calls. *)
Definition contended_schedule : list (option fault) :=
  concat (replicate 5 [None; None; Some Conflict]).

Definition contended_world (i : nat) : World :=
  mkWorld group_ready (time.Unix 100 0) (drop (3 * i) contended_schedule) [].

(** ** The remaining commands of the stream file *)

(** [XLEN]: the loop [for hasMoreResults].  The query asks for the count
    only ([Select: COUNT]); [resp.Count] is the number of items of the
    page. *)
Fixpoint XLEN_loop (fuel : nat) (key : string) (start stop : XID)
    (cursor : option string) (count : Z) : M (Z * option error) :=
  match fuel with
  | O => out_of_fuel
  | S fuel' =>
      let* r := Query (mkQuery key start stop cursor None true None) in
      match snd r with
      | Some e => ret (count, Some e)
      | None =>
          let resp := fst r in
          let count := int32 (count + int32 (Z.of_nat (length (Items resp)))) in
          match LastEvaluatedKey resp with
          | Some c => XLEN_loop fuel' key start stop (Some c) count
          | None => ret (count, None)
          end
      end
  end.

Definition XLEN (key : string) (start stop : XID) : M (Z * option error) :=
  let* fuel := loop_fuel in
  XLEN_loop fuel key start stop None 0.

(** [XPENDING]: the loop [for hasMoreResults && count > 0] over the
    entries of the group. *)
Fixpoint XPENDING_loop (fuel : nat) (key group : string) (cursor : option string)
    (count : Z) (pendingItems : list PendingItem)
  : M (list PendingItem * option error) :=
  match fuel with
  | O => out_of_fuel
  | S fuel' =>
      if 0 <? count then
        let* r := Query (mkQuery (xGroupKey key group) XStart XEnd cursor
                           (Some count) true None) in
        match snd r with
        | Some e => ret (pendingItems, Some e)
        | None =>
            let resp := fst r in
            let pendingItems := pendingItems ++ (parsePendingItem <$> Items resp) in
            let count := int32 (count - Z.of_nat (length (Items resp))) in
            match LastEvaluatedKey resp with
            | Some c => XPENDING_loop fuel' key group (Some c) count pendingItems
            | None => ret (pendingItems, None)
            end
        end
      else ret (pendingItems, None)
  end.

Definition XPENDING (key group : string) (count : Z)
  : M (list PendingItem * option error) :=
  let* fuel := loop_fuel in
  XPENDING_loop fuel key group None count [].

(** [DECR] and [DECRBY] of the strings file; the negation is on [int64]. *)
Definition DECR (key : string) : M (Z * option error) := INCRBY key (-1).

Definition DECRBY (key : string) (delta : Z) : M (Z * option error) :=
  INCRBY key (int64 (- delta)).

(** ** Vocabulary of the further properties *)

(** Prefixing with a byte loses nothing: the field names of a stream item
    keep apart under the prefix [toAV] gives them. *)
Global Instance String_inj c : Inj (=) (=) (String c).
Proof. intros a b E. now inversion E. Qed.

(** A string without the separator of XIDs. *)
Fixpoint no_sep (s : string) : Prop :=
  match s with
  | EmptyString => True
  | String c s' => c <> "-"%char /\ no_sep s'
  end.

(** The loop that [xRange] and [XPENDING] have in common, over the way
    [parse] of reading an item. *)
Fixpoint paged_loop {A} (parse : string * Attrs -> A) (fuel : nat) (p : string)
    (start stop : string) (forward : bool) (cursor : option string) (count : Z)
    (acc : list A) : M (list A * option error) :=
  match fuel with
  | O => out_of_fuel
  | S fuel' =>
      if 0 <? count then
        let* r := Query (mkQuery p start stop cursor (Some count) forward None) in
        match snd r with
        | Some e => ret (acc, Some e)
        | None =>
            let resp := fst r in
            let acc := acc ++ (parse <$> Items resp) in
            let count := int32 (count - Z.of_nat (length (Items resp))) in
            match LastEvaluatedKey resp with
            | Some c => paged_loop parse fuel' p start stop forward (Some c) count acc
            | None => ret (acc, None)
            end
        end
      else ret (acc, None)
  end.

(** The items of partition [p] with the sort keys [ids], read by
    [parse]. *)
Definition parsed_of {A} (parse : string * Attrs -> A) (t : Table) (p : string)
    (ids : list string) : list A :=
  (fun s => parse (s, default ∅ (t !! (p, s)))) <$> ids.

(** The IDs of the pending entries of a group, oldest first. *)
Definition pending_ids (t : Table) (key group : string) : list XID :=
  sort_keys t (xGroupKey key group) XStart XEnd.

(** The stream accepts [id]: its watermark is below [id]; a stream
    without watermark record counts as one whose watermark is [XStart]. *)
Definition accepts (t : Table) (key : string) (id : XID) : Prop :=
  match watermark t key with
  | Some (AVS wm) => str_lt wm id
  | Some (AVN _) => False
  | None => str_lt XStart id
  end.

(** The table once the lazy initialization of [XADD] has run. *)
Definition with_watermark (t : Table) (key : string) : Table :=
  match watermark t key with
  | None => initialised t key
  | Some _ => t
  end.

(** The number held at a key: an absent record or attribute counts as 0,
    as [ADD] takes it; [None] when the value is not a number. *)
Definition number_at (t : Table) (k : string * string) : option Z :=
  match t !! k with
  | Some attrs =>
      match attrs !! vk with
      | Some (AVN n) => Some n
      | Some (AVS _) => None
      | None => Some 0
      end
  | None => Some 0
  end.

(** The table after [n] has been written at [k] by an [ADD]. *)
Definition with_number (t : Table) (k : string * string) (n : Z) : Table :=
  <[k := <[vk := AVN n]> (default ∅ (t !! k))]> t.

(** The record that counts the automatic IDs of a stream. *)
Definition xcountKey (key : string) : string * string :=
  (strings.Join ["_redimo"; "xcount"; key] "/", emptySK).

(** A stream of two items and a group that has read nothing of it. *)
Definition group_two : Table :=
  {[ ("s", id_5_1) := ∅; ("s", id_5_2) := ∅;
     ("_redimo/s/g", "_redimo/cursor") := {[ vk := AVS XStart ]} ]}.

(** The pending entry after one more delivery at time [tm]. *)
Definition redelivered (entry : Attrs) (tm : time.Time) : Attrs :=
  <[deliveryCountKey := AVN (match entry !! deliveryCountKey with
                             | Some (AVN n) => n + 1
                             | _ => 1
                             end)]>
    (<[lastDeliveryTimestampKey := AVN (time.Time_Unix tm)]> entry).

(** The table after the redelivery of the entries [ids] of the group
    partition [gk]. *)
Definition redeliver (gk : string) (tm : time.Time) (ids : list XID) (t : Table)
  : Table :=
  foldl (fun t id => <[(gk, id) := redelivered (default ∅ (t !! (gk, id))) tm]> t)
        t ids.

(** The pending entry at [id] belongs to [consumer]. *)
Definition owned (t : Table) (gk consumer : string) (id : XID) : bool :=
  match t !! (gk, id) with
  | Some attrs => bool_decide (attrs !! consumerKey = Some (AVS consumer))
  | None => false
  end.

(** A redelivery of the entry at [id] can go through: the stream still
    holds the item, and the delivery count is a number. *)
Definition deliverable (t : Table) (key gk : string) (id : XID) : Prop :=
  is_Some (t !! (key, id)) /\
  forall attrs s, t !! (gk, id) = Some attrs ->
                  attrs !! deliveryCountKey <> Some (AVS s).

(** The query of [xGroupReadPending]. *)
Definition pending_query (gk consumer : string) (cursor : option string) (count : Z)
  : QueryInput :=
  mkQuery gk XStart XEnd cursor (Some count) true
          (Some (consumerKey, StringValue consumer)).

(** A name without the separator of key parts. *)
Fixpoint no_slash (s : string) : Prop :=
  match s with
  | EmptyString => True
  | String c s' => c <> "/"%char /\ no_slash s'
  end.

(* ================================================================== *)
(** * Part II. Properties                                               *)
(* ================================================================== *)

(** ** Fixed-width decimal numerals *)

Section Numerals.

Lemma append_nil_l (b : string) : EmptyString +:+ b = b.
Proof. reflexivity. Qed.

Lemma append_cons x (a b : string) : String x a +:+ b = String x (a +:+ b).
Proof. reflexivity. Qed.

Lemma append_assoc (a b c : string) : (a +:+ b) +:+ c = a +:+ (b +:+ c).
Proof.
  induction a as [|x a IH]; [reflexivity|].
  now rewrite !append_cons, IH.
Qed.

Lemma append_nil_r (a : string) : a +:+ EmptyString = a.
Proof.
  induction a as [|x a IH]; [reflexivity|]. now rewrite append_cons, IH.
Qed.

Lemma length_append (a b : string) :
  String.length (a +:+ b) = (String.length a + String.length b)%nat.
Proof.
  induction a as [|x a IH]; [reflexivity|].
  rewrite append_cons. simpl. now rewrite IH.
Qed.

Lemma length_fixed w n : String.length (fixed w n) = w.
Proof.
  revert n; induction w as [|w IH]; intros n; simpl; [reflexivity|].
  rewrite length_append, IH. simpl. lia.
Qed.

Lemma zeros_succ_r k :
  fmt.zeros k +:+ String "0" EmptyString = String "0" (fmt.zeros k).
Proof.
  induction k as [|k IH]; [reflexivity|].
  simpl fmt.zeros. now rewrite append_cons, IH.
Qed.

Lemma fixed_zero w : fixed w 0 = fmt.zeros w.
Proof.
  induction w as [|w IH]; [reflexivity|].
  simpl fixed. change (0 / 10) with 0. rewrite IH.
  change (fmt.digit (0 mod 10)) with "0"%char. apply zeros_succ_r.
Qed.

Lemma digits_length_pos f n : (0 < f)%nat -> (0 < String.length (fmt.digits f n))%nat.
Proof.
  destruct f as [|f]; [lia|]. intros _. simpl.
  destruct (n <? 10); simpl; [lia|]. rewrite length_append. simpl. lia.
Qed.

Lemma digits_length_le f n : (String.length (fmt.digits f n) <= f)%nat.
Proof.
  revert n; induction f as [|f IH]; intros n; simpl; [lia|].
  destruct (n <? 10); simpl; [lia|].
  rewrite length_append. simpl. specialize (IH (n / 10)). lia.
Qed.

(** Padding the unpadded digits gives the fixed-width numeral. *)
Lemma padZero_digits w f n :
  0 <= n < 10 ^ Z.of_nat f -> (0 < f <= w)%nat ->
  fmt.padZero w (fmt.digits f n) = fixed w n.
Proof.
  revert w n; induction f as [|f IH]; intros w n Hn Hw; [lia|].
  destruct w as [|w]; [lia|].
  simpl fmt.digits. destruct (Z.ltb_spec n 10) as [Hlt|Hge].
  - unfold fmt.padZero. simpl String.length.
    replace (S w - 1)%nat with w by lia.
    simpl fixed. rewrite Z.div_small, Z.mod_small by lia.
    now rewrite fixed_zero.
  - assert (Hf : (0 < f)%nat).
    { destruct f; [|lia]. simpl in Hn. lia. }
    assert (Hq : 0 <= n / 10 < 10 ^ Z.of_nat f).
    { split; [apply Z.div_pos; lia|].
      apply Z.div_lt_upper_bound; [lia|].
      replace (Z.of_nat (S f)) with (Z.succ (Z.of_nat f)) in Hn by lia.
      rewrite Z.pow_succ_r in Hn by lia. lia. }
    simpl fixed. rewrite <- (IH w (n / 10) Hq) by lia.
    unfold fmt.padZero. rewrite length_append. simpl String.length.
    pose proof (digits_length_pos f (n / 10) Hf).
    pose proof (digits_length_le f (n / 10)).
    replace (S w - (String.length (fmt.digits f (n / 10)) + 1))%nat
      with (w - String.length (fmt.digits f (n / 10)))%nat by lia.
    now rewrite append_assoc.
Qed.

Lemma Sprintf_020d_fixed n :
  0 <= n < 10 ^ 20 -> fmt.Sprintf_020d n = fixed 20 n.
Proof.
  intros Hn. unfold fmt.Sprintf_020d.
  destruct (Z.ltb_spec n 0); [lia|].
  apply padZero_digits; [exact Hn | lia].
Qed.

Lemma N_of_digit d : 0 <= d < 10 -> N_of_ascii (fmt.digit d) = (48 + Z.to_N d)%N.
Proof.
  intros Hd. unfold fmt.digit. apply N_ascii_embedding. lia.
Qed.

Lemma digit_compare a b :
  0 <= a < 10 -> 0 <= b < 10 ->
  Ascii.compare (fmt.digit a) (fmt.digit b) = (a ?= b).
Proof.
  intros Ha Hb. unfold Ascii.compare. rewrite !N_of_digit by lia.
  rewrite <- N2Z.inj_compare, !N2Z.inj_add, !Z2N.id by lia.
  apply Z.add_compare_mono_l.
Qed.

(** Comparing two numerals of the same width is comparing the numbers;
    on a tie the comparison goes on with what follows. *)
Lemma compare_fixed w : forall m n x y,
  0 <= m < 10 ^ Z.of_nat w -> 0 <= n < 10 ^ Z.of_nat w ->
  String.compare (fixed w m +:+ x) (fixed w n +:+ y) =
  match m ?= n with Eq => String.compare x y | c => c end.
Proof.
  induction w as [|w IH]; intros m n x y Hm Hn.
  - simpl in *. assert (m = 0) by lia. assert (n = 0) by lia. subst.
    reflexivity.
  - replace (Z.of_nat (S w)) with (Z.succ (Z.of_nat w)) in * by lia.
    rewrite Z.pow_succ_r in * by lia.
    simpl fixed. rewrite !append_assoc. simpl append at 2 4.
    rewrite IH.
    2,3: split; [apply Z.div_pos; lia | apply Z.div_lt_upper_bound; lia].
    pose proof (Z.div_mod m 10 ltac:(lia)) as Em.
    pose proof (Z.div_mod n 10 ltac:(lia)) as En.
    pose proof (Z.mod_pos_bound m 10 ltac:(lia)) as Bm.
    pose proof (Z.mod_pos_bound n 10 ltac:(lia)) as Bn.
    destruct (Z.compare_spec (m / 10) (n / 10)) as [Hq|Hq|Hq].
    + simpl String.compare. rewrite digit_compare by lia.
      destruct (Z.compare_spec (m mod 10) (n mod 10)) as [Hr|Hr|Hr];
        destruct (Z.compare_spec m n); try reflexivity; lia.
    + destruct (Z.compare_spec m n); try reflexivity; lia.
    + destruct (Z.compare_spec m n); try reflexivity; lia.
Qed.

Lemma isDigit_digit d : 0 <= d < 10 -> strconv.isDigit (fmt.digit d) = true.
Proof.
  intros Hd. unfold strconv.isDigit. rewrite N_of_digit by lia.
  apply andb_true_intro; split; apply Z.leb_le; lia.
Qed.

Lemma digitVal_digit d : 0 <= d < 10 -> strconv.digitVal (fmt.digit d) = d.
Proof. intros Hd. unfold strconv.digitVal. rewrite N_of_digit by lia. lia. Qed.

(** The digit loop reads a fixed-width numeral back, as long as the
    value stays within [uint64]. *)
Lemma parseDigits_fixed w : forall n s acc,
  0 <= n < 10 ^ Z.of_nat w -> 0 <= acc ->
  acc * 10 ^ Z.of_nat w + n <= maxUint64 ->
  strconv.parseDigits (fixed w n +:+ s) acc =
  strconv.parseDigits s (acc * 10 ^ Z.of_nat w + n).
Proof.
  induction w as [|w IH]; intros n s acc Hn Hacc Hmax.
  - simpl in *. f_equal. lia.
  - replace (Z.of_nat (S w)) with (Z.succ (Z.of_nat w)) in * by lia.
    rewrite Z.pow_succ_r in * by lia.
    pose proof (Z.div_mod n 10 ltac:(lia)) as En.
    pose proof (Z.mod_pos_bound n 10 ltac:(lia)) as Bn.
    assert (Hq : 0 <= n / 10 < 10 ^ Z.of_nat w).
    { split; [apply Z.div_pos; lia | apply Z.div_lt_upper_bound; lia]. }
    simpl fixed. rewrite append_assoc. simpl append at 2.
    rewrite IH by (try assumption; nia).
    simpl strconv.parseDigits. rewrite isDigit_digit, digitVal_digit by lia.
    set (a := acc * 10 ^ Z.of_nat w + n / 10).
    assert (Ha : a * 10 + n mod 10 = acc * (10 * 10 ^ Z.of_nat w) + n) by (unfold a; lia).
    assert (Ha0 : 0 <= a) by (unfold a; nia).
    destruct (Z.leb_spec (maxUint64 / 10 + 1) a) as [Hc|Hc].
    { exfalso. unfold maxUint64 in *.
      change (18446744073709551615 / 10 + 1) with 1844674407370955162 in Hc. lia. }
    destruct (Z.ltb_spec maxUint64 (a * 10 + n mod 10)); [lia|].
    now rewrite Ha.
Qed.

Lemma fixed_nonempty w n : (0 < w)%nat -> fixed w n <> EmptyString.
Proof.
  intros Hw E. apply (f_equal String.length) in E.
  rewrite length_fixed in E. simpl in E. lia.
Qed.

Lemma ParseUint_fixed w n :
  (0 < w)%nat -> 0 <= n < 10 ^ Z.of_nat w -> n <= maxUint64 ->
  strconv.ParseUint (fixed w n) = (n, None).
Proof.
  intros Hw Hn Hmax. unfold strconv.ParseUint.
  pose proof (fixed_nonempty w n Hw) as Hne.
  destruct (fixed w n) as [|c r] eqn:E; [congruence|]. rewrite <- E.
  rewrite <- (append_nil_r (fixed w n)).
  rewrite parseDigits_fixed by (simpl; lia).
  replace (0 * 10 ^ Z.of_nat w + n) with n by lia. reflexivity.
Qed.

(** The first byte of a numeral is a digit, so neither sign nor
    separator. *)
Lemma fixed_head w n :
  (0 < w)%nat -> 0 <= n ->
  exists d r, 0 <= d < 10 /\ fixed w n = String (fmt.digit d) r.
Proof.
  revert n; induction w as [|w IH]; intros n Hw Hn; [lia|].
  simpl fixed. destruct w as [|w].
  - simpl. exists (n mod 10), EmptyString. split; [|reflexivity].
    apply Z.mod_pos_bound; lia.
  - destruct (IH (n / 10)) as (d & r & Hd & E); [lia | apply Z.div_pos; lia |].
    rewrite E. simpl. eauto.
Qed.

Lemma digit_not_sign d :
  0 <= d < 10 ->
  Ascii.eqb (fmt.digit d) "-" = false /\ Ascii.eqb (fmt.digit d) "+" = false.
Proof.
  intros Hd.
  assert (d = 0 \/ d = 1 \/ d = 2 \/ d = 3 \/ d = 4 \/ d = 5 \/ d = 6 \/
          d = 7 \/ d = 8 \/ d = 9) as Hc by lia.
  repeat (destruct Hc as [->|Hc]; [split; reflexivity|]). subst. split; reflexivity.
Qed.

Lemma ParseInt_fixed w n :
  (0 < w)%nat -> 0 <= n < 10 ^ Z.of_nat w -> n <= maxInt64 ->
  strconv.ParseInt (fixed w n) = (n, None).
Proof.
  intros Hw Hn Hmax. unfold strconv.ParseInt.
  destruct (fixed_head w n Hw ltac:(lia)) as (d & r & Hd & E).
  destruct (digit_not_sign d Hd) as [Hm Hp].
  rewrite E, Hm, Hp. simpl orb. cbv iota. rewrite <- E.
  rewrite ParseUint_fixed by (unfold maxInt64, maxUint64 in *; lia).
  simpl negb. simpl andb.
  destruct (Z.leb_spec (2 ^ 63) n); [unfold maxInt64 in *; lia | reflexivity].
Qed.

(** Splitting at the separator. *)
Lemma all_digits_app a b : all_digits a -> all_digits b -> all_digits (a +:+ b).
Proof.
  induction a as [|x a IH]; intros Ha Hb; [exact Hb|].
  rewrite append_cons. destruct Ha as [Hx Ha]. split; auto.
Qed.

Lemma all_digits_fixed w n : 0 <= n -> all_digits (fixed w n).
Proof.
  revert n; induction w as [|w IH]; intros n Hn; [exact I|].
  simpl fixed. apply all_digits_app.
  - apply IH. apply Z.div_pos; lia.
  - split; [|exact I]. exists (n mod 10). split; [|reflexivity].
    apply Z.mod_pos_bound; lia.
Qed.

Lemma Split_nonempty s sep : strings.Split s sep <> [].
Proof.
  destruct s as [|c s]; simpl; [discriminate|].
  destruct (strings.Split s sep); [discriminate|].
  destruct (Ascii.eqb c sep); discriminate.
Qed.

Lemma Split_digits_sep d s :
  all_digits d ->
  strings.Split (d +:+ String "-" s) "-" = d :: strings.Split s "-".
Proof.
  induction d as [|x d IH]; intros Hd.
  - rewrite append_nil_l. simpl.
    pose proof (Split_nonempty s "-").
    destruct (strings.Split s "-"); [congruence | reflexivity].
  - destruct Hd as [(k & Hk & ->) Hd]. rewrite append_cons. simpl.
    rewrite (IH Hd). destruct (digit_not_sign k Hk) as [-> _]. reflexivity.
Qed.

Lemma Split_digits d : all_digits d -> strings.Split d "-" = [d].
Proof.
  induction d as [|x d IH]; intros Hd; [reflexivity|].
  destruct Hd as [(k & Hk & ->) Hd]. simpl.
  rewrite (IH Hd). destruct (digit_not_sign k Hk) as [-> _]. reflexivity.
Qed.

End Numerals.

(** ** The XID codec *)

Section Codec.

Lemma NewXID_fixed ts s :
  0 <= time.Time_Unix ts < 10 ^ 20 -> 0 <= s < 10 ^ 20 ->
  NewXID ts s = fixed 20 (time.Time_Unix ts) +:+ String "-" (fixed 20 s).
Proof.
  intros Ht Hs. unfold NewXID, strings.Join. simpl String.concat.
  now rewrite !Sprintf_020d_fixed.
Qed.

Lemma Split_NewXID ts s :
  0 <= time.Time_Unix ts < 10 ^ 20 -> 0 <= s < 10 ^ 20 ->
  strings.Split (NewXID ts s) "-" = [fixed 20 (time.Time_Unix ts); fixed 20 s].
Proof.
  intros Ht Hs. rewrite NewXID_fixed by assumption.
  rewrite Split_digits_sep by (apply all_digits_fixed; lia).
  rewrite Split_digits by (apply all_digits_fixed; lia). reflexivity.
Qed.

Lemma Time_NewXID ts s :
  0 <= time.Time_Unix ts <= maxInt64 -> 0 <= s < 10 ^ 20 ->
  Time (NewXID ts s) = time.Unix (time.Time_Unix ts) 0.
Proof.
  intros Ht Hs. unfold Time.
  rewrite Split_NewXID by (unfold maxInt64 in *; lia).
  cbn [List.nth]. rewrite ParseInt_fixed; [reflexivity| lia | | lia].
  unfold maxInt64 in *; lia.
Qed.

Lemma Seq_NewXID ts s :
  0 <= time.Time_Unix ts < 10 ^ 20 -> 0 <= s <= maxUint64 ->
  Seq (NewXID ts s) = Some s.
Proof.
  intros Ht Hs. unfold Seq.
  rewrite Split_NewXID by (unfold maxUint64 in *; lia).
  rewrite ParseUint_fixed; [reflexivity| lia | | lia].
  unfold maxUint64 in *; lia.
Qed.

Lemma length_NewXID ts s :
  0 <= time.Time_Unix ts < 10 ^ 20 -> 0 <= s < 10 ^ 20 ->
  String.length (NewXID ts s) = 41%nat.
Proof.
  intros Ht Hs. rewrite NewXID_fixed by assumption.
  rewrite length_append, length_fixed. cbn [String.length].
  rewrite length_fixed. reflexivity.
Qed.

Lemma compare_NewXID ta sa tb sb :
  0 <= time.Time_Unix ta < 10 ^ 20 -> 0 <= sa < 10 ^ 20 ->
  0 <= time.Time_Unix tb < 10 ^ 20 -> 0 <= sb < 10 ^ 20 ->
  String.compare (NewXID ta sa) (NewXID tb sb) =
  match time.Time_Unix ta ?= time.Time_Unix tb with
  | Eq => sa ?= sb
  | c => c
  end.
Proof.
  intros Hta Hsa Htb Hsb. rewrite !NewXID_fixed by assumption.
  rewrite compare_fixed by assumption.
  destruct (time.Time_Unix ta ?= time.Time_Unix tb); try reflexivity.
  cbn [String.compare]. change (Ascii.compare "-" "-") with Eq. cbv iota.
  rewrite <- (append_nil_r (fixed 20 sa)), <- (append_nil_r (fixed 20 sb)).
  rewrite compare_fixed by assumption.
  destruct (sa ?= sb); reflexivity.
Qed.

(** The decoders and the order on the encoding of valid pairs. *)
Lemma Time_encode t s :
  valid_pair t s -> time.Time_Unix (Time (encode t s)) = t.
Proof.
  intros [Ht Hs]. unfold encode.
  rewrite Time_NewXID by (simpl; unfold maxUint64 in *; lia). reflexivity.
Qed.

Lemma length_encode t s : valid_pair t s -> String.length (encode t s) = 41%nat.
Proof.
  intros [Ht Hs]. unfold encode, maxInt64, maxUint64 in *.
  apply length_NewXID; simpl; lia.
Qed.

Lemma encode_lt ta sa tb sb :
  valid_pair ta sa -> valid_pair tb sb ->
  str_lt (encode ta sa) (encode tb sb) <-> ta < tb \/ (ta = tb /\ sa < sb).
Proof.
  intros [Hta Hsa] [Htb Hsb]. unfold str_lt, encode.
  unfold maxInt64, maxUint64 in *.
  rewrite compare_NewXID by (simpl; lia). simpl.
  destruct (Z.compare_spec ta tb) as [Ht|Ht|Ht].
  - rewrite Z.compare_lt_iff. lia.
  - split; [lia | reflexivity].
  - split; [discriminate | lia].
Qed.

(** C5: for every valid (timestamp, sequence) pair the encoded XID
    decodes to that timestamp through [Time] and to that sequence number
    through [Seq], and the encoded string always has the same length (41
    bytes). *)
Theorem xid_round_trip t s :
  valid_pair t s ->
  Time (encode t s) = time.Unix t 0 /\
  time.Time_Unix (Time (encode t s)) = t /\
  Seq (encode t s) = Some s /\
  String.length (encode t s) = 41%nat.
Proof.
  intros [Ht Hs]. unfold encode. unfold maxInt64, maxUint64 in *.
  rewrite Time_NewXID by (simpl; unfold maxInt64; lia).
  rewrite Seq_NewXID by (simpl; unfold maxUint64; lia).
  rewrite length_NewXID by (simpl; lia).
  repeat split.
Qed.

Lemma xid_round_trip_witness :
  valid_pair 1700000000 42 /\
  Time (encode 1700000000 42) = time.Unix 1700000000 0 /\
  Seq (encode 1700000000 42) = Some 42.
Proof.
  assert (H : valid_pair 1700000000 42) by (unfold valid_pair, maxInt64, maxUint64; lia).
  split; [exact H|].
  destruct (xid_round_trip 1700000000 42 H) as (H1 & _ & H3 & _).
  split; assumption.
Defined.

(** C2: for XIDs built from valid pairs, the byte-wise string order is
    the lexicographic order of the (timestamp, sequence) pairs. *)
Theorem xid_order_iff ta sa tb sb :
  valid_pair ta sa -> valid_pair tb sb ->
  str_lt (encode ta sa) (encode tb sb) <-> pair_lt (ta, sa) (tb, sb).
Proof.
  intros Ha Hb. unfold pair_lt. cbn [fst snd]. now apply encode_lt.
Qed.

Lemma xid_order_iff_witness :
  valid_pair 5 18446744073709551615 /\ valid_pair 6 0 /\
  (str_lt (encode 5 18446744073709551615) (encode 6 0) <->
   pair_lt (5, 18446744073709551615) (6, 0)).
Proof.
  assert (Ha : valid_pair 5 18446744073709551615)
    by (unfold valid_pair, maxInt64, maxUint64; lia).
  assert (Hb : valid_pair 6 0) by (unfold valid_pair, maxInt64, maxUint64; lia).
  split; [exact Ha|]. split; [exact Hb|].
  exact (xid_order_iff 5 18446744073709551615 6 0 Ha Hb).
Defined.

End Codec.

(** ** The order of sort keys *)

Section KeyOrder.

Lemma leb_le a b : String.leb a b = true <-> (a ≤ b)%string.
Proof. unfold String.le. split; [apply Is_true_true_2 | apply Is_true_true_1]. Qed.

Lemma compare_refl a : String.compare a a = Eq.
Proof.
  induction a as [|c a IH]; [reflexivity|]. simpl.
  unfold Ascii.compare. now rewrite N.compare_refl.
Qed.

Lemma ltb_lt a b : String.ltb a b = true <-> str_lt a b.
Proof.
  unfold String.ltb, str_lt. destruct (String.compare a b); split; congruence.
Qed.

Lemma le_compare a b : (a ≤ b)%string <-> String.compare a b <> Gt.
Proof.
  unfold String.le, String.leb.
  destruct (String.compare a b); simpl; intuition congruence.
Qed.

Lemma str_lt_le a b : str_lt a b -> (a ≤ b)%string.
Proof. unfold str_lt. rewrite le_compare. congruence. Qed.

Lemma str_lt_irrefl a : ~ str_lt a a.
Proof. unfold str_lt. rewrite compare_refl. discriminate. Qed.

Lemma str_lt_ne a b : str_lt a b -> a <> b.
Proof. intros H ->. now apply str_lt_irrefl in H. Qed.

Lemma str_lt_iff a b : str_lt a b <-> (a ≤ b)%string /\ a <> b.
Proof.
  split.
  - intros H. split; [now apply str_lt_le | now apply str_lt_ne].
  - intros [Hle Hne]. apply le_compare in Hle. unfold str_lt.
    destruct (String.compare a b) eqn:E; [|reflexivity|congruence].
    apply String.compare_eq_iff in E. congruence.
Qed.

Lemma str_lt_not_le a b : str_lt a b <-> ~ (b ≤ a)%string.
Proof.
  rewrite le_compare. unfold str_lt. rewrite (String.compare_antisym a b).
  destruct (String.compare b a); simpl; intuition congruence.
Qed.

Lemma str_le_lt_trans a b c : (a ≤ b)%string -> str_lt b c -> str_lt a c.
Proof.
  intros Hab Hbc. apply str_lt_not_le. intros Hca.
  apply str_lt_not_le in Hbc. apply Hbc. now transitivity a.
Qed.

Lemma str_lt_le_trans a b c : str_lt a b -> (b ≤ c)%string -> str_lt a c.
Proof.
  intros Hab Hbc. apply str_lt_not_le. intros Hca.
  apply str_lt_not_le in Hab. apply Hab. now transitivity c.
Qed.

Lemma str_lt_trans a b c : str_lt a b -> str_lt b c -> str_lt a c.
Proof. intros Hab Hbc. eapply str_lt_le_trans; [eassumption | now apply str_lt_le]. Qed.

Lemma ltb_false_le a b : String.ltb a b = false <-> (b ≤ a)%string.
Proof.
  split.
  - intros H. destruct (decide (b ≤ a)%string) as [|Hn]; [assumption|].
    apply str_lt_not_le, ltb_lt in Hn. congruence.
  - intros H. destruct (String.ltb a b) eqn:E; [|reflexivity].
    apply ltb_lt, str_lt_not_le in E. contradiction.
Qed.

End KeyOrder.

(** ** The key listing of a partition *)

Section SortKeys.

Lemma elem_of_sort_keys (t : Table) p lo hi x :
  x ∈ sort_keys t p lo hi <->
  is_Some (t !! (p, x)) /\ (lo ≤ x)%string /\ (x ≤ hi)%string.
Proof.
  unfold sort_keys. rewrite merge_sort_Permutation.
  rewrite list_elem_of_fmap. split.
  - intros ([p' x'] & -> & Hin). apply list_elem_of_filter in Hin.
    destruct Hin as [(Hp & Hlo & Hhi) Hin]. simpl in *. subst p'.
    apply list_elem_of_fmap in Hin. destruct Hin as ([k v] & Hk & Hin).
    simpl in Hk. subst k. apply elem_of_map_to_list in Hin.
    split; [eexists; eassumption | split; assumption].
  - intros ([v Hv] & Hlo & Hhi). exists (p, x). split; [reflexivity|].
    apply list_elem_of_filter. split; [simpl; auto|].
    apply list_elem_of_fmap. exists (p, x, v). split; [reflexivity|].
    now apply elem_of_map_to_list.
Qed.

Lemma NoDup_sort_keys (t : Table) p lo hi : NoDup (sort_keys t p lo hi).
Proof.
  unfold sort_keys. rewrite merge_sort_Permutation.
  apply NoDup_fmap_2_strong.
  - intros [p1 x1] [p2 x2] H1 H2 E. simpl in E. subst x2.
    apply list_elem_of_filter in H1, H2. simpl in *.
    destruct H1 as [(-> & _) _]. destruct H2 as [(-> & _) _]. reflexivity.
  - apply NoDup_filter, NoDup_fst_map_to_list.
Qed.

Lemma sorted_sort_keys (t : Table) p lo hi :
  StronglySorted String.le (sort_keys t p lo hi).
Proof. apply StronglySorted_merge_sort; apply _. Qed.

Lemma StronglySorted_filter {A} (R : relation A) (f : A -> bool) l :
  StronglySorted R l -> StronglySorted R (List.filter f l).
Proof.
  induction 1 as [|x l Hl IH Hx]; simpl; [constructor|].
  destruct (f x); [|assumption]. constructor; [assumption|].
  rewrite Forall_forall in *. intros y Hy.
  apply list_elem_of_In, List.filter_In in Hy. destruct Hy as [Hy _].
  apply Hx. now apply list_elem_of_In.
Qed.

(** A sorted list without repetition is determined by its elements. *)
Lemma sorted_elements_unique (l1 l2 : list string) :
  StronglySorted String.le l1 -> StronglySorted String.le l2 ->
  NoDup l1 -> NoDup l2 -> (forall x, x ∈ l1 <-> x ∈ l2) -> l1 = l2.
Proof.
  intros S1 S2 N1 N2 E. apply (StronglySorted_unique String.le); try assumption.
  now apply NoDup_Permutation.
Qed.

Lemma sort_keys_characterised (t : Table) p lo hi (l : list string) :
  StronglySorted String.le l -> NoDup l ->
  (forall x, x ∈ l <-> is_Some (t !! (p, x)) /\ (lo ≤ x)%string /\ (x ≤ hi)%string) ->
  sort_keys t p lo hi = l.
Proof.
  intros Sl Nl E. apply sorted_elements_unique; try assumption.
  - apply sorted_sort_keys.
  - apply NoDup_sort_keys.
  - intros x. rewrite elem_of_sort_keys. symmetry. apply E.
Qed.

(** The listing of a one-key range. *)
Lemma sort_keys_point (t : Table) p x :
  sort_keys t p x x = match t !! (p, x) with Some _ => [x] | None => [] end.
Proof.
  apply sort_keys_characterised.
  - destruct (t !! (p, x)); repeat constructor.
  - destruct (t !! (p, x)); [apply NoDup_singleton | apply NoDup_nil_2].
  - intros y. destruct (t !! (p, x)) eqn:E.
    + rewrite list_elem_of_singleton. split.
      * intros ->. rewrite E. split; [eauto|]. split; reflexivity.
      * intros (_ & H1 & H2). now apply (anti_symm String.le).
    + split; [intros H; inversion H|].
      intros ([v Hv] & H1 & H2).
      assert (y = x) by now apply (anti_symm String.le). subst.
      congruence.
Qed.

(** Writing outside the partition, or replacing an item that is
    there, leaves the listing as it is. *)
Lemma sort_keys_same_dom (t t' : Table) p lo hi :
  (forall x, is_Some (t' !! (p, x)) <-> is_Some (t !! (p, x))) ->
  sort_keys t' p lo hi = sort_keys t p lo hi.
Proof.
  intros E. apply sort_keys_characterised.
  - apply sorted_sort_keys.
  - apply NoDup_sort_keys.
  - intros x. rewrite elem_of_sort_keys, E. reflexivity.
Qed.

Lemma sort_keys_delete (t : Table) p lo hi x :
  sort_keys (delete (p, x) t) p lo hi =
  List.filter (fun y => negb (String.eqb y x)) (sort_keys t p lo hi).
Proof.
  apply sort_keys_characterised.
  - apply StronglySorted_filter, sorted_sort_keys.
  - apply NoDup_ListNoDup, List.NoDup_filter, NoDup_ListNoDup, NoDup_sort_keys.
  - intros y. rewrite list_elem_of_In, List.filter_In, <- list_elem_of_In.
    rewrite elem_of_sort_keys, negb_true_iff, String.eqb_neq.
    rewrite lookup_delete. case_decide as Hd.
    + inversion Hd; subst. split; [intros [_ H]; congruence|].
      intros [[v Hv] _]. discriminate.
    + assert (y <> x) by congruence. tauto.
Qed.

End SortKeys.

(** ** Store calls on a quiet schedule *)

Section StoreCalls.

Lemma set_tbl_id w : set_tbl (tbl w) w = w.
Proof. now destruct w. Qed.

Lemma take_fault_quiet w : faults w = [] -> take_fault w = Done None w.
Proof. unfold take_fault. now intros ->. Qed.

Lemma DeleteItem_quiet k w :
  faults w = [] ->
  DeleteItem k w = Done (tbl w !! k, None) (set_tbl (delete k (tbl w)) w).
Proof.
  intros Hf. unfold DeleteItem, bind. now rewrite take_fault_quiet.
Qed.

Lemma GetItem_quiet k w :
  faults w = [] -> GetItem k w = Done (tbl w !! k, None) w.
Proof.
  intros Hf. unfold GetItem, bind. now rewrite take_fault_quiet.
Qed.

Lemma UpdateItem_quiet k b rv w :
  faults w = [] ->
  UpdateItem k b rv w =
  if forallb (holds k (tbl w !! k)) (conditions b) then
    match apply_clauses (default ∅ (tbl w !! k)) (clauses b) with
    | Some new =>
        Done (match rv with
              | ReturnNone => None
              | ReturnAllOld => tbl w !! k
              | ReturnAllNew => Some new
              end, None) (set_tbl (<[k := new]> (tbl w)) w)
    | None => Done (None, Some ErrStore) w
    end
  else Done (None, Some ErrConditionalCheckFailed) w.
Proof.
  intros Hf. unfold UpdateItem, bind. rewrite take_fault_quiet by assumption.
  unfold get_tbl.
  destruct (forallb _ _); [|reflexivity].
  destruct (apply_clauses _ _); reflexivity.
Qed.

Lemma TransactWriteItems_unfold actions w :
  TransactWriteItems actions w =
  match faults w with
  | Some Unavailable :: _ => Done (Some ErrStore) (popped w)
  | Some Conflict :: _ => Done (Some ErrConditionalCheckFailed) (popped w)
  | _ => tx_body actions (popped w)
  end.
Proof.
  unfold TransactWriteItems, bind, take_fault, popped.
  destruct w as [t n fs ps]. cbn [faults tbl now pages].
  destruct fs as [|[[]|] fs]; reflexivity.
Qed.

Lemma popped_quiet w : faults w = [] -> popped w = w.
Proof. destruct w as [t n fs ps]. simpl. now intros ->. Qed.

Lemma TransactWriteItems_quiet actions w :
  faults w = [] -> TransactWriteItems actions w = tx_body actions w.
Proof.
  intros Hf. rewrite TransactWriteItems_unfold, Hf.
  now rewrite popped_quiet.
Qed.

Lemma tx_body_error actions w e w' :
  tx_body actions w = Done (Some e) w' -> w' = w.
Proof.
  unfold tx_body. destruct (negb _); [now intros [= _ ->]|].
  destruct (forallb _ _); [|now intros [= _ ->]].
  destruct (tx_apply_all _ _); [discriminate | now intros [= _ ->]].
Qed.

(** Whatever the schedule, a store call that reports an error has left
    the table alone. *)
Lemma TransactWriteItems_error actions w e w' :
  TransactWriteItems actions w = Done (Some e) w' -> tbl w' = tbl w.
Proof.
  rewrite TransactWriteItems_unfold.
  destruct (faults w) as [|[[]|] fs].
  2,3: now intros [= _ <-].
  all: intros H; apply tx_body_error in H; now subst.
Qed.

End StoreCalls.

(** ** XDEL and XACK *)

Section Deletes.

Lemma XACK_loop_XDEL_loop key group ids : forall acc w,
  XACK_loop key group ids acc w = XDEL_loop (xGroupKey key group) ids acc w.
Proof.
  induction ids as [|id rest IH]; intros acc w; [reflexivity|].
  simpl. unfold bind.
  destruct (DeleteItem _ w) as [[old e] w'| |]; try reflexivity.
  simpl. destruct e; [reflexivity | apply IH].
Qed.

Lemma XDEL_loop_quiet p ids : forall acc w,
  faults w = [] ->
  XDEL_loop p ids acc w =
  Done (fst (del_run p ids acc (tbl w)), None)
       (set_tbl (snd (del_run p ids acc (tbl w))) w).
Proof.
  induction ids as [|id rest IH]; intros acc w Hf.
  - simpl. unfold ret. now rewrite set_tbl_id.
  - simpl. unfold bind. unfold toAV; simpl pk; simpl sk.
    rewrite DeleteItem_quiet by assumption. simpl.
    rewrite IH by assumption. reflexivity.
Qed.

(** A fault at the call for the [n]-th ID stops the loop there: the
    result and the table are those of the first [n] IDs. *)
Lemma XDEL_loop_fault p : forall n ids acc w f fs,
  faults w = replicate n None ++ Some f :: fs -> (n < length ids)%nat ->
  XDEL_loop p ids acc w =
  Done (fst (del_run p (take n ids) acc (tbl w)), Some ErrStore)
       (mkWorld (snd (del_run p (take n ids) acc (tbl w))) (now w) fs (pages w)).
Proof.
  induction n as [|n IH]; intros ids acc w f fs Hf Hn.
  - destruct ids as [|id rest]; [simpl in Hn; lia|].
    simpl. unfold bind, DeleteItem, bind, take_fault. rewrite Hf. reflexivity.
  - destruct ids as [|id rest]; [simpl in Hn; lia|].
    simpl. unfold bind at 1. unfold DeleteItem, bind, take_fault.
    rewrite Hf. simpl.
    erewrite IH; [reflexivity | reflexivity | simpl in Hn; lia].
Qed.

Lemma del_run_lookup p ids : forall acc t k,
  snd (del_run p ids acc t) !! k =
  if bool_decide (k ∈ (fun id => (p, id)) <$> ids) then None else t !! k.
Proof.
  induction ids as [|id rest IH]; intros acc t k; [reflexivity|].
  - cbn [del_run]. rewrite IH. rewrite fmap_cons.
    destruct (decide (k = (p, id))) as [->|Hne].
    + rewrite lookup_delete_eq.
      rewrite (bool_decide_eq_true_2 ((p, id) ∈ (p, id) :: _)) by apply list_elem_of_here.
      now destruct (bool_decide _).
    + rewrite lookup_delete_ne by congruence.
      destruct (bool_decide (k ∈ _)) eqn:E.
      * apply bool_decide_eq_true in E.
        rewrite bool_decide_eq_true_2; [reflexivity | now apply list_elem_of_further].
      * apply bool_decide_eq_false in E.
        rewrite bool_decide_eq_false_2; [reflexivity|].
        intros H. apply elem_of_cons in H. destruct H; [congruence | contradiction].
Qed.

Lemma del_run_elem p ids : forall acc t x,
  x ∈ fst (del_run p ids acc t) <->
  x ∈ acc \/ (x ∈ ids /\ is_Some (t !! (p, x))).
Proof.
  induction ids as [|id rest IH]; intros acc t x; simpl.
  - split; [auto|]. intros [H|[H _]]; [assumption | inversion H].
  - rewrite IH. rewrite elem_of_cons.
    destruct (decide (x = id)) as [->|Hne].
    + rewrite lookup_delete_eq.
      destruct (t !! (p, id)) eqn:E.
      * rewrite elem_of_app, list_elem_of_singleton.
        split; [intros [[H|H]|[_ [? H]]]; eauto; discriminate | eauto].
      * split; [intros [H|[_ [? H]]]; [auto | discriminate]|].
        intros [H|[_ [? H]]]; [auto | discriminate].
    + rewrite lookup_delete_ne by congruence.
      destruct (t !! (p, id)) eqn:E.
      * rewrite elem_of_app, list_elem_of_singleton. tauto.
      * tauto.
Qed.

(** C8: [XACK] deletes the pending entry of every ID of the list and
    reports exactly the IDs whose entry existed; an ID without entry is
    left out and is no error.  When the store fails at the call for
    some ID, the command returns at once with that error and with the
    IDs acknowledged up to there. *)
Theorem xack_reports_existing key group ids w :
  let gk := xGroupKey key group in
  (faults w = [] ->
   exists acked t',
     XACK key group ids w = Done (acked, None) (set_tbl t' w) /\
     (forall id, id ∈ acked <-> id ∈ ids /\ is_Some (tbl w !! (gk, id))) /\
     (forall id, id ∈ ids -> t' !! (gk, id) = None) /\
     (forall k, k ∉ (fun id => (gk, id)) <$> ids -> t' !! k = tbl w !! k)) /\
  (forall n f fs,
     faults w = replicate n None ++ Some f :: fs -> (n < length ids)%nat ->
     exists acked t',
       XACK key group ids w =
         Done (acked, Some ErrStore) (mkWorld t' (now w) fs (pages w)) /\
       XACK key group (take n ids) (mkWorld (tbl w) (now w) [] (pages w)) =
         Done (acked, None) (mkWorld t' (now w) [] (pages w))).
Proof.
  intros gk. split.
  - intros Hf. unfold XACK. rewrite XACK_loop_XDEL_loop. fold gk.
    rewrite XDEL_loop_quiet by assumption.
    eexists _, _. split; [reflexivity|]. split; [|split].
    + intros id. rewrite del_run_elem. split.
      * intros [H|H]; [inversion H | exact H].
      * auto.
    + intros id Hid. rewrite del_run_lookup.
      rewrite bool_decide_eq_true_2; [reflexivity|].
      now apply (list_elem_of_fmap_2 (fun id => (gk, id))).
    + intros k Hk. rewrite del_run_lookup.
      now rewrite bool_decide_eq_false_2.
  - intros n f fs Hf Hn. unfold XACK. rewrite !XACK_loop_XDEL_loop. fold gk.
    rewrite (XDEL_loop_fault gk n ids [] w f fs Hf Hn).
    rewrite XDEL_loop_quiet by reflexivity.
    eexists _, _. split; reflexivity.
Qed.

End Deletes.

(** ** Key spaces *)

Section KeySpaces.

Lemma append_length_ne (p s : string) : p <> EmptyString -> p +:+ s <> s.
Proof.
  intros Hp E. apply (f_equal String.length) in E.
  rewrite length_append in E. destruct p; [congruence | simpl in E; lia].
Qed.

Lemma xSequenceKey_pk key : pk (xSequenceKey key) = "_redimo/seq/" +:+ key.
Proof. reflexivity. Qed.

(** The watermark record of a stream is not one of its items. *)
Lemma seq_key_ne_item key id : toAV (xSequenceKey key) <> (key, id).
Proof.
  unfold toAV. rewrite xSequenceKey_pk. intros E. inversion E as [[E1 E2]].
  revert E1. apply append_length_ne. discriminate.
Qed.

Lemma xGroupKey_eq key group : xGroupKey key group = "_redimo/" +:+ (key +:+ "/" +:+ group).
Proof. reflexivity. Qed.

(** Nor is a group's partition the partition of its stream. *)
Lemma xGroupKey_ne key group : xGroupKey key group <> key.
Proof.
  rewrite xGroupKey_eq. intros E. apply (f_equal String.length) in E.
  rewrite !length_append in E. simpl in E. lia.
Qed.

End KeySpaces.

(** ** XADD and the watermark *)

Section Append.

Lemma xadd_actions_NoDup key id fields :
  bool_decide (NoDup (tx_key <$> xadd_actions key id fields)) = true.
Proof.
  apply bool_decide_eq_true. simpl. apply NoDup_cons. split.
  - rewrite list_elem_of_singleton. intros E. symmetry in E.
    revert E. apply seq_key_ne_item.
  - apply NoDup_singleton.
Qed.

Lemma xadd_holds t key id fields :
  forallb (tx_holds t) (xadd_actions key id fields) =
  match watermark t key with
  | Some (AVS wm) => String.ltb wm id
  | _ => false
  end.
Proof.
  unfold xadd_actions, watermark. simpl.
  destruct (t !! toAV (xSequenceKey key)) as [attrs|]; simpl; [|reflexivity].
  destruct (attrs !! vk) as [[wm|n]|]; simpl; try reflexivity.
  now rewrite !andb_true_r.
Qed.

Lemma xadd_apply t key id fields :
  tx_apply_all t (xadd_actions key id fields) = Some (appended t key id fields).
Proof.
  unfold xadd_actions, appended. simpl.
  rewrite lookup_insert_ne; [reflexivity|].
  intros E. symmetry in E. revert E. apply seq_key_ne_item.
Qed.

Lemma watermark_appended t key id fields :
  watermark (appended t key id fields) key = Some (AVS id).
Proof.
  unfold watermark, appended. rewrite lookup_insert_eq. apply lookup_insert_eq.
Qed.

Lemma item_appended t key id fields :
  appended t key id fields !! (key, id) =
  Some (StreamItem_toAV (mkStreamItem id fields)).
Proof.
  unfold appended. rewrite lookup_insert_ne by apply seq_key_ne_item.
  apply lookup_insert_eq.
Qed.

Lemma xadd_tx_body key id fields w :
  tx_body (xadd_actions key id fields) w =
  match watermark (tbl w) key with
  | Some (AVS wm) =>
      if String.ltb wm id then Done None (set_tbl (appended (tbl w) key id fields) w)
      else Done (Some ErrConditionalCheckFailed) w
  | _ => Done (Some ErrConditionalCheckFailed) w
  end.
Proof.
  unfold tx_body. rewrite xadd_actions_NoDup. cbn [negb].
  rewrite xadd_holds, xadd_apply.
  destruct (watermark (tbl w) key) as [[wm|n]|]; reflexivity.
Qed.

(** The transaction of [XADD], whatever the schedule. *)
Lemma xadd_tx_cases key id fields w :
  (exists e w', TransactWriteItems (xadd_actions key id fields) w = Done (Some e) w'
                /\ tbl w' = tbl w) \/
  (exists w' wm, TransactWriteItems (xadd_actions key id fields) w = Done None w'
                /\ tbl w' = appended (tbl w) key id fields
                /\ watermark (tbl w) key = Some (AVS wm) /\ str_lt wm id).
Proof.
  rewrite TransactWriteItems_unfold.
  assert (Hb := xadd_tx_body key id fields (popped w)).
  change (tbl (popped w)) with (tbl w) in Hb.
  destruct (faults w) as [|[[]|] fs].
  2,3: left; eexists _, _; split; reflexivity.
  all: rewrite Hb.
  all: destruct (watermark (tbl w) key) as [[wm|n]|] eqn:Ew;
    try (left; eexists _, _; split; reflexivity).
  all: destruct (String.ltb wm id) eqn:El;
    [ right; eexists _, wm; repeat split; now apply ltb_lt
    | left; eexists _, _; split; reflexivity ].
Qed.

Lemma xadd_tx_quiet key id fields w :
  faults w = [] ->
  TransactWriteItems (xadd_actions key id fields) w =
  match watermark (tbl w) key with
  | Some (AVS wm) =>
      if String.ltb wm id then Done None (set_tbl (appended (tbl w) key id fields) w)
      else Done (Some ErrConditionalCheckFailed) w
  | _ => Done (Some ErrConditionalCheckFailed) w
  end.
Proof.
  intros Hf. rewrite TransactWriteItems_quiet by assumption. apply xadd_tx_body.
Qed.

Lemma xinit_tx_body key w :
  tx_body [xInitAction key] w =
  match watermark (tbl w) key with
  | None => Done None (set_tbl (<[toAV (xSequenceKey key) :=
              <[vk := AVS XStart]> (default ∅ (tbl w !! toAV (xSequenceKey key)))]> (tbl w)) w)
  | Some _ => Done (Some ErrConditionalCheckFailed) w
  end.
Proof.
  unfold tx_body, watermark.
  rewrite bool_decide_eq_true_2 by (simpl; apply NoDup_singleton).
  cbn [negb]. simpl.
  destruct (tbl w !! toAV (xSequenceKey key)) as [attrs|]; simpl; [|reflexivity].
  destruct (attrs !! vk); reflexivity.
Qed.

(** The initialization leaves a stream with a watermark as it is. *)
Lemma xInit_present key w v :
  watermark (tbl w) key = Some v ->
  exists r w', xInit key w = Done r w' /\ tbl w' = tbl w.
Proof.
  intros Hw. unfold xInit, bind. rewrite TransactWriteItems_unfold.
  assert (Hb := xinit_tx_body key (popped w)).
  change (tbl (popped w)) with (tbl w) in Hb. rewrite Hw in Hb.
  destruct (faults w) as [|[[]|] fs]; try rewrite Hb; simpl;
    eexists _, _; split; reflexivity.
Qed.

Lemma xInit_absent key w :
  faults w = [] -> watermark (tbl w) key = None ->
  xInit key w = Done None (set_tbl (initialised (tbl w) key) w).
Proof.
  intros Hf Hw. unfold xInit, bind.
  rewrite TransactWriteItems_quiet, xinit_tx_body, Hw by assumption.
  reflexivity.
Qed.

Lemma watermark_initialised t key :
  watermark (initialised t key) key = Some (AVS XStart).
Proof. unfold watermark, initialised. rewrite lookup_insert_eq. apply lookup_insert_eq. Qed.

Lemma XADD_loop_explicit budget retryCount key id fields w :
  id <> XAutoID ->
  XADD_loop (S budget) retryCount key id fields w =
  match TransactWriteItems (xadd_actions key id fields) w with
  | Done None w1 => Done (id, None) w1
  | Done (Some e) w1 =>
      if conditionFailureError (Some e) && (retryCount =? 0) then
        match xInit key w1 with
        | Done None w2 => XADD_loop budget (retryCount + 1) key id fields w2
        | Done (Some e') w2 => Done (EmptyString, Some e') w2
        | Panic => Panic
        | OutOfFuel => OutOfFuel
        end
      else Done (EmptyString, Some e) w1
  | Panic => Panic
  | OutOfFuel => OutOfFuel
  end.
Proof.
  intros Hid. apply String.eqb_neq in Hid.
  cbn [XADD_loop]. rewrite Hid. unfold bind at 1. unfold ret at 1.
  fold (xadd_actions key id fields). unfold bind at 1.
  destruct (TransactWriteItems (xadd_actions key id fields) w) as [[e|] w1| |];
    try reflexivity.
  destruct (conditionFailureError (Some e) && (retryCount =? 0)); [|reflexivity].
  unfold bind. destruct (xInit key w1) as [[e'|] w2| |]; reflexivity.
Qed.

Lemma XADD_explicit key id fields w :
  id <> XAutoID ->
  XADD key id fields w =
  match TransactWriteItems (xadd_actions key id fields) w with
  | Done None w1 => Done (id, None) w1
  | Done (Some e) w1 =>
      if conditionFailureError (Some e) then
        match xInit key w1 with
        | Done None w2 =>
            match TransactWriteItems (xadd_actions key id fields) w2 with
            | Done None w3 => Done (id, None) w3
            | Done (Some e') w3 => Done (EmptyString, Some e') w3
            | Panic => Panic
            | OutOfFuel => OutOfFuel
            end
        | Done (Some e') w2 => Done (EmptyString, Some e') w2
        | Panic => Panic
        | OutOfFuel => OutOfFuel
        end
      else Done (EmptyString, Some e) w1
  | Panic => Panic
  | OutOfFuel => OutOfFuel
  end.
Proof.
  intros Hid. unfold XADD. rewrite XADD_loop_explicit by assumption.
  destruct (TransactWriteItems (xadd_actions key id fields) w) as [[e|] w1| |];
    try reflexivity.
  change (0 =? 0) with true. rewrite andb_true_r.
  destruct (conditionFailureError (Some e)); [|reflexivity].
  destruct (xInit key w1) as [[e'|] w2| |]; try reflexivity.
  rewrite XADD_loop_explicit by assumption.
  destruct (TransactWriteItems (xadd_actions key id fields) w2) as [[e''|] w3| |];
    try reflexivity.
  change (0 + 1 =? 0) with false. now rewrite andb_false_r.
Qed.

(** C1: [XADD] with an explicit ID returns an error when the ID is not
    strictly greater than the stream's watermark; when it succeeds, the
    watermark record holds that ID; and on a stream without
    watermark record it first initializes the record to [XStart] and
    then accepts any ID greater than [XStart]. *)
Theorem xadd_watermark key id fields w :
  id <> XAutoID ->
  (forall wm, watermark (tbl w) key = Some (AVS wm) -> ~ str_lt wm id ->
     exists e w', XADD key id fields w = Done (EmptyString, Some e) w' /\
                  tbl w' = tbl w) /\
  (forall r w', XADD key id fields w = Done (r, None) w' ->
     r = id /\ watermark (tbl w') key = Some (AVS id) /\
     tbl w' !! (key, id) = Some (StreamItem_toAV (mkStreamItem id fields))) /\
  (watermark (tbl w) key = None -> faults w = [] -> str_lt XStart id ->
     exists wi w',
       xInit key w = Done None wi /\
       watermark (tbl wi) key = Some (AVS XStart) /\
       XADD key id fields w = XADD_loop 1 1 key id fields wi /\
       XADD key id fields w = Done (id, None) w' /\
       watermark (tbl w') key = Some (AVS id) /\
       tbl w' !! (key, id) = Some (StreamItem_toAV (mkStreamItem id fields))).
Proof.
  intros Hid. split; [|split].
  - intros wm Hwm Hnlt. rewrite XADD_explicit by assumption.
    destruct (xadd_tx_cases key id fields w)
      as [(e & w1 & E1 & T1)|(w1 & wm' & _ & _ & Hw' & Hlt)].
    2: { rewrite Hwm in Hw'. inversion Hw'; subst. contradiction. }
    rewrite E1. destruct (conditionFailureError (Some e)); [|eauto].
    destruct (xInit_present key w1 (AVS wm)) as (r & w2 & E2 & T2).
    { now rewrite T1. }
    rewrite E2. destruct r as [e'|].
    { eexists _, _. split; [reflexivity | congruence]. }
    destruct (xadd_tx_cases key id fields w2)
      as [(e3 & w3 & E3 & T3)|(w3 & wm' & _ & _ & Hw' & Hlt)].
    2: { rewrite T2, T1, Hwm in Hw'. inversion Hw'; subst. contradiction. }
    rewrite E3. eexists _, _. split; [reflexivity | congruence].
  - intros r w'. rewrite XADD_explicit by assumption.
    destruct (xadd_tx_cases key id fields w)
      as [(e & w1 & E1 & T1)|(w1 & wm' & E1 & T1 & _)]; rewrite E1.
    2: { intros H. inversion H; subst. rewrite T1.
         split; [reflexivity|]. split; [apply watermark_appended | apply item_appended]. }
    destruct (conditionFailureError (Some e)); [|discriminate].
    destruct (xInit key w1) as [[e'|] w2| |]; try discriminate.
    destruct (xadd_tx_cases key id fields w2)
      as [(e3 & w3 & E3 & T3)|(w3 & wm' & E3 & T3 & _)]; rewrite E3;
      [discriminate|].
    intros H. inversion H; subst. rewrite T3.
    split; [reflexivity|]. split; [apply watermark_appended | apply item_appended].
  - intros Hw Hf Hlt.
    exists (set_tbl (initialised (tbl w) key) w).
    exists (set_tbl (appended (initialised (tbl w) key) key id fields) w).
    assert (Ei : xInit key w = Done None (set_tbl (initialised (tbl w) key) w))
      by now apply xInit_absent.
    assert (E2 : TransactWriteItems (xadd_actions key id fields)
                   (set_tbl (initialised (tbl w) key) w) =
                 Done None (set_tbl (appended (initialised (tbl w) key) key id fields) w)).
    { rewrite xadd_tx_quiet by assumption. simpl tbl.
      rewrite watermark_initialised. apply ltb_lt in Hlt. now rewrite Hlt. }
    assert (EX : XADD key id fields w =
                 Done (id, None)
                   (set_tbl (appended (initialised (tbl w) key) key id fields) w)).
    { rewrite XADD_explicit by assumption.
      rewrite xadd_tx_quiet by assumption. rewrite Hw. simpl.
      rewrite Ei, E2. reflexivity. }
    split; [exact Ei|]. split; [apply watermark_initialised|].
    split; [|split; [exact EX|]].
    + rewrite EX, XADD_loop_explicit by assumption. now rewrite E2.
    + split; [apply watermark_appended | apply item_appended].
Qed.

End Append.

(** ** Queries on a quiet schedule *)

Section Queries.

Lemma next_page_turned w : next_page w = Done (cap_of w) (turned w).
Proof.
  unfold next_page, cap_of, turned. destruct w as [t n fs ps].
  destruct ps; reflexivity.
Qed.

Lemma Query_quiet q w :
  faults w = [] ->
  match Limit q with Some n => n <? 1 | None => false end = false ->
  String.ltb (q_stop q) (q_start q) = false ->
  Query q w =
  Done (mkOutput (q_items (tbl w) q (q_read (tbl w) q (cap_of w)))
                 (q_lek (tbl w) q (cap_of w)), None) (turned w).
Proof.
  intros Hf Hl Hr. unfold Query, bind at 1.
  rewrite take_fault_quiet by assumption. rewrite Hl, Hr.
  unfold bind at 1. rewrite next_page_turned. reflexivity.
Qed.

Lemma filter_true {A} (l : list A) : List.filter (fun _ => true) l = l.
Proof. induction l as [|x l IH]; simpl; congruence. Qed.

(** Without filter, every key read yields its item. *)
Lemma q_items_all (t : Table) q read :
  FilterExpression q = None ->
  (forall s, s ∈ read -> is_Some (t !! (q_pk q, s))) ->
  q_items t q read =
  (fun s => (s, default ∅ (t !! (q_pk q, s)))) <$> read.
Proof.
  intros Hflt. unfold q_items. rewrite Hflt.
  induction read as [|s read IH]; intros Hall; [reflexivity|].
  cbn [omap list_omap fmap list_fmap].
  destruct (Hall s) as [attrs Hs]; [apply list_elem_of_here|]. rewrite Hs. simpl.
  f_equal. apply IH. intros s' Hs'. apply Hall. now apply list_elem_of_further.
Qed.

Lemma q_rest_subset t q s : s ∈ q_rest t q -> is_Some (t !! (q_pk q, s)).
Proof.
  unfold q_rest, q_scan. rewrite list_elem_of_In, List.filter_In, <- list_elem_of_In.
  intros [H _].
  assert (s ∈ sort_keys t (q_pk q) (q_start q) (q_stop q)) as Hs.
  { destruct (ScanIndexForward q); [assumption | now apply elem_of_reverse]. }
  now apply elem_of_sort_keys in Hs.
Qed.

Lemma q_read_subset t q cap s : s ∈ q_read t q cap -> s ∈ q_rest t q.
Proof.
  unfold q_read. destruct (q_bound q cap); [|auto].
  apply subseteq_take.
Qed.

End Queries.

(** ** Reading one item *)

Section ReadOne.

Lemma loop_fuel_eq w : loop_fuel w = Done (S (S (length (pages w) + size (tbl w)))) w.
Proof. reflexivity. Qed.

(** [XRANGE(key, start, stop, 1)] returns the first item of the range,
    if there is one. *)
Lemma XRANGE_one key start stop w :
  faults w = [] -> String.ltb stop start = false ->
  XRANGE key start stop 1 w = Done (first_item (tbl w) key start stop, None) (turned w).
Proof.
  intros Hf Hr. unfold XRANGE, xRange, bind at 1. rewrite loop_fuel_eq.
  cbn [xRange_loop]. change (0 <? 1) with true. cbv iota.
  unfold bind at 1. rewrite Query_quiet by (try assumption; reflexivity).
  cbn [fst snd Items LastEvaluatedKey].
  set (q := mkQuery key start stop None (Some 1) true None).
  assert (Hrest : q_rest (tbl w) q = sort_keys (tbl w) key start stop).
  { unfold q_rest, q_scan. simpl. apply filter_true. }
  assert (Hb : q_bound q (cap_of w) = Some 1%nat).
  { unfold q_bound. simpl. destruct (cap_of w) as [c|] eqn:Ec; [|reflexivity].
    unfold cap_of in Ec. destruct (pages w); [discriminate|].
    inversion Ec; subst. first [reflexivity | f_equal; lia]. }
  unfold q_lek, q_read. rewrite Hb, Hrest. unfold first_item.
  destruct (sort_keys (tbl w) key start stop) as [|s l] eqn:Ek.
  - reflexivity.
  - assert (Hs : is_Some (tbl w !! (key, s))).
    { assert (s ∈ sort_keys (tbl w) key start stop) as H
        by (rewrite Ek; apply list_elem_of_here).
      now apply elem_of_sort_keys in H. }
    destruct Hs as [attrs Hs].
    unfold q_items. subst q. cbn -[int32 parseStreamItem xRange_loop].
    rewrite Hs. cbn -[int32 parseStreamItem xRange_loop].
    change (int32 (1 - 1)) with 0. reflexivity.
Qed.

Lemma first_item_point t key id :
  first_item t key id id =
  match t !! (key, id) with
  | Some attrs => [parseStreamItem (id, attrs)]
  | None => []
  end.
Proof.
  unfold first_item. rewrite sort_keys_point.
  destruct (t !! (key, id)) as [attrs|] eqn:E; [|reflexivity].
  now rewrite E.
Qed.

Lemma ltb_irrefl s : String.ltb s s = false.
Proof. unfold String.ltb. now rewrite compare_refl. Qed.

End ReadOne.

(** ** XCLAIM *)

Section Claim.

Variables (key group consumer : string) (lastDeliveredBefore : time.Time).

Let gk := xGroupKey key group.

Lemma XCLAIM_loop_cons id rest items w :
  XCLAIM_loop key group consumer lastDeliveredBefore (id :: rest) items w =
  match UpdateItem (gk, id) (claim_builder consumer lastDeliveredBefore (now w)) ReturnNone w with
  | Done r w1 =>
      if conditionFailureError (snd r) then
        XCLAIM_loop key group consumer lastDeliveredBefore rest items w1
      else
        match snd r with
        | Some _ => Done (items, snd r) w1
        | None =>
            match XRANGE key id id 1 w1 with
            | Done f w2 =>
                match snd f, fst f with
                | None, item :: _ =>
                    XCLAIM_loop key group consumer lastDeliveredBefore rest
                      (items ++ [item]) w2
                | err, _ => Done (items, Some (ErrCouldNotLoadStreamItem err)) w2
                end
            | Panic => Panic
            | OutOfFuel => OutOfFuel
            end
        end
  | Panic => Panic
  | OutOfFuel => OutOfFuel
  end.
Proof.
  cbn [XCLAIM_loop]. unfold bind at 1. unfold Now at 1. unfold bind at 1.
  fold gk. change (toAV (mkKey gk id)) with (gk, id).
  fold (claim_builder consumer lastDeliveredBefore (now w)).
  destruct (UpdateItem (gk, id) (claim_builder consumer lastDeliveredBefore (now w)) ReturnNone w) as [r w1| |];
    try reflexivity.
  destruct (conditionFailureError (snd r)); [reflexivity|].
  destruct (snd r); [reflexivity|].
  unfold bind.
  destruct (XRANGE key id id 1 w1) as [[[|item fetched] [e|]] w2| |]; reflexivity.
Qed.

Lemma claim_holds id entry ts :
  entry !! lastDeliveryTimestampKey = Some (AVN ts) ->
  forallb (holds (gk, id) (Some entry)) (conditions (claim_builder consumer lastDeliveredBefore (time.Unix 0 0))) =
  (ts <=? time.Time_Unix lastDeliveredBefore).
Proof.
  intros Hts. simpl. rewrite Hts. simpl. now rewrite andb_true_r.
Qed.

Lemma after_seconds ts :
  0 <= time.nsec lastDeliveredBefore ->
  time.After (time.Unix ts 0) lastDeliveredBefore =
  negb (ts <=? time.Time_Unix lastDeliveredBefore).
Proof.
  intros Hn. unfold time.After, time.Time_Unix, time.Unix. simpl.
  destruct (Z.ltb_spec (time.nsec lastDeliveredBefore) 0); [lia|].
  rewrite andb_false_r, orb_false_r.
  destruct (Z.ltb_spec (time.sec lastDeliveredBefore) ts);
    destruct (Z.leb_spec ts (time.sec lastDeliveredBefore)); try reflexivity; lia.
Qed.

(** An entry delivered after the threshold is passed over. *)
Lemma XCLAIM_skip id rest items w entry ts :
  faults w = [] ->
  tbl w !! (gk, id) = Some entry ->
  entry !! lastDeliveryTimestampKey = Some (AVN ts) ->
  time.Time_Unix lastDeliveredBefore < ts ->
  XCLAIM_loop key group consumer lastDeliveredBefore (id :: rest) items w =
  XCLAIM_loop key group consumer lastDeliveredBefore rest items w.
Proof.
  intros Hf He Hts Hlt. rewrite XCLAIM_loop_cons.
  rewrite UpdateItem_quiet by assumption. rewrite He.
  change (conditions (claim_builder consumer lastDeliveredBefore (now w)))
    with (conditions (claim_builder consumer lastDeliveredBefore (time.Unix 0 0))).
  rewrite (claim_holds id entry ts Hts).
  destruct (Z.leb_spec ts (time.Time_Unix lastDeliveredBefore)); [lia|].
  reflexivity.
Qed.

(** The store call of a claim that goes through. *)
Lemma claim_update id w entry ts :
  faults w = [] ->
  tbl w !! (gk, id) = Some entry ->
  entry !! lastDeliveryTimestampKey = Some (AVN ts) ->
  ts <= time.Time_Unix lastDeliveredBefore ->
  UpdateItem (gk, id) (claim_builder consumer lastDeliveredBefore (now w)) ReturnNone w =
  Done (None, None) (set_tbl (<[(gk, id) := claimed consumer entry (now w)]> (tbl w)) w).
Proof.
  intros Hf He Hts Hle. rewrite UpdateItem_quiet by assumption. rewrite He.
  change (conditions (claim_builder consumer lastDeliveredBefore (now w)))
    with (conditions (claim_builder consumer lastDeliveredBefore (time.Unix 0 0))).
  rewrite (claim_holds id entry ts Hts).
  destruct (Z.leb_spec ts (time.Time_Unix lastDeliveredBefore)); [|lia].
  reflexivity.
Qed.

Lemma stream_item_kept (id : XID) (t : Table) (v : Attrs) :
  <[(gk, id) := v]> t !! (key, id) = t !! (key, id).
Proof.
  apply lookup_insert_ne. intros E. apply (f_equal fst) in E.
  revert E. apply xGroupKey_ne.
Qed.

(** C6: a pending entry whose last delivery is strictly after the
    threshold is passed over by [XCLAIM]: nothing is written, nothing is
    added to the result, and it is no error.  An entry last delivered at
    or before the threshold is reassigned to the claiming consumer with
    delivery count 0 and timestamp now, and its stream item is added to
    the result. *)
Theorem xclaim_threshold id rest items w entry ts :
  faults w = [] ->
  0 <= time.nsec lastDeliveredBefore ->
  tbl w !! (gk, id) = Some entry ->
  entry !! lastDeliveryTimestampKey = Some (AVN ts) ->
  (time.After (time.Unix ts 0) lastDeliveredBefore = true ->
     XCLAIM_loop key group consumer lastDeliveredBefore (id :: rest) items w =
     XCLAIM_loop key group consumer lastDeliveredBefore rest items w /\
     XCLAIM key group consumer lastDeliveredBefore [id] w = Done ([], None) w) /\
  (time.After (time.Unix ts 0) lastDeliveredBefore = false ->
     forall fields, tbl w !! (key, id) = Some fields ->
     let entry' := claimed consumer entry (now w) in
     let w' := turned (set_tbl (<[(gk, id) := entry']> (tbl w)) w) in
     XCLAIM_loop key group consumer lastDeliveredBefore (id :: rest) items w =
     XCLAIM_loop key group consumer lastDeliveredBefore rest
       (items ++ [parseStreamItem (id, fields)]) w' /\
     XCLAIM key group consumer lastDeliveredBefore [id] w =
       Done ([parseStreamItem (id, fields)], None) w' /\
     entry' !! consumerKey = Some (AVS consumer) /\
     entry' !! deliveryCountKey = Some (AVN 0) /\
     entry' !! lastDeliveryTimestampKey = Some (AVN (time.Time_Unix (now w)))).
Proof.
  intros Hf Hn He Hts. rewrite after_seconds by assumption. split.
  - intros Ha. apply negb_true_iff, Z.leb_gt in Ha.
    split; [now apply (XCLAIM_skip id rest items w entry ts)|].
    unfold XCLAIM. now rewrite (XCLAIM_skip id [] [] w entry ts).
  - intros Ha fields Hitem entry' w'. apply negb_false_iff, Z.leb_le in Ha.
    assert (Hstep : forall rest items,
      XCLAIM_loop key group consumer lastDeliveredBefore (id :: rest) items w =
      XCLAIM_loop key group consumer lastDeliveredBefore rest
        (items ++ [parseStreamItem (id, fields)]) w').
    { intros rest' items'. rewrite XCLAIM_loop_cons.
      rewrite (claim_update id w entry ts) by assumption.
      cbn [snd conditionFailureError].
      rewrite XRANGE_one by (try assumption; apply ltb_irrefl).
      cbn [fst snd tbl set_tbl]. rewrite first_item_point, stream_item_kept, Hitem.
      reflexivity. }
    split; [apply Hstep|]. split; [unfold XCLAIM; now rewrite Hstep|].
    unfold entry', claimed. split; [apply lookup_insert_eq|].
    split.
    + rewrite lookup_insert_ne by discriminate. apply lookup_insert_eq.
    + rewrite !lookup_insert_ne by discriminate. apply lookup_insert_eq.
Qed.

(** C10: when the reassignment of a pending entry goes through and the
    fetch of its stream item finds nothing, [XCLAIM] stops there: it
    returns the items gathered so far and an error, leaves the rest of
    the IDs alone, and the entry stays reassigned to the new consumer
    with delivery count 0. *)
Theorem xclaim_missing_item id rest items w entry ts :
  faults w = [] ->
  tbl w !! (gk, id) = Some entry ->
  entry !! lastDeliveryTimestampKey = Some (AVN ts) ->
  ts <= time.Time_Unix lastDeliveredBefore ->
  tbl w !! (key, id) = None ->
  let entry' := claimed consumer entry (now w) in
  let w' := turned (set_tbl (<[(gk, id) := entry']> (tbl w)) w) in
  XCLAIM_loop key group consumer lastDeliveredBefore (id :: rest) items w =
    Done (items, Some (ErrCouldNotLoadStreamItem None)) w' /\
  tbl w' !! (gk, id) = Some entry' /\
  entry' !! consumerKey = Some (AVS consumer) /\
  entry' !! deliveryCountKey = Some (AVN 0) /\
  (forall k, k <> (gk, id) -> tbl w' !! k = tbl w !! k).
Proof.
  intros Hf He Hts Hle Hitem entry' w'. split; [|split; [|split; [|split]]].
  - rewrite XCLAIM_loop_cons.
    rewrite (claim_update id w entry ts) by assumption.
    cbn [snd conditionFailureError].
    rewrite XRANGE_one by (try assumption; apply ltb_irrefl).
    cbn [fst snd tbl set_tbl]. rewrite first_item_point, stream_item_kept, Hitem.
    reflexivity.
  - apply lookup_insert_eq.
  - apply lookup_insert_eq.
  - unfold entry', claimed. rewrite lookup_insert_ne by discriminate.
    apply lookup_insert_eq.
  - intros k Hk. simpl. now rewrite lookup_insert_ne.
Qed.

End Claim.

(** ** XTRIM *)

Section Trim.

Implicit Types (t : Table) (l R D : list string) (key c x : string).

Lemma StronglySorted_reverse_desc l :
  StronglySorted String.le l -> StronglySorted desc (reverse l).
Proof.
  induction 1 as [|x l Hl IH Hx]; [constructor|].
  rewrite reverse_cons. apply StronglySorted_app_2.
  - intros x1 x2 H1 H2. apply list_elem_of_singleton in H2. subst x2.
    rewrite elem_of_reverse in H1. rewrite Forall_forall in Hx.
    unfold desc, flip. now apply Hx.
  - exact IH.
  - repeat constructor.
Qed.

Lemma desc_elements_unique l1 l2 :
  StronglySorted desc l1 -> StronglySorted desc l2 ->
  NoDup l1 -> NoDup l2 -> (forall x, x ∈ l1 <-> x ∈ l2) -> l1 = l2.
Proof.
  intros S1 S2 N1 N2 E. apply (StronglySorted_unique_strong desc); try assumption.
  - intros x1 x2 _ _ H1 H2. now apply (anti_symm String.le).
  - now apply NoDup_Permutation.
Qed.

Lemma NoDup_filter_stdlib {A} (f : A -> bool) (l : list A) :
  NoDup l -> NoDup (List.filter f l).
Proof.
  intros H. apply NoDup_ListNoDup, List.NoDup_filter. now apply NoDup_ListNoDup.
Qed.

Lemma elem_of_filter_stdlib {A} (f : A -> bool) (l : list A) (a : A) :
  a ∈ List.filter f l <-> f a = true /\ a ∈ l.
Proof. rewrite !list_elem_of_In, List.filter_In. tauto. Qed.

(** In a descending list, everything is at or above the last element. *)
Lemma desc_last l c x :
  StronglySorted desc l -> last l = Some c -> x ∈ l -> (c ≤ x)%string.
Proof.
  intros Hs Hl Hx. apply last_Some in Hl. destruct Hl as [l' ->].
  apply elem_of_app in Hx. destruct Hx as [Hx|Hx].
  - apply (StronglySorted_app_1_elem_of desc l' [c] x c Hs Hx).
    apply list_elem_of_here.
  - apply list_elem_of_singleton in Hx. now subst.
Qed.

Lemma q_rest_desc t q :
  ScanIndexForward q = false -> StronglySorted desc (q_rest t q).
Proof.
  intros Hq. unfold q_rest, q_scan. rewrite Hq.
  apply StronglySorted_filter, StronglySorted_reverse_desc, sorted_sort_keys.
Qed.

Lemma q_rest_NoDup t q : NoDup (q_rest t q).
Proof.
  unfold q_rest, q_scan. apply NoDup_filter_stdlib.
  destruct (ScanIndexForward q); [|rewrite reverse_Permutation]; apply NoDup_sort_keys.
Qed.

Lemma elem_of_trim_rest t key cursor x :
  x ∈ q_rest t (trim_query key cursor) <->
  beyond false cursor x = true /\
  is_Some (t !! (key, x)) /\ (XStart ≤ x)%string /\ (x ≤ XEnd)%string.
Proof.
  unfold q_rest, q_scan. simpl. rewrite elem_of_filter_stdlib, elem_of_reverse.
  now rewrite elem_of_sort_keys.
Qed.

Lemma del_run_snd p ids : forall acc t, snd (del_run p ids acc t) = del_tbl p ids t.
Proof.
  induction ids as [|id rest IH]; intros acc t; [reflexivity|].
  simpl. apply IH.
Qed.

Lemma del_tbl_lookup p ids t k :
  del_tbl p ids t !! k =
  if bool_decide (k ∈ (fun id => (p, id)) <$> ids) then None else t !! k.
Proof. rewrite <- (del_run_snd p ids []). apply del_run_lookup. Qed.

Lemma del_tbl_lookup_key p ids t x :
  is_Some (del_tbl p ids t !! (p, x)) <-> (x ∉ ids) /\ is_Some (t !! (p, x)).
Proof.
  rewrite del_tbl_lookup. case_bool_decide as H.
  - apply list_elem_of_fmap in H. destruct H as (y & [= ->] & Hy).
    split; [intros [? ?]; discriminate | tauto].
  - split; [|tauto]. intros Hs. split; [|assumption].
    intros Hx. apply H. now apply (list_elem_of_fmap_2 (fun id => (p, id))).
Qed.

Lemma del_tbl_app p ids1 ids2 t :
  del_tbl p (ids1 ++ ids2) t = del_tbl p ids2 (del_tbl p ids1 t).
Proof. unfold del_tbl. apply foldl_app. Qed.

(** After a page, with some of its keys deleted, the scan goes on with
    what came after the page. *)
Lemma trim_rest_next t key cursor b c D :
  let R := q_rest t (trim_query key cursor) in
  last (take b R) = Some c ->
  D ⊆ take b R ->
  q_rest (del_tbl key D t) (trim_query key (Some c)) = drop b R.
Proof.
  intros R Hc HD.
  assert (HR : StronglySorted desc R) by now apply q_rest_desc.
  assert (HN : NoDup R) by apply q_rest_NoDup.
  rewrite <- (take_drop b R) in HR, HN.
  apply NoDup_app in HN. destruct HN as (Nt & Ndis & Nd).
  assert (Hcin : c ∈ take b R) by now apply last_Some_elem_of.
  apply desc_elements_unique.
  - now apply q_rest_desc.
  - now apply StronglySorted_app_1_r in HR.
  - apply q_rest_NoDup.
  - exact Nd.
  - intros x. rewrite elem_of_trim_rest, del_tbl_lookup_key. simpl. split.
    + intros (Hlt & (HxD & Hx) & Hlo & Hhi). apply ltb_lt in Hlt.
      assert (HxR : x ∈ R).
      { apply elem_of_trim_rest. repeat split; try assumption.
        destruct cursor as [c0|]; [|reflexivity]. simpl.
        assert (c ∈ R) as HcR by now apply (subseteq_take b).
        apply elem_of_trim_rest in HcR. destruct HcR as (Hc0 & _).
        simpl in Hc0. apply ltb_lt. apply ltb_lt in Hc0.
        now apply (str_lt_trans x c c0). }
      rewrite <- (take_drop b R) in HxR. apply elem_of_app in HxR.
      destruct HxR as [Hxt|Hxd]; [|assumption]. exfalso.
      assert (c ≤ x)%string as Hle.
      { apply (desc_last (take b R) c x); try assumption.
        now apply StronglySorted_app_1_l in HR. }
      apply str_lt_not_le in Hlt. contradiction.
    + intros Hxd.
      assert (HxR : x ∈ R) by now apply (subseteq_drop b).
      apply elem_of_trim_rest in HxR. destruct HxR as (_ & Hx & Hlo & Hhi).
      repeat split; try assumption.
      * apply ltb_lt. apply str_lt_iff. split.
        -- apply (StronglySorted_app_1_elem_of desc _ _ c x HR Hcin Hxd).
        -- intros ->. now apply (Ndis c).
      * intros HxD. apply HD in HxD. now apply (Ndis x).
Qed.

Lemma int32_small z : - 2 ^ 31 <= z <= maxInt32 -> int32 z = z.
Proof.
  unfold int32, maxInt32. intros H.
  rewrite Z.mod_small by lia. lia.
Qed.

(** The scan of a page keeps while the count lasts and collects the
    rest. *)
Lemma trim_page_spec page : forall n acc,
  0 <= n <= maxInt32 ->
  trim_page page n acc =
  (acc ++ (fst <$> drop (Z.to_nat n) page),
   Z.of_nat (Z.to_nat n - length page)).
Proof.
  induction page as [|item rest IH]; intros n acc Hn.
  - simpl. rewrite drop_nil, app_nil_r. f_equal. lia.
  - cbn [trim_page]. destruct (Z.eqb_spec n 0) as [->|Hne].
    + rewrite IH by (unfold maxInt32; lia). simpl.
      now rewrite <- app_assoc.
    + rewrite int32_small by (unfold maxInt32 in *; lia).
      rewrite IH by lia.
      replace (Z.to_nat n) with (S (Z.to_nat (n - 1))) by lia.
      reflexivity.
Qed.

Lemma q_items_keys t q read :
  FilterExpression q = None ->
  (forall s, s ∈ read -> is_Some (t !! (q_pk q, s))) ->
  fst <$> q_items t q read = read.
Proof.
  intros Hf Hall. rewrite q_items_all by assumption.
  rewrite <- list_fmap_compose. apply list_fmap_id.
Qed.

Lemma XTRIM_loop_cases fuel key cursor n d w :
  faults w = [] -> 0 <= n <= maxInt32 ->
  let q := trim_query key cursor in
  let read := q_read (tbl w) q (cap_of w) in
  let ids := drop (Z.to_nat n) read in
  let d' := if (0 <? length ids)%nat
            then int32 (d + int32 (Z.of_nat (length ids))) else d in
  let w1 := set_tbl (del_tbl key ids (tbl w)) (turned w) in
  XTRIM_loop (S fuel) key cursor n d w =
  match q_lek (tbl w) q (cap_of w) with
  | Some c => XTRIM_loop fuel key (Some c) (Z.of_nat (Z.to_nat n - length read)) d' w1
  | None => Done (d', None) w1
  end.
Proof.
  intros Hf Hn q read ids d' w1. cbn [XTRIM_loop]. unfold bind at 1.
  fold (trim_query key cursor). fold q.
  rewrite Query_quiet by (try assumption; reflexivity).
  cbn [fst snd Items LastEvaluatedKey]. fold read.
  rewrite trim_page_spec by assumption. rewrite app_nil_l, fmap_drop.
  rewrite q_items_keys;
    [| reflexivity
     | intros s Hs; apply (q_rest_subset _ q), (q_read_subset _ _ (cap_of w)), Hs].
  fold ids.
  assert (Hlen : length (q_items (tbl w) q read) = length read).
  { rewrite <- (length_fmap fst). rewrite q_items_keys; [reflexivity | reflexivity |].
    intros s Hs. apply (q_rest_subset _ q), (q_read_subset _ _ (cap_of w)), Hs. }
  rewrite Hlen.
  destruct (0 <? length ids)%nat eqn:El.
  - unfold bind at 1. unfold bind at 1. unfold XDEL.
    rewrite XDEL_loop_quiet by assumption. rewrite del_run_snd.
    cbn [fst snd ret]. fold d'.
    replace (set_tbl (del_tbl key ids (tbl (turned w))) (turned w)) with w1 by reflexivity.
    destruct (q_lek (tbl w) q (cap_of w)); reflexivity.
  - unfold bind at 1. cbn [fst snd ret].
    assert (ids = []) as Hnil.
    { apply Nat.ltb_ge in El. destruct ids; [reflexivity | simpl in El; lia]. }
    assert (w1 = turned w) as ->.
    { unfold w1. rewrite Hnil. apply (set_tbl_id (turned w)). }
    destruct (q_lek (tbl w) q (cap_of w)); reflexivity.
Qed.

Lemma trim_count d (ids : list XID) :
  0 <= d -> d + Z.of_nat (length ids) <= maxInt32 ->
  (if (0 <? length ids)%nat
   then int32 (d + int32 (Z.of_nat (length ids))) else d) =
  d + Z.of_nat (length ids).
Proof.
  intros Hd Hb. destruct (0 <? length ids)%nat eqn:E.
  - rewrite (int32_small (Z.of_nat _)) by (unfold maxInt32 in *; lia).
    apply int32_small. unfold maxInt32 in *; lia.
  - apply Nat.ltb_ge in E. lia.
Qed.

(** The loop of [XTRIM], from any state it can be in: it deletes what
    lies beyond the [n] keys still to keep and counts it. *)
Lemma XTRIM_loop_spec key : forall ps fuel cursor n d w,
  faults w = [] -> pages w = ps -> (length ps < fuel)%nat ->
  0 <= n <= maxInt32 -> 0 <= d ->
  let R := q_rest (tbl w) (trim_query key cursor) in
  let ids := drop (Z.to_nat n) R in
  d + Z.of_nat (length R) <= maxInt32 ->
  exists w',
    XTRIM_loop fuel key cursor n d w = Done (d + Z.of_nat (length ids), None) w' /\
    tbl w' = del_tbl key ids (tbl w).
Proof.
  induction ps as [|p ps IH]; intros fuel cursor n d w Hf Hp Hfuel Hn Hd R ids Hb.
  - destruct fuel as [|fuel]; [simpl in Hfuel; lia|].
    rewrite XTRIM_loop_cases by assumption.
    assert (Hcap : cap_of w = None) by (unfold cap_of; now rewrite Hp).
    unfold q_lek, q_read. rewrite Hcap. cbn [q_bound trim_query Limit].
    fold R. fold ids. rewrite trim_count.
    + eexists. split; reflexivity.
    + assumption.
    + unfold ids. rewrite length_drop. lia.
  - destruct fuel as [|fuel]; [simpl in Hfuel; lia|].
    rewrite XTRIM_loop_cases by assumption.
    assert (Hcap : cap_of w = Some (S p)) by (unfold cap_of; now rewrite Hp).
    unfold q_lek, q_read. rewrite Hcap. cbn [q_bound trim_query Limit].
    fold (trim_query key cursor). fold R.
    destruct (Nat.leb_spec (S p) (length R)) as [Hle|Hgt].
    + assert (Hlast : is_Some (last (take (S p) R))).
      { apply last_is_Some. intros E. apply (f_equal length) in E.
        rewrite length_take in E. change (length (@nil string)) with 0%nat in E. lia. }
      destruct Hlast as [c Hc]. rewrite Hc.
      set (read := take (S p) R). set (pids := drop (Z.to_nat n) read).
      assert (Hlr : length read = S p) by (unfold read; rewrite length_take; lia).
      assert (Hlp : (length pids <= length read)%nat)
        by (unfold pids; rewrite length_drop; lia).
      rewrite trim_count by (try assumption; lia).
      set (w1 := set_tbl (del_tbl key pids (tbl w)) (turned w)).
      assert (HR1 : q_rest (tbl w1) (trim_query key (Some c)) = drop (S p) R).
      { apply (trim_rest_next (tbl w) key cursor (S p) c pids); [exact Hc|].
        apply subseteq_drop. }
      destruct (IH fuel (Some c) (Z.of_nat (Z.to_nat n - length read))
                  (d + Z.of_nat (length pids)) w1) as (w' & E & T).
      * exact Hf.
      * unfold w1. simpl. now rewrite Hp.
      * simpl in Hfuel. lia.
      * unfold maxInt32 in *. lia.
      * lia.
      * rewrite HR1, length_drop. lia.
      * rewrite HR1 in E, T. rewrite Nat2Z.id in E, T.
        assert (Hids : ids = pids ++ drop (Z.to_nat n - length read) (drop (S p) R)).
        { unfold ids, pids. rewrite <- drop_app. unfold read.
          now rewrite take_drop. }
        exists w'. split.
        -- rewrite E. f_equal. f_equal. rewrite Hids, length_app. lia.
        -- rewrite T. unfold w1. cbn [tbl set_tbl].
           now rewrite Hids, del_tbl_app.
    + rewrite take_ge by lia. fold ids. rewrite trim_count.
      * eexists. split; reflexivity.
      * assumption.
      * unfold ids. rewrite length_drop. lia.
Qed.

(** C9: [XTRIM(key, N)] keeps the [N] newest items of the stream and
    deletes all the others, and returns how many it deleted.  With
    [N = 0] nothing of the stream is left; with [N] at or above the
    length of the stream nothing is deleted and the result is 0. *)
Theorem xtrim_keeps_newest key N w :
  faults w = [] -> 0 <= N <= maxInt32 ->
  Z.of_nat (length (stream_ids (tbl w) key)) <= maxInt32 ->
  let ids := stream_ids (tbl w) key in
  let gone := take (length ids - Z.to_nat N) ids in
  exists w',
    XTRIM key N w = Done (Z.of_nat (length gone), None) w' /\
    stream_ids (tbl w') key = drop (length ids - Z.to_nat N) ids /\
    (forall k, tbl w' !! k =
               if bool_decide (k ∈ (fun id => (key, id)) <$> gone) then None
               else tbl w !! k) /\
    (N = 0 -> stream_ids (tbl w') key = [] /\ length gone = length ids) /\
    (Z.of_nat (length ids) <= N -> tbl w' = tbl w /\ length gone = 0%nat).
Proof.
  intros Hf HN Hlen ids gone.
  assert (HR : q_rest (tbl w) (trim_query key None) = reverse ids).
  { unfold q_rest, q_scan. simpl. apply filter_true. }
  destruct (XTRIM_loop_spec key (pages w)
              (S (S (length (pages w) + size (tbl w)))) None N 0 w)
    as (w' & E & T); try assumption; try reflexivity; try lia.
  { rewrite HR, length_reverse. fold ids in Hlen. lia. }
  rewrite HR in E, T. rewrite drop_reverse in E, T. fold gone in E, T.
  rewrite length_reverse in E.
  assert (Hlook : forall k, tbl w' !! k =
               if bool_decide (k ∈ (fun id => (key, id)) <$> gone) then None
               else tbl w !! k).
  { intros k. rewrite T, del_tbl_lookup.
    destruct (bool_decide (k ∈ (fun id => (key, id)) <$> reverse gone)) eqn:B.
    - apply bool_decide_eq_true in B. rewrite fmap_reverse, elem_of_reverse in B.
      now rewrite bool_decide_eq_true_2.
    - apply bool_decide_eq_false in B. rewrite fmap_reverse, elem_of_reverse in B.
      now rewrite bool_decide_eq_false_2. }
  assert (Hsplit : ids = gone ++ drop (length ids - Z.to_nat N) ids)
    by (symmetry; apply take_drop).
  assert (Hnd : NoDup ids) by apply NoDup_sort_keys.
  assert (Hss : StronglySorted String.le ids) by apply sorted_sort_keys.
  rewrite Hsplit in Hnd, Hss. apply NoDup_app in Hnd. destruct Hnd as (_ & Hdis & Hndd).
  assert (Hkeep : stream_ids (tbl w') key = drop (length ids - Z.to_nat N) ids).
  { apply sort_keys_characterised.
    - now apply StronglySorted_app_1_r in Hss.
    - exact Hndd.
    - intros x. rewrite T, del_tbl_lookup_key, elem_of_reverse. split.
      + intros Hx. assert (x ∈ ids) as Hin by now apply (subseteq_drop (length ids - Z.to_nat N)).
        apply elem_of_sort_keys in Hin. destruct Hin as (Hs & Hlo & Hhi).
        repeat split; try assumption.
        intros Hg. now apply (Hdis x).
      + intros ((Hng & Hs) & Hlo & Hhi).
        assert (x ∈ ids) as Hin by (apply elem_of_sort_keys; auto).
        rewrite Hsplit in Hin. apply elem_of_app in Hin.
        destruct Hin; [contradiction | assumption]. }
  exists w'. split; [|split; [exact Hkeep | split; [exact Hlook|split]]].
  - unfold XTRIM, bind. rewrite loop_fuel_eq. rewrite E. reflexivity.
  - intros ->. rewrite Hkeep. change (Z.to_nat 0) with 0%nat.
    rewrite Nat.sub_0_r. split; [apply drop_all|].
    unfold gone. change (Z.to_nat 0) with 0%nat. rewrite Nat.sub_0_r.
    now rewrite take_ge.
  - intros Hge. assert (length ids - Z.to_nat N = 0)%nat as Hz by lia.
    assert (gone = []) as Hg by (unfold gone; rewrite Hz; apply take_0).
    split; [|now rewrite Hg].
    apply map_eq. intros k. rewrite Hlook, Hg. reflexivity.
Qed.

End Trim.

(** ** The group cursor *)

Section Cursor.

Variables (key group : string).

Let ck := toAV (xGroupCursorKey key group).

Lemma cursor_le_refl a : cursor_le a a.
Proof. now left. Qed.

Lemma cursor_le_trans a b c : cursor_le a b -> cursor_le b c -> cursor_le a c.
Proof.
  intros [->|(x & y & -> & -> & Hxy)] [<-|(y' & z & E & -> & Hyz)].
  - now left.
  - right. eauto.
  - right. eauto.
  - inversion E; subst. right. exists x, z. repeat split.
    now apply (str_lt_trans x y' z).
Qed.

(** Reads leave the table alone, whatever the schedule. *)
Lemma Query_tbl q w r w' : Query q w = Done r w' -> tbl w' = tbl w.
Proof.
  unfold Query, bind, take_fault, next_page, get_tbl, ret.
  destruct (faults w) as [|[f|] fs]; cbn [tbl pages].
  2: now intros [= _ <-].
  all: destruct (match Limit q with Some n => n <? 1 | None => false end);
    [now intros [= _ <-]|].
  all: destruct (String.ltb (q_stop q) (q_start q)); [now intros [= _ <-]|].
  all: destruct (pages w); now intros [= _ <-].
Qed.

Lemma GetItem_tbl k w r w' : GetItem k w = Done r w' -> tbl w' = tbl w.
Proof.
  unfold GetItem, bind, take_fault, get_tbl, ret.
  destruct (faults w) as [|[f|] fs]; now intros [= _ <-].
Qed.

Lemma xRange_loop_tbl fuel k start stop forward : forall cursor count acc w r w',
  xRange_loop fuel k start stop forward cursor count acc w = Done r w' ->
  tbl w' = tbl w.
Proof.
  induction fuel as [|fuel IH]; intros cursor count acc w r w'; [discriminate|].
  cbn [xRange_loop]. destruct (0 <? count); [|now intros [= _ <-]].
  unfold bind at 1.
  destruct (Query _ w) as [[resp e] w1| |] eqn:Q; try discriminate.
  apply Query_tbl in Q. cbn [fst snd].
  destruct e; [now intros [= _ <-]|].
  destruct (LastEvaluatedKey resp).
  - intros H. apply IH in H. congruence.
  - now intros [= _ <-].
Qed.

Lemma XRANGE_tbl k start stop count w r w' :
  XRANGE k start stop count w = Done r w' -> tbl w' = tbl w.
Proof.
  unfold XRANGE, xRange, bind. rewrite loop_fuel_eq. apply xRange_loop_tbl.
Qed.

Lemma UpdateItem_other k b rv w r w' k' :
  UpdateItem k b rv w = Done r w' -> k' <> k -> tbl w' !! k' = tbl w !! k'.
Proof.
  unfold UpdateItem, bind, take_fault, get_tbl, put_tbl, ret.
  destruct (faults w) as [|[f|] fs]; cbn [tbl].
  2: now intros [= _ <-].
  all: destruct (forallb _ _); [|now intros [= _ <-]].
  all: destruct (apply_clauses _ _); [|now intros [= _ <-]].
  all: intros [= _ <-] Hne; cbn [tbl set_tbl]; now apply lookup_insert_ne.
Qed.

(** A transaction either reports an error and changes nothing, or all
    its conditions held on the table and all its writes are applied. *)
Lemma TransactWriteItems_cases actions w r w' :
  TransactWriteItems actions w = Done r w' ->
  (r <> None /\ tbl w' = tbl w) \/
  (r = None /\ NoDup (tx_key <$> actions) /\
   forallb (tx_holds (tbl w)) actions = true /\
   tx_apply_all (tbl w) actions = Some (tbl w')).
Proof.
  rewrite TransactWriteItems_unfold.
  assert (Hb : forall w0, tbl w0 = tbl w -> tx_body actions w0 = Done r w' ->
    (r <> None /\ tbl w' = tbl w) \/
    (r = None /\ NoDup (tx_key <$> actions) /\
     forallb (tx_holds (tbl w)) actions = true /\
     tx_apply_all (tbl w) actions = Some (tbl w'))).
  { intros w0 Hw0. unfold tx_body. rewrite Hw0.
    destruct (bool_decide (NoDup (tx_key <$> actions))) eqn:Hnd; cbn [negb].
    2: { intros [= <- <-]. left. split; [discriminate | assumption]. }
    apply bool_decide_eq_true in Hnd.
    destruct (forallb (tx_holds (tbl w)) actions) eqn:Hh.
    2: { intros [= <- <-]. left. split; [discriminate | assumption]. }
    destruct (tx_apply_all (tbl w) actions) as [t'|] eqn:Ha.
    2: { intros [= <- <-]. left. split; [discriminate | assumption]. }
    intros [= <- <-]. right. repeat split; assumption. }
  destruct (faults w) as [|[[]|] fs].
  2,3: intros [= <- <-]; left; split; [discriminate | reflexivity].
  all: apply Hb; reflexivity.
Qed.

Lemma push_holds (t : Table) id :
  tx_holds t (xGroupCursorPushAction key group id) = true ->
  exists x, cursor_of key group t = Some (AVS x) /\ str_lt x id.
Proof.
  unfold cursor_of. simpl. fold ck.
  destruct (t !! ck) as [attrs|]; simpl; [|discriminate].
  destruct (attrs !! vk) as [[x|n]|]; simpl; try discriminate.
  rewrite andb_true_r. intros H. exists x. split; [reflexivity | now apply ltb_lt].
Qed.

Lemma push_apply (t : Table) id :
  tx_apply t (xGroupCursorPushAction key group id) =
  Some (<[ck := <[vk := AVS id]> (default ∅ (t !! ck))]> t).
Proof. reflexivity. Qed.

(** The transaction of a read either fails and changes nothing, or
    moves the cursor from a smaller XID to [id]. *)
Lemma read_tx_cursor opt consumer tm id w r w' :
  TransactWriteItems (read_actions key group opt consumer tm id) w = Done r w' ->
  (r <> None /\ tbl w' = tbl w) \/
  (r = None /\ exists x, cursor_of key group (tbl w) = Some (AVS x) /\ str_lt x id /\
                         cursor_of key group (tbl w') = Some (AVS id)).
Proof.
  intros H. apply TransactWriteItems_cases in H.
  destruct H as [H|(-> & Hnd & Hh & Ha)]; [now left|]. right.
  split; [reflexivity|].
  assert (Hp : tx_holds (tbl w) (xGroupCursorPushAction key group id) = true).
  { destruct opt; cbn [read_actions app forallb] in Hh;
      apply andb_true_iff in Hh; apply Hh. }
  destruct (push_holds _ _ Hp) as (x & Hx & Hlt).
  exists x. split; [assumption|]. split; [assumption|].
  unfold cursor_of.
  destruct opt; cbn [read_actions app tx_apply_all] in Ha, Hnd;
    rewrite push_apply in Ha.
  - inversion Ha as [Ht]. rewrite lookup_insert_eq. apply lookup_insert_eq.
  - cbn [toPutAction tx_apply] in Ha.
    destruct (apply_clauses _ _) as [new|]; [|discriminate].
    inversion Ha as [Ht].
    rewrite lookup_insert_ne.
    + rewrite lookup_insert_eq. apply lookup_insert_eq.
    + cbn [fmap list_fmap tx_key xGroupCursorPushAction toPutAction] in Hnd.
      apply NoDup_cons in Hnd. destruct Hnd as [Hnd _].
      intros E. apply Hnd. apply list_elem_of_singleton.
    first [exact E | symmetry; exact E].
  - inversion Ha as [Ht]. rewrite lookup_insert_eq. apply lookup_insert_eq.
Qed.

Lemma xGroupCursorGet_tbl w r w' :
  xGroupCursorGet key group w = Done r w' -> tbl w' = tbl w.
Proof.
  unfold xGroupCursorGet, bind.
  destruct (GetItem _ w) as [[item e] w1| |] eqn:G; try discriminate.
  apply GetItem_tbl in G. cbn [fst snd].
  destruct e; [now intros [= _ <-]|].
  destruct (String.eqb _ _); now intros [= _ <-].
Qed.

Lemma readNew_attempt_unfold consumer opt w :
  readNew_attempt key group consumer opt w =
  match xGroupCursorGet key group w with
  | Done (currentCursor, None) w1 =>
      match Next currentCursor with
      | None => Panic
      | Some start =>
          match XRANGE key start XEnd 1 w1 with
          | Done (item :: more, None) w2 =>
              match TransactWriteItems (read_actions key group opt consumer (now w2) (ID item)) w2 with
              | Done None w3 => Done (inl (item :: more, None)) w3
              | Done (Some e) w3 =>
                  if negb (conditionFailureError (Some e))
                  then Done (inl (item :: more, Some e)) w3
                  else Done (inr tt) w3
              | Panic => Panic
              | OutOfFuel => OutOfFuel
              end
          | Done (items, err) w2 => Done (inl (items, err)) w2
          | Panic => Panic
          | OutOfFuel => OutOfFuel
          end
      end
  | Done (_, Some e) w1 => Done (inl ([], Some e)) w1
  | Panic => Panic
  | OutOfFuel => OutOfFuel
  end.
Proof.
  unfold readNew_attempt. unfold bind at 1.
  destruct (xGroupCursorGet key group w) as [[cur [e|]] w1| |]; try reflexivity.
  cbn [fst snd]. destruct (Next cur) as [start|]; [|reflexivity].
  unfold bind at 1.
  destruct (XRANGE key start XEnd 1 w1) as [[[|item more] [e|]] w2| |]; try reflexivity.
  cbn [fst snd]. unfold bind at 1. unfold Now at 1. unfold bind at 1.
  replace (match opt with
           | XReadNew =>
               [xGroupCursorPushAction key group (ID item)] ++
               [toPutAction (mkPendingItem (ID item) consumer (now w2) 0)
                  (xGroupKey key group)]
           | _ => [xGroupCursorPushAction key group (ID item)]
           end) with (read_actions key group opt consumer (now w2) (ID item)) by reflexivity.
  destruct (TransactWriteItems _ w2) as [[e|] w3| |]; try reflexivity.
  destruct (negb (conditionFailureError (Some e))); reflexivity.
Qed.

Lemma readNew_attempt_cursor consumer opt w a w' :
  readNew_attempt key group consumer opt w = Done a w' ->
  cursor_le (cursor_of key group (tbl w)) (cursor_of key group (tbl w')).
Proof.
  rewrite readNew_attempt_unfold.
  destruct (xGroupCursorGet key group w) as [[cur [e|]] w1| |] eqn:G; try discriminate.
  { apply xGroupCursorGet_tbl in G. intros [= _ <-]. rewrite G. apply cursor_le_refl. }
  apply xGroupCursorGet_tbl in G.
  destruct (Next cur) as [start|]; [|discriminate].
  destruct (XRANGE key start XEnd 1 w1) as [[items e] w2| |] eqn:X; try discriminate.
  apply XRANGE_tbl in X.
  assert (Hsame : forall b, Done (A := (list StreamItem * option error) + unit) b w2 = Done a w' ->
            cursor_le (cursor_of key group (tbl w)) (cursor_of key group (tbl w'))).
  { intros b [= _ <-]. rewrite X, G. apply cursor_le_refl. }
  destruct items as [|item more]; [destruct e; apply Hsame|].
  destruct e; [apply Hsame|].
  destruct (TransactWriteItems _ w2) as [r w3| |] eqn:T; try discriminate.
  apply read_tx_cursor in T.
  assert (Hle : cursor_le (cursor_of key group (tbl w)) (cursor_of key group (tbl w3))).
  { destruct T as [[_ T]|(_ & x & Hx & Hlt & Hc)].
    - rewrite T, X, G. apply cursor_le_refl.
    - right. exists x, (ID item). rewrite <- G, <- X. auto. }
  destruct r as [e|]; [destruct (negb _)|]; intros [= _ <-]; exact Hle.
Qed.

Lemma readNew_loop_cursor consumer opt budget : forall w r w',
  readNew_loop budget key group consumer opt w = Done r w' ->
  cursor_le (cursor_of key group (tbl w)) (cursor_of key group (tbl w')).
Proof.
  induction budget as [|budget IH]; intros w r w'.
  - intros [= _ <-]. apply cursor_le_refl.
  - cbn [readNew_loop]. unfold bind.
    destruct (readNew_attempt key group consumer opt w) as [[res|[]] w1| |] eqn:A;
      try discriminate.
    + apply readNew_attempt_cursor in A. now intros [= _ <-].
    + apply readNew_attempt_cursor in A. intros H. apply IH in H.
      now apply (cursor_le_trans _ (cursor_of key group (tbl w1))).
Qed.

Lemma Query_unfold q w :
  Query q w =
  match faults w with
  | Some _ :: _ => Done (mkOutput [] None, Some ErrStore) (popped w)
  | _ =>
      if match Limit q with Some n => n <? 1 | None => false end
      then Done (mkOutput [] None, Some ErrStore) (popped w)
      else if String.ltb (q_stop q) (q_start q)
      then Done (mkOutput [] None, Some ErrStore) (popped w)
      else Done (mkOutput (q_items (tbl w) q (q_read (tbl w) q (cap_of w)))
                          (q_lek (tbl w) q (cap_of w)), None)
                (turned (popped w))
  end.
Proof.
  unfold Query, bind at 1. unfold take_fault, popped.
  destruct w as [t n fs ps]. cbn [faults tbl now pages].
  destruct fs as [|[f|] fs]; cbn [tail]; try reflexivity.
  all: destruct (match Limit q with Some n => n <? 1 | None => false end);
    [reflexivity|].
  all: destruct (String.ltb (q_stop q) (q_start q)); [reflexivity|].
  all: unfold bind at 1; rewrite next_page_turned; reflexivity.
Qed.

Lemma elem_of_q_items (t : Table) q read item :
  item ∈ q_items t q read -> fst item ∈ read.
Proof.
  unfold q_items. rewrite list_elem_of_omap. intros (s & Hs & Hitem).
  destruct (t !! (q_pk q, s)) as [attrs|]; [|discriminate].
  destruct (passes _ _); [|discriminate].
  inversion Hitem; subst. exact Hs.
Qed.

(** What a query returns lies in the range it asked for. *)
Lemma Query_items_range q w r w' item :
  Query q w = Done r w' -> item ∈ Items (fst r) ->
  (q_start q ≤ fst item)%string /\ (fst item ≤ q_stop q)%string.
Proof.
  rewrite Query_unfold.
  assert (Hin : item ∈ q_items (tbl w) q (q_read (tbl w) q (cap_of w)) ->
                (q_start q ≤ fst item)%string /\ (fst item ≤ q_stop q)%string).
  { intros H. apply elem_of_q_items, q_read_subset in H.
    unfold q_rest in H. apply elem_of_filter_stdlib in H. destruct H as [_ H].
    unfold q_scan in H.
    assert (fst item ∈ sort_keys (tbl w) (q_pk q) (q_start q) (q_stop q)) as Hs.
    { destruct (ScanIndexForward q); [assumption | now apply elem_of_reverse]. }
    now apply elem_of_sort_keys in Hs. }
  assert (Hnil : item ∈ @nil (string * Attrs) -> (q_start q ≤ fst item)%string /\ (fst item ≤ q_stop q)%string)
    by (intros H; inversion H).
  destruct (faults w) as [|[f|] fs].
  2: intros [= <- _]; exact Hnil.
  all: destruct (match Limit q with Some n => n <? 1 | None => false end);
    [intros [= <- _]; exact Hnil|].
  all: destruct (String.ltb (q_stop q) (q_start q)); [intros [= <- _]; exact Hnil|].
  all: intros [= <- _]; exact Hin.
Qed.

Lemma cursor_sk_outside s : (s ≤ XEnd)%string -> (xGroupKey key group, s) <> ck.
Proof.
  intros Hle E. inversion E; subst.
  revert Hle. apply str_lt_not_le. reflexivity.
Qed.

(** The redelivery of pending entries does not touch the cursor. *)
Lemma readPending_page_cursor page : forall items count w r w',
  (forall item, item ∈ page -> (fst item ≤ XEnd)%string) ->
  readPending_page key group page items count w = Done r w' ->
  tbl w' !! ck = tbl w !! ck.
Proof.
  induction page as [|item rest IH]; intros items count w r w' Hr.
  - now intros [= _ <-].
  - cbn [readPending_page]. unfold bind at 1. unfold updateDeliveryAction, bind at 1.
    unfold Now, ret. cbn [fst snd]. unfold bind at 1.
    destruct (UpdateItem _ _ _ w) as [[old e] w1| |] eqn:U; try discriminate.
    apply UpdateItem_other with (k' := ck) in U.
    2: { apply not_eq_sym, cursor_sk_outside, Hr, list_elem_of_here. }
    cbn [snd]. destruct e; [now intros [= _ <-]|].
    unfold bind at 1.
    destruct (XRANGE _ _ _ _ w1) as [[fetched e] w2| |] eqn:X; try discriminate.
    apply XRANGE_tbl in X. cbn [fst snd].
    destruct e; [intros [= _ <-]; congruence|].
    destruct fetched as [|f fs]; [intros [= _ <-]; congruence|].
    intros H. apply IH in H.
    + congruence.
    + intros i Hi. apply Hr. now apply list_elem_of_further.
Qed.

Lemma xGroupReadPending_loop_cursor consumer fuel : forall cursor count items w r w',
  xGroupReadPending_loop fuel key group consumer cursor count items w = Done r w' ->
  tbl w' !! ck = tbl w !! ck.
Proof.
  induction fuel as [|fuel IH]; intros cursor count items w r w'; [discriminate|].
  cbn [xGroupReadPending_loop]. destruct (0 <? count); [|now intros [= _ <-]].
  unfold bind at 1.
  destruct (Query _ w) as [[resp e] w1| |] eqn:Q; try discriminate.
  assert (Hrange : forall item, item ∈ Items resp -> (fst item ≤ XEnd)%string).
  { intros item Hi. now apply (Query_items_range _ _ _ _ item Q). }
  apply Query_tbl in Q. cbn [fst snd].
  destruct e; [intros [= _ <-]; congruence|].
  unfold bind at 1.
  destruct (readPending_page _ _ _ _ _ w1) as [[early|[items' count']] w2| |] eqn:P;
    try discriminate.
  - apply readPending_page_cursor in P; [|assumption]. intros [= _ <-]. congruence.
  - apply readPending_page_cursor in P; [|assumption].
    destruct (LastEvaluatedKey resp).
    + intros H. apply IH in H. congruence.
    + intros [= _ <-]. congruence.
Qed.

Lemma XREADGROUP_cursor consumer opt maxCount w r w' :
  XREADGROUP key group consumer opt maxCount w = Done r w' ->
  cursor_le (cursor_of key group (tbl w)) (cursor_of key group (tbl w')).
Proof.
  destruct opt; cbn [XREADGROUP].
  - unfold xGroupReadPending, bind. rewrite loop_fuel_eq.
    intros H. apply xGroupReadPending_loop_cursor in H.
    left. unfold cursor_of. fold ck. now rewrite H.
  - apply readNew_loop_cursor.
  - apply readNew_loop_cursor.
Qed.

Lemma XGROUP_quiet start w :
  faults w = [] ->
  XGROUP key group start w =
  Done None (set_tbl (<[ck := <[vk := AVS start]> (default ∅ (tbl w !! ck))]> (tbl w)) w).
Proof.
  intros Hf. unfold XGROUP, xGroupCursorSet, HSET, bind at 1.
  cbn [xGroupCursorKey pk sk]. rewrite map_to_list_singleton.
  cbn [HSET_loop]. unfold bind at 1.
  rewrite UpdateItem_quiet by assumption. cbn [conditions clauses updateSET addClause
    newExpresionBuilder app forallb apply_clauses apply_clause].
  change (toAV (mkKey (xGroupKey key group) "_redimo/cursor")) with ck.
  unfold bind, ret. cbn [fst snd].
  destruct (tbl w !! ck); reflexivity.
Qed.

Lemma XREADGROUP_many_cursor calls : forall w w',
  XREADGROUP_many key group calls w = Done tt w' ->
  cursor_le (cursor_of key group (tbl w)) (cursor_of key group (tbl w')).
Proof.
  induction calls as [|[[consumer opt] maxCount] rest IH]; intros w w'.
  - intros [= <-]. apply cursor_le_refl.
  - cbn [XREADGROUP_many]. unfold bind.
    destruct (XREADGROUP key group consumer opt maxCount w) as [r w1| |] eqn:R;
      try discriminate.
    apply XREADGROUP_cursor in R. intros H. apply IH in H.
    now apply (cursor_le_trans _ (cursor_of key group (tbl w1))).
Qed.

(** C7, as the code has it: a read of the group, in any mode and under
    any schedule, leaves the cursor where it is or moves it to a strictly
    greater XID, and so does every sequence of reads; [XGROUP] sets the
    cursor to its start argument whatever the stored value is. *)
Theorem cursor_advances_by_reads :
  (forall calls w w',
     XREADGROUP_many key group calls w = Done tt w' ->
     cursor_le (cursor_of key group (tbl w)) (cursor_of key group (tbl w'))) /\
  (forall start w,
     faults w = [] ->
     exists w', XGROUP key group start w = Done None w' /\
                cursor_of key group (tbl w') = Some (AVS start)).
Proof.
  split.
  - apply XREADGROUP_many_cursor.
  - intros start w Hf. rewrite XGROUP_quiet by assumption.
    eexists. split; [reflexivity|]. unfold cursor_of. cbn [tbl set_tbl].
    rewrite lookup_insert_eq. apply lookup_insert_eq.
Qed.

End Cursor.

(** ** XREADGROUP in the new-delivery modes *)

Section ReadGroup.

Variables (key group consumer : string).

Let gk := xGroupKey key group.
Let ck := toAV (xGroupCursorKey key group).

Lemma xGroupCursorGet_quiet w :
  faults w = [] ->
  xGroupCursorGet key group w =
  match cursor_of key group (tbl w) with
  | Some (AVS c) =>
      if String.eqb c EmptyString then Done (EmptyString, Some ErrXGroupNotInitialized) w
      else Done (c, None) w
  | _ => Done (EmptyString, Some ErrXGroupNotInitialized) w
  end.
Proof.
  intros Hf. unfold xGroupCursorGet, bind. rewrite GetItem_quiet by assumption.
  cbn [fst snd]. unfold cursor_of. fold ck.
  destruct (tbl w !! ck) as [attrs|]; [|reflexivity].
  destruct (attrs !! vk) as [[c|n]|]; try reflexivity.
  cbn [ReturnValue_String]. destruct (String.eqb c EmptyString); reflexivity.
Qed.

(** Without cursor record the group is not initialized. *)
Lemma XREADGROUP_uninitialised opt maxCount w :
  opt <> XReadPending -> faults w = [] ->
  tbl w !! ck = None ->
  XREADGROUP key group consumer opt maxCount w =
  Done ([], Some ErrXGroupNotInitialized) w.
Proof.
  intros Ho Hf Hc.
  assert (E : readNew_loop 5 key group consumer opt w =
              Done ([], Some ErrXGroupNotInitialized) w).
  { cbn [readNew_loop]. unfold bind. rewrite readNew_attempt_unfold.
    rewrite xGroupCursorGet_quiet by assumption.
    unfold cursor_of. fold ck. now rewrite Hc. }
  destruct opt; [congruence | exact E | exact E].
Qed.

(** Attempts that all end in a failed condition use up the budget. *)
Lemma readNew_loop_retries opt : forall budget (ws : nat -> World),
  (forall i, (i < budget)%nat ->
     readNew_attempt key group consumer opt (ws i) = Done (inr tt) (ws (S i))) ->
  readNew_loop budget key group consumer opt (ws 0%nat) =
  Done ([], Some ErrTooMuchContention) (ws budget).
Proof.
  induction budget as [|budget IH]; intros ws H; [reflexivity|].
  cbn [readNew_loop]. unfold bind. rewrite (H 0%nat) by lia.
  apply (IH (fun i => ws (S i))). intros i Hi. apply H. lia.
Qed.

Lemma XREADGROUP_contention opt maxCount (ws : nat -> World) :
  opt <> XReadPending ->
  (forall i, (i < 5)%nat ->
     readNew_attempt key group consumer opt (ws i) = Done (inr tt) (ws (S i))) ->
  XREADGROUP key group consumer opt maxCount (ws 0%nat) =
  Done ([], Some ErrTooMuchContention) (ws 5%nat).
Proof.
  intros Ho H. pose proof (readNew_loop_retries opt 5 ws H) as E.
  destruct opt; [congruence | exact E | exact E].
Qed.

(** The successor of a cursor whose sequence number is below the
    maximum. *)
Lemma Next_encode t s :
  valid_pair t s -> s < maxUint64 -> Next (encode t s) = Some (encode t (s + 1)).
Proof.
  intros [Ht Hs] Hlt. unfold Next, encode.
  rewrite Seq_NewXID by (simpl; unfold maxInt64 in *; lia).
  rewrite Time_NewXID by (simpl; unfold maxUint64 in *; lia).
  unfold uint64. rewrite Z.mod_small by (unfold maxUint64 in *; lia).
  reflexivity.
Qed.

Lemma encode_lt_next t s :
  valid_pair t s -> s < maxUint64 -> str_lt (encode t s) (encode t (s + 1)).
Proof.
  intros Hv Hlt. apply encode_lt; [assumption | | right; lia].
  destruct Hv as [Ht Hs]. split; [assumption | lia].
Qed.

Lemma encode_le_XEnd t s : valid_pair t s -> String.ltb XEnd (encode t s) = false.
Proof.
  intros [Ht Hs]. unfold encode.
  change XEnd with (fixed 20 99999999999999999999 +:+ String "-" (fixed 20 99999999999999999999)).
  rewrite NewXID_fixed by (simpl; unfold maxInt64, maxUint64 in *; lia).
  unfold String.ltb. rewrite compare_fixed by (simpl; unfold maxInt64 in *; lia).
  simpl time.Time_Unix.
  destruct (Z.compare_spec 99999999999999999999 t); try reflexivity;
    unfold maxInt64 in *; lia.
Qed.

Lemma encode_nonempty t s : valid_pair t s -> String.eqb (encode t s) EmptyString = false.
Proof.
  intros Hv. apply String.eqb_neq. intros E. apply (f_equal String.length) in E.
  rewrite (length_encode t s Hv) in E.
  discriminate.
Qed.

Section FromCursor.

Variables (t s : Z) (w : World).
Hypothesis Hvalid : valid_pair t s.
Hypothesis Hbelow : s < maxUint64.
Hypothesis Hquiet : faults w = [].
Hypothesis Hcursor : cursor_of key group (tbl w) = Some (AVS (encode t s)).

Lemma valid_next : valid_pair t (s + 1).
Proof. destruct Hvalid as [Ht Hs]. split; [assumption | lia]. Qed.

Lemma attempt_from_cursor opt :
  readNew_attempt key group consumer opt w =
  match first_item (tbl w) key (encode t (s + 1)) XEnd with
  | item :: more =>
      match TransactWriteItems (read_actions key group opt consumer (now w) (ID item))
              (turned w) with
      | Done None w3 => Done (inl (item :: more, None)) w3
      | Done (Some e) w3 =>
          if negb (conditionFailureError (Some e))
          then Done (inl (item :: more, Some e)) w3
          else Done (inr tt) w3
      | Panic => Panic
      | OutOfFuel => OutOfFuel
      end
  | [] => Done (inl ([], None)) (turned w)
  end.
Proof.
  rewrite readNew_attempt_unfold. rewrite xGroupCursorGet_quiet by assumption.
  rewrite Hcursor, encode_nonempty by assumption.
  rewrite Next_encode by assumption.
  rewrite XRANGE_one by (try assumption; apply encode_le_XEnd, valid_next).
  destruct (first_item _ _ _ _); reflexivity.
Qed.

(** No item after the cursor: an empty result and no error. *)
Lemma XREADGROUP_new_empty opt maxCount :
  opt <> XReadPending ->
  (forall x, is_Some (tbl w !! (key, x)) -> (x ≤ XEnd)%string ->
             ~ str_lt (encode t s) x) ->
  XREADGROUP key group consumer opt maxCount w = Done ([], None) (turned w).
Proof.
  intros Ho Hnone.
  assert (Hk : sort_keys (tbl w) key (encode t (s + 1)) XEnd = []).
  { apply sort_keys_characterised; [constructor | constructor |].
    intros x. split; [intros H; inversion H|].
    intros (Hs & Hlo & Hhi). exfalso. apply (Hnone x Hs Hhi).
    eapply str_lt_le_trans; [|exact Hlo]. now apply encode_lt_next. }
  assert (E : readNew_loop 5 key group consumer opt w = Done ([], None) (turned w)).
  { cbn [readNew_loop]. unfold bind. rewrite attempt_from_cursor.
    unfold first_item. now rewrite Hk. }
  destruct opt; [congruence | exact E | exact E].
Qed.

Lemma read_tx_body opt x cattrs c :
  tbl w !! ck = Some cattrs -> cattrs !! vk = Some (AVS c) ->
  String.ltb c x = true -> ck <> (gk, x) -> tbl w !! (gk, x) = None ->
  tx_body (read_actions key group opt consumer (now w) x) (turned w) =
  Done None (set_tbl (after_read key group consumer opt (now w) x (tbl w)) (turned w)).
Proof.
  intros Hck Hval Hlt Hne Hp.
  assert (Hh : tx_holds (tbl w) (xGroupCursorPushAction key group x) = true).
  { cbn. fold ck. rewrite Hck. cbn. rewrite Hval. cbn. now rewrite Hlt. }
  unfold tx_body, after_read. cbn [tbl turned].
  destruct opt; cbn [read_actions app].
  - rewrite bool_decide_eq_true_2 by (cbn; apply NoDup_singleton).
    cbn [negb forallb]. rewrite Hh. cbn [andb tx_apply_all].
    rewrite push_apply. reflexivity.
  - rewrite bool_decide_eq_true_2.
    2: { cbn. fold ck. fold gk. apply NoDup_cons. split.
         - rewrite list_elem_of_singleton. exact Hne.
         - apply NoDup_singleton. }
    cbn [negb forallb]. rewrite Hh. cbn [andb tx_apply_all].
    rewrite push_apply. cbn [toPutAction tx_apply forallb tx_holds conditions
      updateSET addClause newExpresionBuilder andb clauses app].
    cbn [pi_ID Consumer LastDelivered].
    change (toAV (mkKey (xGroupKey key group) x)) with (gk, x). fold ck.
    rewrite lookup_insert_ne by exact Hne. rewrite Hp.
    cbn [default id apply_clauses apply_clause pi_ID Consumer LastDelivered].
    rewrite lookup_insert_ne by discriminate.
    rewrite lookup_insert_ne by discriminate.
    rewrite lookup_empty. reflexivity.
  - rewrite bool_decide_eq_true_2 by (cbn; apply NoDup_singleton).
    cbn [negb forallb]. rewrite Hh. cbn [andb tx_apply_all].
    rewrite push_apply. reflexivity.
Qed.

(** An item after the cursor, not yet pending: it is returned, the
    cursor moves to its ID, and [READ_NEW] alone records the delivery. *)
Lemma XREADGROUP_new_delivers opt maxCount x more :
  opt <> XReadPending ->
  sort_keys (tbl w) key (encode t (s + 1)) XEnd = x :: more ->
  tbl w !! (gk, x) = None ->
  XREADGROUP key group consumer opt maxCount w =
  Done ([parseStreamItem (x, default ∅ (tbl w !! (key, x)))], None)
       (set_tbl (after_read key group consumer opt (now w) x (tbl w)) (turned w)).
Proof.
  intros Ho Hk Hp.
  assert (Hx : x ∈ sort_keys (tbl w) key (encode t (s + 1)) XEnd)
    by (rewrite Hk; apply list_elem_of_here).
  apply elem_of_sort_keys in Hx. destruct Hx as (Hs & Hlo & Hhi).
  assert (Hlt : String.ltb (encode t s) x = true).
  { apply ltb_lt. eapply str_lt_le_trans; [|exact Hlo]. now apply encode_lt_next. }
  assert (Hne : ck <> (gk, x)).
  { apply not_eq_sym. now apply cursor_sk_outside. }
  assert (Hc : exists attrs, tbl w !! ck = Some attrs /\ attrs !! vk = Some (AVS (encode t s))).
  { unfold cursor_of in Hcursor. fold ck in Hcursor.
    destruct (tbl w !! ck) as [attrs|]; [eauto | discriminate]. }
  destruct Hc as (cattrs & Hck & Hval).
  assert (A : readNew_attempt key group consumer opt w =
    Done (inl ([parseStreamItem (x, default ∅ (tbl w !! (key, x)))], None))
         (set_tbl (after_read key group consumer opt (now w) x (tbl w)) (turned w))).
  { rewrite attempt_from_cursor. unfold first_item. rewrite Hk.
    cbn [ID parseStreamItem fst].
    rewrite TransactWriteItems_quiet by assumption.
    now rewrite (read_tx_body opt x cattrs (encode t s)). }
  assert (E : readNew_loop 5 key group consumer opt w =
    Done ([parseStreamItem (x, default ∅ (tbl w !! (key, x)))], None)
         (set_tbl (after_read key group consumer opt (now w) x (tbl w)) (turned w))).
  { cbn [readNew_loop]. unfold bind at 1. now rewrite A. }
  destruct opt; [congruence | exact E | exact E].
Qed.

End FromCursor.

End ReadGroup.

(** ** Range reads, page by page *)

Section RangeReads.

Implicit Types (t : Table) (R : list string) (key c x start stop : string).

Lemma q_rest_asc t q :
  ScanIndexForward q = true -> StronglySorted String.le (q_rest t q).
Proof.
  intros Hq. unfold q_rest, q_scan. rewrite Hq.
  apply StronglySorted_filter, sorted_sort_keys.
Qed.

Lemma asc_last (l : list string) c x :
  StronglySorted String.le l -> last l = Some c -> x ∈ l -> (x ≤ c)%string.
Proof.
  intros Hs Hl Hx. apply last_Some in Hl. destruct Hl as [l' ->].
  apply elem_of_app in Hx. destruct Hx as [Hx|Hx].
  - apply (StronglySorted_app_1_elem_of String.le l' [c] x c Hs Hx).
    apply list_elem_of_here.
  - apply list_elem_of_singleton in Hx. now subst.
Qed.

Lemma elem_of_range_rest t key start stop cursor count x :
  x ∈ q_rest t (range_query key start stop cursor count) <->
  beyond true cursor x = true /\
  is_Some (t !! (key, x)) /\ (start ≤ x)%string /\ (x ≤ stop)%string.
Proof.
  unfold q_rest, q_scan. simpl. rewrite elem_of_filter_stdlib.
  now rewrite elem_of_sort_keys.
Qed.

(** After a page, the scan goes on with what came after the page. *)
Lemma range_rest_next t key start stop cursor count count' b c :
  let R := q_rest t (range_query key start stop cursor count) in
  last (take b R) = Some c ->
  q_rest t (range_query key start stop (Some c) count') = drop b R.
Proof.
  intros R Hc.
  assert (HR : StronglySorted String.le R) by now apply q_rest_asc.
  assert (HN : NoDup R) by apply q_rest_NoDup.
  rewrite <- (take_drop b R) in HR, HN.
  apply NoDup_app in HN. destruct HN as (Nt & Ndis & Nd).
  assert (Hcin : c ∈ take b R) by now apply last_Some_elem_of.
  apply sorted_elements_unique.
  - now apply q_rest_asc.
  - now apply StronglySorted_app_1_r in HR.
  - apply q_rest_NoDup.
  - exact Nd.
  - intros x. rewrite elem_of_range_rest. simpl. split.
    + intros (Hlt & Hx & Hlo & Hhi). apply ltb_lt in Hlt.
      assert (HxR : x ∈ R).
      { apply elem_of_range_rest. repeat split; try assumption.
        destruct cursor as [c0|]; [|reflexivity]. simpl.
        assert (c ∈ R) as HcR by now apply (subseteq_take b).
        apply elem_of_range_rest in HcR. destruct HcR as (Hc0 & _).
        simpl in Hc0. apply ltb_lt. apply ltb_lt in Hc0.
        now apply (str_lt_trans c0 c x). }
      rewrite <- (take_drop b R) in HxR. apply elem_of_app in HxR.
      destruct HxR as [Hxt|Hxd]; [|assumption]. exfalso.
      assert (x ≤ c)%string as Hle.
      { apply (asc_last (take b R) c x); try assumption.
        now apply StronglySorted_app_1_l in HR. }
      apply str_lt_not_le in Hlt. contradiction.
    + intros Hxd.
      assert (HxR : x ∈ R) by now apply (subseteq_drop b).
      apply elem_of_range_rest in HxR. destruct HxR as (_ & Hx & Hlo & Hhi).
      repeat split; try assumption.
      apply ltb_lt. apply str_lt_iff. split.
      * apply (StronglySorted_app_1_elem_of String.le _ _ c x HR Hcin Hxd).
      * intros ->. now apply (Ndis x).
Qed.

Lemma items_of_app t key l1 l2 :
  items_of t key (l1 ++ l2) = items_of t key l1 ++ items_of t key l2.
Proof. apply fmap_app. Qed.

Lemma range_items t key start stop cursor count read :
  (forall s, s ∈ read -> is_Some (t !! (key, s))) ->
  parseStreamItem <$> q_items t (range_query key start stop cursor count) read =
  items_of t key read.
Proof.
  intros Hall. rewrite q_items_all; [|reflexivity | exact Hall].
  unfold items_of. rewrite <- list_fmap_compose. reflexivity.
Qed.

(** One pass of the loop of [xRange]. *)
Lemma xRange_loop_step fuel key start stop cursor count acc w :
  faults w = [] -> String.ltb stop start = false -> 0 < count ->
  let q := range_query key start stop cursor count in
  let read := q_read (tbl w) q (cap_of w) in
  let acc' := acc ++ items_of (tbl w) key read in
  xRange_loop (S fuel) key start stop true cursor count acc w =
  match q_lek (tbl w) q (cap_of w) with
  | Some c =>
      xRange_loop fuel key start stop true (Some c)
        (int32 (count - Z.of_nat (length read))) acc' (turned w)
  | None => Done (acc', None) (turned w)
  end.
Proof.
  intros Hf Hr Hc q read acc'. cbn [xRange_loop].
  destruct (Z.ltb_spec 0 count) as [_|]; [|lia].
  unfold bind at 1. fold (range_query key start stop cursor count). fold q.
  rewrite Query_quiet; [| assumption | | assumption].
  2: { simpl. destruct (Z.ltb_spec count 1); [lia | reflexivity]. }
  cbn [fst snd Items LastEvaluatedKey]. fold read.
  assert (Hall : forall s, s ∈ read -> is_Some (tbl w !! (key, s))).
  { intros s Hs. apply (q_rest_subset _ q), (q_read_subset _ _ (cap_of w)), Hs. }
  unfold q. rewrite range_items by exact Hall.
  assert (Hlen : length (q_items (tbl w) (range_query key start stop cursor count) read)
                 = length read).
  { rewrite <- (length_fmap parseStreamItem), range_items by exact Hall.
    unfold items_of. apply length_fmap. }
  rewrite Hlen. fold acc'. fold q.
  destruct (q_lek (tbl w) q (cap_of w)); reflexivity.
Qed.

(** The loop of [xRange], from any state it can be in: it appends the
    next [count] items of the range. *)
Lemma xRange_loop_spec key start stop : forall ps fuel cursor count acc w,
  faults w = [] -> pages w = ps -> (S (length ps) < fuel)%nat ->
  String.ltb stop start = false -> 0 <= count <= maxInt32 ->
  let R := q_rest (tbl w) (range_query key start stop cursor count) in
  exists ps',
    xRange_loop fuel key start stop true cursor count acc w =
    Done (acc ++ items_of (tbl w) key (take (Z.to_nat count) R), None)
         (mkWorld (tbl w) (now w) [] ps').
Proof.
  induction ps as [|p ps IH]; intros fuel cursor count acc w Hf Hp Hfuel Hr Hc R.
  - destruct fuel as [|[|fuel]]; [simpl in Hfuel; lia..|].
    destruct (Z.ltb_spec 0 count) as [Hpos|Hz].
    + rewrite xRange_loop_step by assumption.
      assert (Hcap : cap_of w = None) by (unfold cap_of; now rewrite Hp).
      unfold q_lek, q_read. rewrite Hcap. cbn [q_bound range_query Limit].
      fold (range_query key start stop cursor count). fold R.
      destruct (Nat.leb_spec (Z.to_nat count) (length R)) as [Hle|Hgt].
      * assert (Hlast : is_Some (last (take (Z.to_nat count) R))).
        { apply last_is_Some. intros E. apply (f_equal length) in E.
          rewrite length_take in E. change (length (@nil string)) with 0%nat in E. lia. }
        destruct Hlast as [c Hlc]. rewrite Hlc.
        rewrite length_take. replace (Z.to_nat count `min` length R)%nat with (Z.to_nat count) by lia.
        rewrite Z2Nat.id by lia. rewrite Z.sub_diag. change (int32 0) with 0.
        cbn [xRange_loop]. change (0 <? 0) with false. cbv iota.
        exists []. unfold ret, turned. rewrite Hf, Hp. reflexivity.
      * rewrite take_ge by lia.
        exists []. unfold turned. rewrite Hf, Hp. reflexivity.
    + assert (count = 0) as -> by lia.
      cbn [xRange_loop]. change (0 <? 0) with false. cbv iota.
      change (Z.to_nat 0) with 0%nat. rewrite take_0. unfold items_of.
      cbn [fmap list_fmap]. rewrite app_nil_r.
      exists []. unfold ret. destruct w; simpl in *; subst; reflexivity.
  - destruct fuel as [|fuel]; [simpl in Hfuel; lia|].
    destruct (Z.ltb_spec 0 count) as [Hpos|Hz].
    + rewrite xRange_loop_step by assumption.
      assert (Hcap : cap_of w = Some (S p)) by (unfold cap_of; now rewrite Hp).
      unfold q_lek, q_read. rewrite Hcap. cbn [q_bound range_query Limit].
      fold (range_query key start stop cursor count). fold R.
      set (b := (Z.to_nat count `min` S p)%nat).
      assert (Hb : (0 < b <= Z.to_nat count)%nat) by (unfold b; lia).
      destruct (Nat.leb_spec b (length R)) as [Hle|Hgt].
      * assert (Hlast : is_Some (last (take b R))).
        { apply last_is_Some. intros E. apply (f_equal length) in E.
          rewrite length_take in E. change (length (@nil string)) with 0%nat in E. lia. }
        destruct Hlast as [c Hlc]. rewrite Hlc.
        rewrite length_take. replace (b `min` length R)%nat with b by lia.
        rewrite int32_small by (unfold maxInt32 in *; lia).
        assert (HR1 : q_rest (tbl (turned w))
                        (range_query key start stop (Some c) (count - Z.of_nat b)) =
                      drop b R).
        { apply (range_rest_next (tbl w) key start stop cursor count _ b c). exact Hlc. }
        destruct (IH fuel (Some c) (count - Z.of_nat b)
                    (acc ++ items_of (tbl w) key (take b R)) (turned w))
          as (ps' & E).
        -- exact Hf.
        -- unfold turned. simpl. now rewrite Hp.
        -- simpl in Hfuel. lia.
        -- assumption.
        -- lia.
        -- rewrite E, HR1. exists ps'. cbn [tbl now turned].
           rewrite <- app_assoc, <- items_of_app.
           replace (Z.to_nat (count - Z.of_nat b)) with (Z.to_nat count - b)%nat by lia.
           rewrite take_take_drop.
           replace (b + (Z.to_nat count - b))%nat with (Z.to_nat count) by lia.
           reflexivity.
      * assert (Hall : take b R = R) by (apply take_ge; lia).
        rewrite Hall. rewrite (take_ge R (Z.to_nat count)) by lia.
        exists ps. unfold turned. rewrite Hf, Hp. reflexivity.
    + assert (count = 0) as -> by lia.
      cbn [xRange_loop]. change (0 <? 0) with false. cbv iota.
      change (Z.to_nat 0) with 0%nat. rewrite take_0. unfold items_of.
      cbn [fmap list_fmap]. rewrite app_nil_r.
      exists (p :: ps). unfold ret. destruct w; simpl in *; subst; reflexivity.
Qed.

(** [XRANGE] returns the first [count] items of the range, whatever the
    page sizes, and leaves the table alone. *)
Lemma XRANGE_spec key start stop count w :
  faults w = [] -> String.ltb stop start = false -> 0 <= count <= maxInt32 ->
  exists ps',
    XRANGE key start stop count w =
    Done (items_of (tbl w) key (take (Z.to_nat count) (sort_keys (tbl w) key start stop)),
          None) (mkWorld (tbl w) (now w) [] ps').
Proof.
  intros Hf Hr Hc. unfold XRANGE, xRange, bind. rewrite loop_fuel_eq.
  destruct (xRange_loop_spec key start stop (pages w)
              (S (S (length (pages w) + size (tbl w)))) None count [] w)
    as (ps' & E); try assumption; try reflexivity; try lia.
  exists ps'. rewrite E. cbn [app].
  unfold q_rest, q_scan. simpl. now rewrite filter_true.
Qed.

Lemma XStart_encode : XStart = encode 0 0.
Proof. reflexivity. Qed.

Lemma valid_succ tm s : valid_pair tm s -> s < maxUint64 -> valid_pair tm (s + 1).
Proof. intros [Ht Hs] Hlt. split; [assumption | lia]. Qed.

(** Between a canonical ID and its successor there is no canonical ID. *)
Lemma canonical_after_next tm s x :
  valid_pair tm s -> s < maxUint64 -> canonical x ->
  str_lt (encode tm s) x <-> (encode tm (s + 1) ≤ x)%string.
Proof.
  intros Hv Hlt (tm' & s' & Hv' & ->). split.
  - intros H. apply encode_lt in H; [|assumption..].
    destruct (decide (tm = tm' /\ s + 1 = s')) as [[-> <-]|Hne]; [reflexivity|].
    apply str_lt_le. apply encode_lt; [now apply valid_succ | assumption |].
    lia.
  - intros H. eapply str_lt_le_trans; [|exact H]. now apply encode_lt_next.
Qed.

(** On a stream of canonical IDs, the range read by [XREAD] is what
    comes strictly after [from]. *)
Lemma sort_keys_after t key tm s :
  valid_pair tm s -> s < maxUint64 -> regular_stream t key ->
  sort_keys t key (encode tm (s + 1)) XEnd = after_id (encode tm s) (stream_ids t key).
Proof.
  intros Hv Hlt Hreg. apply sort_keys_characterised.
  - apply StronglySorted_filter, sorted_sort_keys.
  - apply NoDup_filter_stdlib, NoDup_sort_keys.
  - intros x. unfold after_id. rewrite elem_of_filter_stdlib. split.
    + intros [Hx Hin]. apply ltb_lt in Hx.
      assert (canonical x) as Hc.
      { destruct (Hreg x Hin) as (tm' & s' & Hv' & _ & ->). now exists tm', s'. }
      apply elem_of_sort_keys in Hin. destruct Hin as (Hs & _ & Hhi).
      repeat split; try assumption. now apply canonical_after_next.
    + intros (Hs & Hlo & Hhi). split.
      * apply ltb_lt. eapply str_lt_le_trans; [|exact Hlo]. now apply encode_lt_next.
      * apply elem_of_sort_keys. repeat split; try assumption.
        transitivity (encode tm (s + 1)); [|assumption].
        rewrite XStart_encode. apply str_lt_le. apply encode_lt.
        -- unfold valid_pair, maxInt64, maxUint64. lia.
        -- now apply valid_succ.
        -- destruct Hv as [Ht Hs']. lia.
Qed.

(** [XREAD] from a canonical ID on a stream of canonical IDs: the next
    [count] items strictly after it, oldest first. *)
Lemma XREAD_spec key tm s count w :
  faults w = [] -> 0 <= count <= maxInt32 ->
  valid_pair tm s -> s < maxUint64 -> regular_stream (tbl w) key ->
  exists ps',
    XREAD key (encode tm s) count w =
    Done (items_of (tbl w) key
            (take (Z.to_nat count) (after_id (encode tm s) (stream_ids (tbl w) key))),
          None) (mkWorld (tbl w) (now w) [] ps').
Proof.
  intros Hf Hc Hv Hlt Hreg. unfold XREAD. rewrite Next_encode by assumption.
  destruct (XRANGE_spec key (encode tm (s + 1)) XEnd count w) as (ps' & E);
    try assumption.
  { apply encode_le_XEnd. now apply valid_succ. }
  exists ps'. rewrite E. now rewrite sort_keys_after.
Qed.

(** What comes after the last ID of a page is what the page left. *)
Lemma after_last_of_page (ids : list XID) from n lastID :
  StronglySorted String.le ids -> NoDup ids ->
  last (take n (after_id from ids)) = Some lastID ->
  after_id lastID ids = drop n (after_id from ids).
Proof.
  intros Hs Hn Hl. set (A := after_id from ids) in *.
  assert (HA : StronglySorted String.le A) by now apply StronglySorted_filter.
  assert (NA : NoDup A) by now apply NoDup_filter_stdlib.
  rewrite <- (take_drop n A) in HA, NA.
  apply NoDup_app in NA. destruct NA as (_ & Ndis & Nd).
  assert (Hin : lastID ∈ take n A) by now apply last_Some_elem_of.
  assert (HinA : lastID ∈ A) by now apply (subseteq_take n).
  apply elem_of_filter_stdlib in HinA. destruct HinA as [Hfl _]. apply ltb_lt in Hfl.
  apply sorted_elements_unique.
  - now apply StronglySorted_filter.
  - now apply StronglySorted_app_1_r in HA.
  - now apply NoDup_filter_stdlib.
  - exact Nd.
  - intros x. unfold after_id at 1. rewrite elem_of_filter_stdlib. split.
    + intros [Hx Hxi]. apply ltb_lt in Hx.
      assert (x ∈ A) as HxA.
      { apply elem_of_filter_stdlib. split; [|assumption].
        apply ltb_lt. now apply (str_lt_trans from lastID x). }
      rewrite <- (take_drop n A) in HxA. apply elem_of_app in HxA.
      destruct HxA as [Hxt|Hxd]; [|assumption]. exfalso.
      assert (x ≤ lastID)%string as Hle.
      { apply (asc_last (take n A) lastID x); try assumption.
        now apply StronglySorted_app_1_l in HA. }
      apply str_lt_not_le in Hx. contradiction.
    + intros Hxd.
      assert (x ∈ A) as HxA by now apply (subseteq_drop n).
      apply elem_of_filter_stdlib in HxA. destruct HxA as [_ Hxi].
      split; [|assumption]. apply ltb_lt, str_lt_iff. split.
      * apply (StronglySorted_app_1_elem_of String.le _ _ lastID x HA Hin Hxd).
      * intros ->. now apply (Ndis x).
Qed.

(** The resume law of [XREAD], where no sequence number is at the
    maximum: the second call, from the last ID of the first, returns the
    items that follow those of the first call; it repeats none of them
    and leaves no gap. *)
Lemma xread_resume key tm s count w :
  faults w = [] -> 0 <= count <= maxInt32 ->
  valid_pair tm s -> s < maxUint64 -> regular_stream (tbl w) key ->
  let n := Z.to_nat count in
  let A := after_id (encode tm s) (stream_ids (tbl w) key) in
  exists w1,
    XREAD key (encode tm s) count w = Done (items_of (tbl w) key (take n A), None) w1 /\
    forall lastID, last (take n A) = Some lastID ->
      exists w2,
        XREAD key lastID count w1 =
          Done (items_of (tbl w) key (take n (drop n A)), None) w2 /\
        (lastID ∉ take n (drop n A)) /\
        take n A ++ take n (drop n A) = take (n + n) A.
Proof.
  intros Hf Hc Hv Hlt Hreg n A.
  destruct (XREAD_spec key tm s count w) as (ps1 & E1); try assumption.
  eexists. split; [exact E1|]. intros lastID Hl.
  assert (HlA : lastID ∈ A).
  { apply (subseteq_take n). now apply last_Some_elem_of. }
  apply elem_of_filter_stdlib in HlA. destruct HlA as [_ Hli].
  destruct (Hreg lastID Hli) as (tm' & s' & Hv' & Hlt' & ->).
  destruct (XREAD_spec key tm' s' count (mkWorld (tbl w) (now w) [] ps1))
    as (ps2 & E2); try assumption; try reflexivity.
  cbn [tbl now] in E2.
  assert (Hafter : after_id (encode tm' s') (stream_ids (tbl w) key) = drop n A).
  { apply after_last_of_page; [apply sorted_sort_keys | apply NoDup_sort_keys | exact Hl]. }
  rewrite Hafter in E2. eexists. split; [exact E2|]. split.
  - intros Hin. apply (subseteq_take n) in Hin.
    assert (NA : NoDup A) by (apply NoDup_filter_stdlib, NoDup_sort_keys).
    rewrite <- (take_drop n A) in NA. apply NoDup_app in NA.
    destruct NA as (_ & Ndis & _). apply (Ndis (encode tm' s')); [|assumption].
    now apply last_Some_elem_of.
  - apply take_take_drop.
Qed.

End RangeReads.

(** ** Concrete streams *)

Section Concrete.

Lemma stream_max_reached :
  NewXID (time.Unix 5 0) maxUint64 = id_5_max /\
  XADD "s" id_5_1 ∅ (quiet_world ∅) = Done (id_5_1, None) (quiet_world stream_one) /\
  XADD "s" id_5_max ∅ (quiet_world stream_one) =
    Done (id_5_max, None) (quiet_world stream_max).
Proof. repeat split; vm_compute; reflexivity. Qed.

(** [Last] writes the sequence part as twenty nines, which [Seq] reads
    as the greatest [uint64]: the successor of the last XID of a second
    is the first XID of that second. *)
Lemma Next_Last t s :
  valid_pair t s -> Next (Last (encode t s)) = Some (First (encode t s)).
Proof.
  intros Hv. pose proof (Time_encode t s Hv) as Ht.
  destruct Hv as [Hlo Hhi]. unfold maxInt64 in Hlo.
  assert (E : Last (encode t s) = NewXID (time.Unix t 0) 99999999999999999999).
  { unfold Last, NewXID. now rewrite Ht. }
  unfold First. rewrite Ht, E. unfold Next, Seq.
  rewrite Split_NewXID by (simpl; lia).
  rewrite Time_NewXID by (simpl; unfold maxInt64; lia).
  reflexivity.
Qed.

(** C4, at the top of the sequence range: the stream holds an item whose
    sequence number is the greatest [uint64]; [Next] of its ID wraps to
    sequence 0 of the same second, so [XREAD] from that ID, the last one
    of the first call, returns the same items once more. *)
Theorem xread_repeats_at_max_sequence :
  Next id_5_max = Some "00000000000000000005-00000000000000000000" /\
  XREAD "s" XStart 10 (quiet_world stream_max) =
    Done ([mkStreamItem id_5_1 ∅; mkStreamItem id_5_max ∅], None)
         (quiet_world stream_max) /\
  XREAD "s" id_5_max 10 (quiet_world stream_max) =
    Done ([mkStreamItem id_5_1 ∅; mkStreamItem id_5_max ∅], None)
         (quiet_world stream_max).
Proof. repeat split; vm_compute; reflexivity. Qed.

Lemma group_at_max_reached :
  XGROUP "s" "g" id_5_max (quiet_world stream_one) =
  Done None (quiet_world group_at_max).
Proof. vm_compute; reflexivity. Qed.

(** C3, at the top of the sequence range: the cursor stands at the
    greatest sequence number of its second and no item of the stream is
    greater than it; the read looks from sequence 0 of that second on,
    finds an older item, fails the cursor condition five times and
    returns the contention error instead of an empty result. *)
Theorem xreadgroup_contention_at_max_sequence :
  cursor_of "s" "g" group_at_max = Some (AVS id_5_max) /\
  stream_ids group_at_max "s" = [id_5_1] /\
  str_lt id_5_1 id_5_max /\
  XREADGROUP "s" "g" "c" XReadNew 1 (quiet_world group_at_max) =
    Done ([], Some ErrTooMuchContention) (quiet_world group_at_max) /\
  XREADGROUP "s" "g" "c" XReadNewAutoACK 1 (quiet_world group_at_max) =
    Done ([], Some ErrTooMuchContention) (quiet_world group_at_max).
Proof. repeat split; vm_compute; reflexivity. Qed.

(** C7 does not hold of [XGROUP]: called on a group whose cursor is
    [id_5_1], it puts [XStart] in its place, which is smaller. *)
Lemma xgroup_moves_cursor_back :
  cursor_of "s" "g" group_at_one = Some (AVS id_5_1) /\
  XGROUP "s" "g" XStart (quiet_world group_at_one) =
    Done None (quiet_world group_at_start) /\
  cursor_of "s" "g" group_at_start = Some (AVS XStart) /\
  str_lt XStart id_5_1 /\
  ~ cursor_le (Some (AVS id_5_1)) (Some (AVS XStart)).
Proof.
  split; [reflexivity|]. split; [vm_compute; reflexivity|].
  split; [reflexivity|]. split; [reflexivity|].
  intros [E|(x & y & Ex & Ey & Hlt)]; [discriminate|].
  inversion Ex; inversion Ey; subst. vm_compute in Hlt. discriminate.
Qed.

Lemma stream_two_regular : regular_stream stream_two "s".
Proof.
  intros x Hx. change (stream_ids stream_two "s") with [id_5_1; id_5_2] in Hx.
  apply elem_of_cons in Hx. destruct Hx as [->|Hx].
  - exists 5, 1. repeat split; try reflexivity; unfold maxInt64, maxUint64; lia.
  - apply list_elem_of_singleton in Hx. subst.
    exists 5, 2. repeat split; try reflexivity; unfold maxInt64, maxUint64; lia.
Qed.

(** The resume law on a stream of two items read one at a time. *)
Lemma xread_resume_example :
  exists w1 w2,
    XREAD "s" XStart 1 (quiet_world stream_two) =
      Done ([mkStreamItem id_5_1 ∅], None) w1 /\
    XREAD "s" id_5_1 1 w1 = Done ([mkStreamItem id_5_2 ∅], None) w2.
Proof.
  destruct (xread_resume "s" 0 0 1 (quiet_world stream_two))
    as (w1 & E1 & H); try reflexivity;
    [ unfold maxInt32; lia
    | unfold valid_pair, maxInt64, maxUint64; lia
    | exact stream_two_regular |].
  destruct (H id_5_1 eq_refl) as (w2 & E2 & _).
  exists w1, w2. split; [exact E1 | exact E2].
Qed.

(** The first read of a group on a quiet schedule: the item is
    delivered, the cursor moves to its ID, and [READ_NEW] records the
    delivery with count 1. *)
Lemma xreadgroup_delivers_example :
  exists w',
    XREADGROUP "s" "g" "c" XReadNew 1 (quiet_world group_ready) =
      Done ([mkStreamItem id_5_1 ∅], None) w' /\
    cursor_of "s" "g" (tbl w') = Some (AVS id_5_1) /\
    tbl w' !! ("_redimo/s/g", id_5_1) = Some (delivered "c" (time.Unix 100 0)).
Proof.
  assert (Hv : valid_pair 0 0) by (unfold valid_pair, maxInt64, maxUint64; lia).
  assert (Hb : 0 < maxUint64) by (unfold maxUint64; lia).
  pose proof (XREADGROUP_new_delivers "s" "g" "c" 0 0 (quiet_world group_ready)
                Hv Hb eq_refl eq_refl XReadNew 1 id_5_1 []) as E.
  eexists. split; [|split].
  - apply E; [discriminate | reflexivity | reflexivity].
  - reflexivity.
  - reflexivity.
Qed.

(** Five cancelled transactions in a row exhaust the retries. *)
Lemma xreadgroup_contention_example :
  XREADGROUP "s" "g" "c" XReadNew 1 (contended_world 0) =
  Done ([], Some ErrTooMuchContention) (contended_world 5).
Proof.
  apply (XREADGROUP_contention "s" "g" "c" XReadNew 1 contended_world);
    [discriminate|].
  intros i Hi.
  assert (i = 0 \/ i = 1 \/ i = 2 \/ i = 3 \/ i = 4)%nat as Hc by lia.
  destruct Hc as [->|[->|[->|[->| ->]]]]; vm_compute; reflexivity.
Qed.

End Concrete.

(** ** The theorems at concrete inputs *)

Section Witnesses.

Lemma xadd_watermark_witness :
  id_5_1 <> XAutoID /\
  (exists e w', XADD "s" id_5_1 ∅ (quiet_world stream_max) = Done (EmptyString, Some e) w') /\
  (exists w', XADD "s" id_5_1 ∅ (quiet_world ∅) = Done (id_5_1, None) w' /\
              watermark (tbl w') "s" = Some (AVS id_5_1)).
Proof.
  assert (Hid : id_5_1 <> XAutoID) by discriminate.
  split; [exact Hid|]. split.
  - destruct (xadd_watermark "s" id_5_1 ∅ (quiet_world stream_max) Hid) as (H1 & _ & _).
    destruct (H1 id_5_max) as (e & w' & E & _).
    + reflexivity.
    + vm_compute. discriminate.
    + exists e, w'. exact E.
  - destruct (xadd_watermark "s" id_5_1 ∅ (quiet_world ∅) Hid) as (_ & _ & H3).
    destruct H3 as (wi & w' & _ & _ & _ & E & Hw & _).
    + reflexivity.
    + reflexivity.
    + reflexivity.
    + exists w'. split; assumption.
Defined.

Lemma xclaim_threshold_witness :
  XCLAIM "s" "g" "b" (time.Unix 49 0) [id_5_1] (quiet_world pending_one) =
    Done ([], None) (quiet_world pending_one) /\
  exists w',
    XCLAIM "s" "g" "b" (time.Unix 50 0) [id_5_1] (quiet_world pending_one) =
      Done ([parseStreamItem (id_5_1, ∅)], None) w'.
Proof.
  split.
  - destruct (xclaim_threshold "s" "g" "b" (time.Unix 49 0) id_5_1 [] []
                (quiet_world pending_one) pending_entry 50) as [H _].
    + reflexivity.
    + simpl. lia.
    + reflexivity.
    + reflexivity.
    + apply H. reflexivity.
  - destruct (xclaim_threshold "s" "g" "b" (time.Unix 50 0) id_5_1 [] []
                (quiet_world pending_one) pending_entry 50) as [_ H].
    + reflexivity.
    + simpl. lia.
    + reflexivity.
    + reflexivity.
    + destruct (H eq_refl ∅ eq_refl) as (_ & E & _).
      eexists. exact E.
Defined.

Lemma xclaim_missing_item_witness :
  exists w',
    XCLAIM "s" "g" "b" (time.Unix 60 0) [id_5_1; id_5_2] (quiet_world pending_orphan) =
      Done ([], Some (ErrCouldNotLoadStreamItem None)) w' /\
    tbl w' !! ("_redimo/s/g", id_5_1) = Some (claimed "b" pending_entry (time.Unix 100 0)).
Proof.
  destruct (xclaim_missing_item "s" "g" "b" (time.Unix 60 0) id_5_1 [id_5_2] []
              (quiet_world pending_orphan) pending_entry 50) as (E & Hl & _).
  - reflexivity.
  - reflexivity.
  - reflexivity.
  - simpl. lia.
  - reflexivity.
  - eexists. split; [exact E | exact Hl].
Defined.

Lemma xack_reports_existing_witness :
  (exists acked t',
     XACK "s" "g" [id_5_2; id_5_1] (quiet_world pending_one) =
       Done (acked, None) (set_tbl t' (quiet_world pending_one)) /\
     (id_5_1 ∈ acked) /\ (id_5_2 ∉ acked)) /\
  (exists acked t',
     XACK "s" "g" [id_5_1; id_5_2]
       (mkWorld pending_one (time.Unix 100 0) [None; Some Unavailable] []) =
       Done (acked, Some ErrStore) (mkWorld t' (time.Unix 100 0) [] [])).
Proof.
  destruct (xack_reports_existing "s" "g" [id_5_2; id_5_1] (quiet_world pending_one))
    as [H1 _].
  destruct (xack_reports_existing "s" "g" [id_5_1; id_5_2]
              (mkWorld pending_one (time.Unix 100 0) [None; Some Unavailable] []))
    as [_ H2].
  split.
  - destruct (H1 eq_refl) as (acked & t' & E & Hin & _).
    exists acked, t'. split; [exact E|]. split.
    + apply Hin. split; [apply list_elem_of_further, list_elem_of_here|].
      eexists. reflexivity.
    + intros Hc. apply Hin in Hc. destruct Hc as [_ [v Hv]]. discriminate.
  - destruct (H2 1%nat Unavailable []) as (acked & t' & E & _).
    + reflexivity.
    + simpl. lia.
    + exists acked, t'. exact E.
Defined.

Lemma xtrim_keeps_newest_witness :
  exists w',
    XTRIM "s" 1 paged_world = Done (2, None) w' /\
    stream_ids (tbl w') "s" = [id_5_max].
Proof.
  destruct (xtrim_keeps_newest "s" 1 paged_world) as (w' & E & Hk & _).
  - reflexivity.
  - unfold maxInt32. lia.
  - vm_compute. discriminate.
  - exists w'. split; [exact E | exact Hk].
Defined.

Lemma cursor_advances_by_reads_witness :
  cursor_le (cursor_of "s" "g" (tbl (quiet_world group_ready)))
            (cursor_of "s" "g" (tbl (quiet_world group_read))) /\
  exists w', XGROUP "s" "g" XStart (quiet_world group_at_one) = Done None w'.
Proof.
  destruct (cursor_advances_by_reads "s" "g") as [H1 H2]. split.
  - apply (H1 [("c", XReadNewAutoACK, 1)]). vm_compute. reflexivity.
  - destruct (H2 XStart (quiet_world group_at_one) eq_refl) as (w' & E & _).
    exists w'. exact E.
Defined.

End Witnesses.

(* ================================================================== *)
(** * Part III. Further properties of the stream code                   *)
(* ================================================================== *)

(** ** XIDs: neighbours, seconds, malformed strings *)

Section Neighbours.

Lemma Prev_encode t s :
  valid_pair t s ->
  Prev (encode t s) = Some (if s <=? 1 then encode t s else encode t (s - 1)).
Proof.
  intros [Ht Hs]. unfold Prev, encode.
  rewrite Seq_NewXID by (simpl; unfold maxInt64 in *; lia).
  destruct (Z.leb_spec s 1) as [Hle|Hgt]; [reflexivity|].
  rewrite Time_NewXID by (simpl; unfold maxUint64 in *; lia).
  unfold uint64. rewrite Z.mod_small by (unfold maxUint64 in *; lia).
  reflexivity.
Qed.

(** X1: below the greatest sequence number [Next] gives the XID of the
    same second with the next sequence number, which is strictly
    greater; [Prev] takes it back, except that [Prev] never goes from
    sequence 1 to sequence 0: there it returns its argument. *)
Theorem prev_undoes_next t s :
  valid_pair t s -> s < maxUint64 ->
  Next (encode t s) = Some (encode t (s + 1)) /\
  str_lt (encode t s) (encode t (s + 1)) /\
  Prev (encode t (s + 1)) =
    Some (if s =? 0 then encode t 1 else encode t s).
Proof.
  intros Hv Hlt. split; [now apply Next_encode|].
  split; [now apply encode_lt_next|].
  rewrite Prev_encode by now apply valid_succ.
  destruct Hv as [Ht Hs].
  destruct (Z.eqb_spec s 0) as [->|Hne]; [reflexivity|].
  destruct (Z.leb_spec (s + 1) 1); [lia|].
  now replace (s + 1 - 1) with s by lia.
Qed.

Lemma prev_undoes_next_witness :
  Next (encode 5 7) = Some (encode 5 8) /\ Prev (encode 5 8) = Some (encode 5 7) /\
  Prev (encode 5 1) = Some (encode 5 1).
Proof.
  assert (Hv : forall s, 0 <= s <= 7 -> valid_pair 5 s)
    by (intros s Hs; unfold valid_pair, maxInt64, maxUint64; lia).
  assert (Hm : forall s, 0 <= s <= 7 -> s < maxUint64)
    by (intros s Hs; unfold maxUint64; lia).
  destruct (prev_undoes_next 5 7 (Hv 7 ltac:(lia)) (Hm 7 ltac:(lia))) as (H1 & _ & H2).
  destruct (prev_undoes_next 5 0 (Hv 0 ltac:(lia)) (Hm 0 ltac:(lia))) as (_ & _ & H3).
  split; [exact H1|]. split; [exact H2 | exact H3].
Defined.

Lemma First_encode t s : valid_pair t s -> First (encode t s) = encode t 0.
Proof.
  intros Hv. unfold First. rewrite (Time_encode t s Hv). reflexivity.
Qed.

Lemma Last_encode t s :
  valid_pair t s -> Last (encode t s) = NewXID (time.Unix t 0) 99999999999999999999.
Proof.
  intros Hv. unfold Last, NewXID. now rewrite (Time_encode t s Hv).
Qed.

(** X2: [First] and [Last] bracket one second: an XID built from a valid
    pair lies between the first and the last XID of a timestamp exactly
    when it carries that timestamp; [First] is the XID that
    [NewTimeXID] builds. *)
Theorem first_last_bracket_second t s t' s' :
  valid_pair t s -> valid_pair t' s' ->
  First (encode t s) = NewTimeXID (time.Unix t 0) /\
  (((First (encode t s) ≤ encode t' s')%string /\
    (encode t' s' ≤ Last (encode t s))%string) <-> t' = t).
Proof.
  intros Hv Hv'. split; [now apply First_encode|].
  rewrite First_encode, Last_encode by assumption.
  destruct Hv as [Ht Hs], Hv' as [Ht' Hs']. unfold maxInt64, maxUint64 in *.
  rewrite !le_compare. unfold encode.
  rewrite !compare_NewXID by (simpl; lia).
  cbn [time.Time_Unix time.Unix time.sec].
  destruct (Z.compare_spec t t') as [E|L|G].
  - subst. rewrite Z.compare_refl. split; [reflexivity|]. intros _. split.
    + destruct (Z.compare_spec 0 s'); [discriminate | discriminate | lia].
    + destruct (Z.compare_spec s' 99999999999999999999); [discriminate | discriminate | lia].
  - destruct (Z.compare_spec t' t) as [E|L'|G]; try lia. split; [|lia].
    intros [_ H]. now contradiction H.
  - split; [|lia]. intros [H _]. now contradiction H.
Qed.

Lemma first_last_bracket_second_witness :
  (First (encode 5 7) ≤ encode 5 maxUint64)%string /\
  (encode 5 maxUint64 ≤ Last (encode 5 7))%string.
Proof.
  assert (Hv : valid_pair 5 7) by (unfold valid_pair, maxInt64, maxUint64; lia).
  assert (Hv' : valid_pair 5 maxUint64) by (unfold valid_pair, maxInt64, maxUint64; lia).
  destruct (first_last_bracket_second 5 7 5 maxUint64 Hv Hv') as [_ H].
  apply H. reflexivity.
Defined.

End Neighbours.

Section Malformed.

Lemma Split_no_sep s : no_sep s -> strings.Split s "-" = [s].
Proof.
  induction s as [|c s IH]; intros H; [reflexivity|].
  destruct H as [Hc Hs]. cbn [strings.Split]. rewrite (IH Hs).
  destruct (Ascii.eqb_spec c "-"); [contradiction | reflexivity].
Qed.

Lemma Seq_no_sep s : no_sep s -> Seq s = None.
Proof. intros H. unfold Seq. now rewrite Split_no_sep. Qed.

(** X3: an XID without the separator has no sequence part: [Next] and
    [Prev] panic on it (index out of range), and so does [XREAD] from
    it, before any store call. *)
Theorem xread_panics_without_separator key from count w :
  no_sep from ->
  Next from = None /\ Prev from = None /\ XREAD key from count w = Panic.
Proof.
  intros H. pose proof (Seq_no_sep from H) as E.
  unfold XREAD, Next, Prev. rewrite E. repeat split.
Qed.

Lemma xread_panics_without_separator_witness :
  XREAD "s" XAutoID 10 (quiet_world stream_one) = Panic.
Proof.
  apply (xread_panics_without_separator "s" XAutoID 10 (quiet_world stream_one)).
  simpl. split; [discriminate | exact I].
Defined.

(** X4: [XGROUP] accepts any string as the start of a group; when the
    string is not empty and has no separator, every later read of new
    items panics at [currentCursor.Next()]. *)
Theorem xreadgroup_panics_on_malformed_cursor
    key group consumer opt maxCount start w :
  no_sep start -> start <> EmptyString -> opt <> XReadPending ->
  faults w = [] ->
  exists w',
    XGROUP key group start w = Done None w' /\
    cursor_of key group (tbl w') = Some (AVS start) /\
    XREADGROUP key group consumer opt maxCount w' = Panic.
Proof.
  intros Hs Hne Ho Hf. rewrite XGROUP_quiet by assumption.
  eexists. split; [reflexivity|].
  set (w' := set_tbl _ w).
  assert (Hc : cursor_of key group (tbl w') = Some (AVS start)).
  { unfold cursor_of, w'. cbn [tbl set_tbl].
    rewrite lookup_insert_eq. apply lookup_insert_eq. }
  split; [exact Hc|].
  assert (E : readNew_loop 5 key group consumer opt w' = Panic).
  { cbn [readNew_loop]. unfold bind. rewrite readNew_attempt_unfold.
    rewrite xGroupCursorGet_quiet by exact Hf. rewrite Hc.
    apply String.eqb_neq in Hne. rewrite Hne.
    unfold Next. now rewrite Seq_no_sep. }
  destruct opt; [congruence | exact E | exact E].
Qed.

Lemma xreadgroup_panics_on_malformed_cursor_witness :
  exists w',
    XGROUP "s" "g" "$" (quiet_world stream_one) = Done None w' /\
    XREADGROUP "s" "g" "c" XReadNew 1 w' = Panic.
Proof.
  destruct (xreadgroup_panics_on_malformed_cursor "s" "g" "c" XReadNew 1 "$"
              (quiet_world stream_one)) as (w' & E1 & _ & E2).
  - simpl. split; [discriminate | exact I].
  - discriminate.
  - discriminate.
  - reflexivity.
  - exists w'. split; assumption.
Defined.

(** X26: an empty start leaves the group uninitialized: [XGROUP] writes
    the empty string as cursor without complaint, and the reads of new
    items that follow answer that the group was not initialized with
    [XGROUP]. *)
Theorem xgroup_empty_start_uninitialised key group consumer opt maxCount w :
  opt <> XReadPending -> faults w = [] ->
  exists w',
    XGROUP key group EmptyString w = Done None w' /\
    cursor_of key group (tbl w') = Some (AVS EmptyString) /\
    XREADGROUP key group consumer opt maxCount w' =
      Done ([], Some ErrXGroupNotInitialized) w'.
Proof.
  intros Ho Hf. rewrite XGROUP_quiet by assumption.
  eexists. split; [reflexivity|].
  set (w' := set_tbl _ w).
  assert (Hc : cursor_of key group (tbl w') = Some (AVS EmptyString)).
  { unfold cursor_of, w'. cbn [tbl set_tbl].
    rewrite lookup_insert_eq. apply lookup_insert_eq. }
  split; [exact Hc|].
  assert (E : readNew_loop 5 key group consumer opt w' =
              Done ([], Some ErrXGroupNotInitialized) w').
  { cbn [readNew_loop]. unfold bind. rewrite readNew_attempt_unfold.
    rewrite xGroupCursorGet_quiet by exact Hf. now rewrite Hc. }
  destruct opt; [congruence | exact E | exact E].
Qed.

Lemma xgroup_empty_start_uninitialised_witness :
  exists w',
    XGROUP "s" "g" EmptyString (quiet_world stream_one) = Done None w' /\
    XREADGROUP "s" "g" "c" XReadNew 1 w' =
      Done ([], Some ErrXGroupNotInitialized) w'.
Proof.
  destruct (xgroup_empty_start_uninitialised "s" "g" "c" XReadNew 1
              (quiet_world stream_one)) as (w' & E1 & _ & E2).
  - discriminate.
  - reflexivity.
  - exists w'. split; assumption.
Defined.

Lemma digits_fuel f n :
  (0 < f)%nat -> 0 <= n < 10 ^ Z.of_nat f -> fmt.digits (S f) n = fmt.digits f n.
Proof.
  revert n; induction f as [|f IH]; intros n Hf Hn; [lia|].
  cbn [fmt.digits]. destruct (Z.ltb_spec n 10) as [Hlt|Hge]; [reflexivity|].
  f_equal. destruct f as [|f].
  - simpl in Hn. lia.
  - apply IH; [lia|]. split; [apply Z.div_pos; lia|].
    apply Z.div_lt_upper_bound; [lia|].
    replace (Z.of_nat (S (S f))) with (Z.succ (Z.of_nat (S f))) in Hn by lia.
    rewrite Z.pow_succ_r in Hn by lia. lia.
Qed.

Lemma Sprintf_020d_negative n :
  - 10 ^ 19 < n < 0 ->
  fmt.Sprintf_020d n = String "-" (fixed 19 (- n)).
Proof.
  intros Hn. unfold fmt.Sprintf_020d, fmt.itoa.
  destruct (Z.ltb_spec n 0); [|lia]. f_equal.
  rewrite (digits_fuel 19) by (simpl; lia).
  apply padZero_digits; [simpl; lia | lia].
Qed.

(** X5: a timestamp before the epoch does not survive the codec.  The
    sign that [%020d] writes is the separator, so the string splits in
    three: [Time] reads the empty first part as second 0, and [Seq]
    reads the digits of the timestamp in place of the sequence
    number. *)
Theorem xid_negative_time_misread t s :
  - 2 ^ 63 <= t < 0 -> 0 <= s <= maxUint64 ->
  Time (NewXID (time.Unix t 0) s) = time.Unix 0 0 /\
  Seq (NewXID (time.Unix t 0) s) = Some (- t) /\
  String.length (NewXID (time.Unix t 0) s) = 41%nat.
Proof.
  intros Ht Hs. unfold maxUint64 in Hs.
  assert (E : NewXID (time.Unix t 0) s =
              EmptyString +:+ String "-" (fixed 19 (- t) +:+ String "-" (fixed 20 s))).
  { unfold NewXID, strings.Join. cbn [String.concat time.Time_Unix time.Unix time.sec].
    rewrite Sprintf_020d_negative by lia.
    rewrite Sprintf_020d_fixed by lia.
    rewrite append_nil_l, append_cons. reflexivity. }
  assert (Sp : strings.Split (NewXID (time.Unix t 0) s) "-" =
               [EmptyString; fixed 19 (- t); fixed 20 s]).
  { rewrite E. rewrite Split_digits_sep by exact I.
    rewrite Split_digits_sep by (apply all_digits_fixed; lia).
    rewrite Split_digits by (apply all_digits_fixed; lia). reflexivity. }
  split; [|split].
  - unfold Time. rewrite Sp. reflexivity.
  - unfold Seq. rewrite Sp.
    rewrite ParseUint_fixed; [reflexivity | lia | simpl; lia | unfold maxUint64; lia].
  - rewrite E, append_nil_l. cbn [String.length].
    rewrite length_append, length_fixed. cbn [String.length].
    rewrite length_fixed. reflexivity.
Qed.

Lemma xid_negative_time_misread_witness :
  Seq (NewXID (time.Unix (-3) 0) 8) = Some 3.
Proof.
  destruct (xid_negative_time_misread (-3) 8) as (_ & H & _).
  - lia.
  - unfold maxUint64. lia.
  - exact H.
Defined.

End Malformed.

(** ** Paged reads in both directions *)

Section Paging.

Implicit Types (t : Table) (q : QueryInput) (c x : string).

Lemma elem_of_q_rest t q x :
  x ∈ q_rest t q <->
  beyond (ScanIndexForward q) (ExclusiveStartKey q) x = true /\
  x ∈ sort_keys t (q_pk q) (q_start q) (q_stop q).
Proof.
  unfold q_rest, q_scan. rewrite elem_of_filter_stdlib.
  destruct (ScanIndexForward q); [reflexivity|]. now rewrite elem_of_reverse.
Qed.

(** The order in which a query scans: ascending or descending. *)
Lemma q_rest_sorted t q :
  StronglySorted (if ScanIndexForward q then String.le else desc) (q_rest t q).
Proof.
  destruct (ScanIndexForward q) eqn:E; [now apply q_rest_asc | now apply q_rest_desc].
Qed.

(** After a page, the scan goes on with what came after the page,
    whatever the direction, the limit and the filter. *)
Lemma q_rest_next t q q' b c :
  q_pk q' = q_pk q -> q_start q' = q_start q -> q_stop q' = q_stop q ->
  ScanIndexForward q' = ScanIndexForward q -> ExclusiveStartKey q' = Some c ->
  last (take b (q_rest t q)) = Some c ->
  q_rest t q' = drop b (q_rest t q).
Proof.
  intros Hp Hlo Hhi Hd Hc Hl. set (R := q_rest t q) in *.
  assert (HN : NoDup R) by apply q_rest_NoDup.
  rewrite <- (take_drop b R) in HN.
  apply NoDup_app in HN. destruct HN as (Nt & Ndis & Nd).
  assert (Hcin : c ∈ take b R) by now apply last_Some_elem_of.
  assert (HcR : c ∈ R) by now apply (subseteq_take b).
  pose proof (q_rest_sorted t q) as HS. fold R in HS.
  pose proof (q_rest_sorted t q') as HS'. rewrite Hd in HS'.
  assert (Hmem : forall y, y ∈ q_rest t q' <->
            beyond (ScanIndexForward q) (Some c) y = true /\ y ∈
            sort_keys t (q_pk q) (q_start q) (q_stop q)).
  { intros y. rewrite elem_of_q_rest, Hp, Hlo, Hhi, Hd, Hc. reflexivity. }
  assert (HcB : beyond (ScanIndexForward q) (ExclusiveStartKey q) c = true)
    by (apply (elem_of_q_rest t q c); exact HcR).
  destruct (ScanIndexForward q) eqn:Fw.
  - rewrite <- (take_drop b R) in HS. apply sorted_elements_unique.
    + exact HS'.
    + now apply StronglySorted_app_1_r in HS.
    + apply q_rest_NoDup.
    + exact Nd.
    + intros y. rewrite Hmem. cbn [beyond]. split.
      * intros [Hlt Hy]. apply ltb_lt in Hlt.
        assert (HyR : y ∈ R).
        { apply elem_of_q_rest. rewrite Fw. split; [|exact Hy].
          destruct (ExclusiveStartKey q) as [c0|]; [|reflexivity]. cbn [beyond] in *.
          apply ltb_lt. apply ltb_lt in HcB. now apply (str_lt_trans c0 c y). }
        rewrite <- (take_drop b R) in HyR. apply elem_of_app in HyR.
        destruct HyR as [Hyt|Hyd]; [|assumption]. exfalso.
        assert (y ≤ c)%string as Hle.
        { apply (asc_last (take b R) c y); try assumption.
          now apply StronglySorted_app_1_l in HS. }
        apply str_lt_not_le in Hlt. contradiction.
      * intros Hyd.
        assert (HyR : y ∈ R) by now apply (subseteq_drop b).
        apply elem_of_q_rest in HyR. destruct HyR as [_ Hy].
        split; [|exact Hy]. apply ltb_lt, str_lt_iff. split.
        -- apply (StronglySorted_app_1_elem_of String.le _ _ c y HS Hcin Hyd).
        -- intros ->. now apply (Ndis y).
  - rewrite <- (take_drop b R) in HS. apply desc_elements_unique.
    + exact HS'.
    + now apply StronglySorted_app_1_r in HS.
    + apply q_rest_NoDup.
    + exact Nd.
    + intros y. rewrite Hmem. cbn [beyond]. split.
      * intros [Hlt Hy]. apply ltb_lt in Hlt.
        assert (HyR : y ∈ R).
        { apply elem_of_q_rest. rewrite Fw. split; [|exact Hy].
          destruct (ExclusiveStartKey q) as [c0|]; [|reflexivity]. cbn [beyond] in *.
          apply ltb_lt. apply ltb_lt in HcB. now apply (str_lt_trans y c c0). }
        rewrite <- (take_drop b R) in HyR. apply elem_of_app in HyR.
        destruct HyR as [Hyt|Hyd]; [|assumption]. exfalso.
        assert (c ≤ y)%string as Hle.
        { apply (desc_last (take b R) c y); try assumption.
          now apply StronglySorted_app_1_l in HS. }
        apply str_lt_not_le in Hlt. contradiction.
      * intros Hyd.
        assert (HyR : y ∈ R) by now apply (subseteq_drop b).
        apply elem_of_q_rest in HyR. destruct HyR as [_ Hy].
        split; [|exact Hy]. apply ltb_lt, str_lt_iff. split.
        -- apply (StronglySorted_app_1_elem_of desc _ _ c y HS Hcin Hyd).
        -- intros ->. now apply (Ndis c).
Qed.

(** A query reads only keys that hold an item. *)
Lemma q_read_stored t q cap s : s ∈ q_read t q cap -> is_Some (t !! (q_pk q, s)).
Proof. intros H. now apply (q_rest_subset t q), (q_read_subset t q cap). Qed.

Lemma parsed_of_app {A} (parse : string * Attrs -> A) t p l1 l2 :
  parsed_of parse t p (l1 ++ l2) = parsed_of parse t p l1 ++ parsed_of parse t p l2.
Proof. apply fmap_app. Qed.

(** The two loops of the source are instances of [paged_loop]. *)
Lemma xRange_loop_paged fuel key start stop forward : forall cursor count acc w,
  xRange_loop fuel key start stop forward cursor count acc w =
  paged_loop parseStreamItem fuel key start stop forward cursor count acc w.
Proof.
  induction fuel as [|fuel IH]; intros cursor count acc w; [reflexivity|].
  cbn [xRange_loop paged_loop]. destruct (0 <? count); [|reflexivity].
  unfold bind.
  destruct (Query _ w) as [[resp [e|]] w1| |]; try reflexivity.
  cbn [fst snd]. destruct (LastEvaluatedKey resp); [|reflexivity]. apply IH.
Qed.

Lemma XPENDING_loop_paged fuel key group : forall cursor count acc w,
  XPENDING_loop fuel key group cursor count acc w =
  paged_loop parsePendingItem fuel (xGroupKey key group) XStart XEnd true
    cursor count acc w.
Proof.
  induction fuel as [|fuel IH]; intros cursor count acc w; [reflexivity|].
  cbn [XPENDING_loop paged_loop]. destruct (0 <? count); [|reflexivity].
  unfold bind.
  destruct (Query _ w) as [[resp [e|]] w1| |]; try reflexivity.
  cbn [fst snd]. destruct (LastEvaluatedKey resp); [|reflexivity]. apply IH.
Qed.

(** One pass of the shared loop on a store that answers. *)
Lemma paged_loop_step {A} (parse : string * Attrs -> A) fuel p start stop forward
    cursor count acc w :
  faults w = [] -> String.ltb stop start = false -> 0 < count ->
  let q := mkQuery p start stop cursor (Some count) forward None in
  let read := q_read (tbl w) q (cap_of w) in
  let acc' := acc ++ parsed_of parse (tbl w) p read in
  paged_loop parse (S fuel) p start stop forward cursor count acc w =
  match q_lek (tbl w) q (cap_of w) with
  | Some c =>
      paged_loop parse fuel p start stop forward (Some c)
        (int32 (count - Z.of_nat (length read))) acc' (turned w)
  | None => Done (acc', None) (turned w)
  end.
Proof.
  intros Hf Hr Hc q read acc'. cbn [paged_loop].
  destruct (Z.ltb_spec 0 count) as [_|]; [|lia].
  unfold bind at 1. fold q.
  rewrite Query_quiet; [| assumption | | assumption].
  2: { simpl. destruct (Z.ltb_spec count 1); [lia | reflexivity]. }
  cbn [fst snd Items LastEvaluatedKey]. fold read.
  assert (Hall : forall s, s ∈ read -> is_Some (tbl w !! (q_pk q, s)))
    by (intros s; apply q_read_stored).
  rewrite (q_items_all (tbl w) q read eq_refl Hall).
  rewrite <- list_fmap_compose, length_fmap.
  change (parse ∘ (fun s => (s, default ∅ (tbl w !! (q_pk q, s)))) <$> read)
    with (parsed_of parse (tbl w) p read).
  fold acc'. destruct (q_lek (tbl w) q (cap_of w)); reflexivity.
Qed.

(** The shared loop, from any state it can be in: it appends the next
    [count] items of the scan. *)
Lemma paged_loop_spec {A} (parse : string * Attrs -> A) p start stop forward :
  forall ps fuel cursor count acc w,
  faults w = [] -> pages w = ps -> (S (length ps) < fuel)%nat ->
  String.ltb stop start = false -> 0 <= count <= maxInt32 ->
  let R := q_rest (tbl w) (mkQuery p start stop cursor (Some count) forward None) in
  exists ps',
    paged_loop parse fuel p start stop forward cursor count acc w =
    Done (acc ++ parsed_of parse (tbl w) p (take (Z.to_nat count) R), None)
         (mkWorld (tbl w) (now w) [] ps').
Proof.
  intros ps fuel. revert ps.
  induction fuel as [|fuel IH]; intros ps cursor count acc w Hf Hp Hfuel Hr Hc R;
    [lia|].
  destruct (Z.ltb_spec 0 count) as [Hpos|Hz].
  2: { assert (count = 0) as -> by lia.
       cbn [paged_loop]. change (0 <? 0) with false. cbv iota.
       change (Z.to_nat 0) with 0%nat. rewrite take_0.
       unfold parsed_of. cbn [fmap list_fmap]. rewrite app_nil_r.
       exists ps. unfold ret. destruct w; simpl in *; subst; reflexivity. }
  rewrite paged_loop_step by assumption.
  unfold q_lek, q_read. cbn [q_bound Limit]. fold R.
  set (b := match cap_of w with
            | Some c => (Z.to_nat count `min` c)%nat
            | None => Z.to_nat count
            end).
  assert (Hb : (0 < b <= Z.to_nat count)%nat).
  { unfold b, cap_of. destruct (pages w); lia. }
  assert (Hbd : match cap_of w with
                | Some c => Some (Z.to_nat count `min` c)%nat
                | None => Some (Z.to_nat count)
                end = Some b) by (unfold b; destruct (cap_of w); reflexivity).
  rewrite Hbd.
  assert (Hturn : turned w = mkWorld (tbl w) (now w) [] (tail ps)).
  { unfold turned. now rewrite Hf, Hp. }
  destruct (Nat.leb_spec b (length R)) as [Hle|Hgt].
  - assert (Hlast : is_Some (last (take b R))).
    { apply last_is_Some. intros E. apply (f_equal length) in E.
      rewrite length_take in E. change (length (@nil string)) with 0%nat in E. lia. }
    destruct Hlast as [c Hlc]. rewrite Hlc.
    rewrite length_take. replace (b `min` length R)%nat with b by lia.
    rewrite int32_small by (unfold maxInt32 in *; lia).
    destruct (Z.eq_dec (count - Z.of_nat b) 0) as [Hz|Hnz].
    + rewrite Hz. destruct fuel as [|fuel]; [lia|].
      cbn [paged_loop]. change (0 <? 0) with false. cbv iota.
      replace (Z.to_nat count) with b by lia.
      exists (tail ps). unfold ret. now rewrite Hturn.
    + assert (Hps : ps <> []).
      { intros ->. unfold b, cap_of in Hnz. rewrite Hp in Hnz. lia. }
      destruct ps as [|p0 ps]; [congruence|].
      destruct (IH ps (Some c) (count - Z.of_nat b)
                  (acc ++ parsed_of parse (tbl w) p (take b R)) (turned w))
        as (ps' & E).
      * exact Hf.
      * unfold turned. simpl. now rewrite Hp.
      * simpl in Hfuel. lia.
      * assumption.
      * lia.
      * rewrite E. exists ps'. cbn [tbl now turned].
        rewrite (q_rest_next (tbl w)
                   (mkQuery p start stop cursor (Some count) forward None)
                   (mkQuery p start stop (Some c) (Some (count - Z.of_nat b)) forward None)
                   b c) by (try reflexivity; exact Hlc).
        fold R. rewrite <- app_assoc, <- parsed_of_app.
        replace (Z.to_nat (count - Z.of_nat b)) with (Z.to_nat count - b)%nat by lia.
        rewrite take_take_drop.
        replace (b + (Z.to_nat count - b))%nat with (Z.to_nat count) by lia.
        reflexivity.
  - assert (Hall : take b R = R) by (apply take_ge; lia).
    rewrite Hall. rewrite (take_ge R (Z.to_nat count)) by lia.
    exists (tail ps). now rewrite Hturn.
Qed.

End Paging.

(** ** XRANGE, XREVRANGE, XPENDING and XLEN *)

Section Ranges.

Implicit Types (t : Table) (q : QueryInput).

Lemma xRange_spec key start stop count forward w :
  faults w = [] -> String.ltb stop start = false -> 0 <= count <= maxInt32 ->
  let ids := sort_keys (tbl w) key start stop in
  exists ps',
    xRange key start stop count forward w =
    Done (items_of (tbl w) key
            (take (Z.to_nat count) (if forward then ids else reverse ids)), None)
         (mkWorld (tbl w) (now w) [] ps').
Proof.
  intros Hf Hr Hc ids. unfold xRange, bind. rewrite loop_fuel_eq.
  rewrite xRange_loop_paged.
  destruct (paged_loop_spec parseStreamItem key start stop forward (pages w)
              (S (S (length (pages w) + size (tbl w)))) None count [] w)
    as (ps' & E); try assumption; try reflexivity; try lia.
  exists ps'. rewrite E. cbn [app].
  unfold q_rest, q_scan. cbn [ScanIndexForward ExclusiveStartKey beyond
    q_pk q_start q_stop]. now rewrite filter_true.
Qed.

(** X6: on a store that answers, [XRANGE(key, start, stop, count)]
    returns the first [count] items of the stream whose IDs lie between
    [start] and [stop], both included, oldest first, however the store
    cuts the pages; the table is left as it was. *)
Theorem xrange_returns_range key start stop count w :
  faults w = [] -> String.ltb stop start = false -> 0 <= count <= maxInt32 ->
  exists w',
    XRANGE key start stop count w =
      Done (items_of (tbl w) key
              (take (Z.to_nat count) (sort_keys (tbl w) key start stop)), None) w' /\
    tbl w' = tbl w /\ faults w' = [].
Proof.
  intros Hf Hr Hc.
  destruct (xRange_spec key start stop count true w Hf Hr Hc) as (ps' & E).
  eexists. split; [exact E|]. split; reflexivity.
Qed.

Lemma xrange_returns_range_witness :
  exists w',
    XRANGE "s" id_5_1 id_5_2 10 paged_world =
      Done ([mkStreamItem id_5_1 ∅; mkStreamItem id_5_2 ∅], None) w'.
Proof.
  destruct (xrange_returns_range "s" id_5_1 id_5_2 10 paged_world)
    as (w' & E & _).
  - reflexivity.
  - reflexivity.
  - unfold maxInt32. lia.
  - exists w'. exact E.
Defined.

(** X7: [XREVRANGE(key, end, start, count)] returns the [count] newest
    items of the same range, newest first: with a [count] that covers
    the range, the result of [XRANGE] reversed. *)
Theorem xrevrange_newest_first key end_ start count w :
  faults w = [] -> String.ltb end_ start = false -> 0 <= count <= maxInt32 ->
  let ids := sort_keys (tbl w) key start end_ in
  exists w',
    XREVRANGE key end_ start count w =
      Done (items_of (tbl w) key (take (Z.to_nat count) (reverse ids)), None) w' /\
    tbl w' = tbl w /\
    ((length ids <= Z.to_nat count)%nat ->
     exists w'',
       XRANGE key start end_ count w = Done (items_of (tbl w) key ids, None) w'' /\
       items_of (tbl w) key (take (Z.to_nat count) (reverse ids)) =
       reverse (items_of (tbl w) key ids)).
Proof.
  intros Hf Hr Hc ids.
  destruct (xRange_spec key start end_ count false w Hf Hr Hc) as (ps' & E).
  eexists. split; [exact E|]. split; [reflexivity|].
  intros Hlen.
  destruct (xRange_spec key start end_ count true w Hf Hr Hc) as (ps'' & E').
  eexists. split.
  - unfold XRANGE. rewrite E'. fold ids. now rewrite take_ge by lia.
  - rewrite take_ge by (rewrite length_reverse; lia).
    unfold items_of. apply fmap_reverse.
Qed.

Lemma xrevrange_newest_first_witness :
  exists w',
    XREVRANGE "s" XEnd XStart 2 paged_world =
      Done ([mkStreamItem id_5_max ∅; mkStreamItem id_5_2 ∅], None) w'.
Proof.
  destruct (xrevrange_newest_first "s" XEnd XStart 2 paged_world)
    as (w' & E & _).
  - reflexivity.
  - reflexivity.
  - unfold maxInt32. lia.
  - exists w'. exact E.
Defined.

Lemma length_q_items t q read : (length (q_items t q read) <= length read)%nat.
Proof.
  unfold q_items. induction read as [|s read IH]; [reflexivity|].
  cbn [omap list_omap]. destruct (t !! (q_pk q, s)) as [attrs|]; [|simpl; lia].
  destruct (passes _ _); simpl; lia.
Qed.

Lemma length_q_read t q cap n :
  Limit q = Some n -> (length (q_read t q cap) <= Z.to_nat n)%nat.
Proof.
  intros Hl. unfold q_read, q_bound. rewrite Hl.
  destruct cap; rewrite length_take; lia.
Qed.

(** Whatever the store does, the shared loop adds at most [count]
    items. *)
Lemma paged_loop_bound {A} (parse : string * Attrs -> A) p start stop forward fuel :
  forall cursor count acc w r w',
  0 <= count <= maxInt32 ->
  paged_loop parse fuel p start stop forward cursor count acc w = Done r w' ->
  (length (fst r) <= length acc + Z.to_nat count)%nat.
Proof.
  induction fuel as [|fuel IH]; intros cursor count acc w r w' Hc; [discriminate|].
  cbn [paged_loop]. destruct (Z.ltb_spec 0 count) as [Hpos|Hz].
  2: { intros [= <- _]. simpl. lia. }
  unfold bind at 1. rewrite Query_unfold.
  set (q := mkQuery p start stop cursor (Some count) forward None).
  assert (Hlen : (length (q_items (tbl w) q (q_read (tbl w) q (cap_of w)))
                  <= Z.to_nat count)%nat).
  { etransitivity; [apply length_q_items|]. now apply length_q_read. }
  destruct (faults w) as [|[f|] fs].
  2: { intros [= <- _]. simpl. lia. }
  all: destruct (match Limit q with Some n => n <? 1 | None => false end);
    [intros [= <- _]; simpl; lia|].
  all: destruct (String.ltb (q_stop q) (q_start q));
    [intros [= <- _]; simpl; lia|].
  all: cbn [fst snd Items LastEvaluatedKey].
  all: destruct (q_lek (tbl w) q (cap_of w)) as [c|];
    [| intros [= <- _]; cbn [fst]; rewrite length_app, length_fmap; lia].
  all: intros E; apply IH in E;
    [ rewrite length_app, length_fmap in E;
      rewrite int32_small in E by (unfold maxInt32 in *; lia); lia
    | rewrite int32_small by (unfold maxInt32 in *; lia); lia ].
Qed.

(** X8: whatever the store does (failed calls, short pages), [XRANGE]
    and [XREVRANGE] return at most [count] items and leave the table
    unchanged, also when they return an error. *)
Theorem xrange_at_most_count key start stop count w items err w' :
  0 <= count <= maxInt32 ->
  XRANGE key start stop count w = Done (items, err) w' \/
  XREVRANGE key stop start count w = Done (items, err) w' ->
  (length items <= Z.to_nat count)%nat /\ tbl w' = tbl w.
Proof.
  intros Hc E.
  assert (H : exists forward,
            xRange key start stop count forward w = Done (items, err) w')
    by (destruct E as [E|E]; eexists; exact E).
  clear E. destruct H as [forward E].
  unfold xRange, bind in E. rewrite loop_fuel_eq in E. split.
  - rewrite xRange_loop_paged in E.
    apply paged_loop_bound in E; [|exact Hc]. simpl in E. lia.
  - now apply xRange_loop_tbl in E.
Qed.

Lemma xrange_at_most_count_witness :
  XRANGE "s" XStart XEnd 2
    (mkWorld stream_three (time.Unix 100 0) [None; Some Unavailable] [0%nat]) =
    Done ([mkStreamItem id_5_1 ∅], Some ErrStore) (quiet_world stream_three) /\
  (length [mkStreamItem id_5_1 ∅] <= 2)%nat.
Proof.
  assert (E : XRANGE "s" XStart XEnd 2
    (mkWorld stream_three (time.Unix 100 0) [None; Some Unavailable] [0%nat]) =
    Done ([mkStreamItem id_5_1 ∅], Some ErrStore) (quiet_world stream_three))
    by (vm_compute; reflexivity).
  split; [exact E|].
  eapply (xrange_at_most_count "s" XStart XEnd 2).
  - unfold maxInt32. lia.
  - left. exact E.
Defined.

Lemma XPENDING_spec key group count w :
  faults w = [] -> 0 <= count <= maxInt32 ->
  exists ps',
    XPENDING key group count w =
      Done (parsed_of parsePendingItem (tbl w) (xGroupKey key group)
              (take (Z.to_nat count) (pending_ids (tbl w) key group)), None)
           (mkWorld (tbl w) (now w) [] ps').
Proof.
  intros Hf Hc. unfold XPENDING, bind. rewrite loop_fuel_eq.
  rewrite XPENDING_loop_paged.
  destruct (paged_loop_spec parsePendingItem (xGroupKey key group) XStart XEnd true
              (pages w) (S (S (length (pages w) + size (tbl w)))) None count [] w)
    as (ps' & E); try assumption; try reflexivity; try lia.
  exists ps'. rewrite E. cbn [app]. unfold q_rest, q_scan.
  cbn [ScanIndexForward ExclusiveStartKey beyond q_pk q_start q_stop].
  now rewrite filter_true.
Qed.

(** X9: on a store that answers, [XPENDING(key, group, count)] lists the
    first [count] pending entries of the group, oldest ID first, each
    read with [parsePendingItem]; the cursor record of the group is not
    among them. *)
Theorem xpending_lists_entries key group count w :
  faults w = [] -> 0 <= count <= maxInt32 ->
  exists w',
    XPENDING key group count w =
      Done (parsed_of parsePendingItem (tbl w) (xGroupKey key group)
              (take (Z.to_nat count) (pending_ids (tbl w) key group)), None) w' /\
    tbl w' = tbl w /\
    sk (xGroupCursorKey key group) ∉ pending_ids (tbl w) key group.
Proof.
  intros Hf Hc. destruct (XPENDING_spec key group count w Hf Hc) as (ps' & E).
  eexists. split; [exact E|]. split; [reflexivity|].
  unfold pending_ids. rewrite elem_of_sort_keys. intros (_ & _ & H).
  revert H. apply Is_true_false. reflexivity.
Qed.

Lemma xpending_lists_entries_witness :
  exists w',
    XPENDING "s" "g" 10 (quiet_world pending_one) =
      Done ([mkPendingItem id_5_1 "a" (time.Unix 50 0) 3], None) w'.
Proof.
  destruct (xpending_lists_entries "s" "g" 10 (quiet_world pending_one))
    as (w' & E & _).
  - reflexivity.
  - unfold maxInt32. lia.
  - exists w'. exact E.
Defined.

(** The loop of [XLEN], from any state it can be in. *)
Lemma XLEN_loop_spec key start stop : forall fuel ps cursor count w,
  faults w = [] -> pages w = ps -> (length ps < fuel)%nat ->
  String.ltb stop start = false ->
  let R := q_rest (tbl w) (mkQuery key start stop cursor None true None) in
  0 <= count -> count + Z.of_nat (length R) <= maxInt32 ->
  exists ps',
    XLEN_loop fuel key start stop cursor count w =
    Done (count + Z.of_nat (length R), None) (mkWorld (tbl w) (now w) [] ps').
Proof.
  induction fuel as [|fuel IH]; intros ps cursor count w Hf Hp Hfuel Hr R Hc Hmax;
    [lia|].
  cbn [XLEN_loop]. unfold bind at 1.
  set (q := mkQuery key start stop cursor None true None) in *.
  rewrite Query_quiet by (try assumption; reflexivity).
  cbn [fst snd Items LastEvaluatedKey].
  assert (Hall : forall s, s ∈ q_read (tbl w) q (cap_of w) ->
                           is_Some (tbl w !! (q_pk q, s)))
    by (intros s; apply q_read_stored).
  rewrite (q_items_all (tbl w) q _ eq_refl Hall), length_fmap.
  assert (Hturn : turned w = mkWorld (tbl w) (now w) [] (tail ps)).
  { unfold turned. now rewrite Hf, Hp. }
  unfold q_lek, q_read, q_bound. cbn [Limit q]. fold R.
  unfold cap_of. rewrite Hp. destruct ps as [|p0 ps].
  - exists []. unfold ret. rewrite Hturn.
    rewrite (int32_small (Z.of_nat (length R))) by (unfold maxInt32 in *; lia).
    rewrite int32_small by (unfold maxInt32 in *; lia). reflexivity.
  - destruct (Nat.leb_spec (S p0) (length R)) as [Hle|Hgt].
    + assert (Hlast : is_Some (last (take (S p0) R))).
      { apply last_is_Some. intros E. apply (f_equal length) in E.
        rewrite length_take in E. change (length (@nil string)) with 0%nat in E. lia. }
      destruct Hlast as [c Hlc]. rewrite Hlc.
      rewrite length_take. replace (S p0 `min` length R)%nat with (S p0) by lia.
      rewrite (int32_small (Z.of_nat (S p0))) by (unfold maxInt32 in *; lia).
      rewrite int32_small by (unfold maxInt32 in *; lia).
      destruct (IH ps (Some c) (count + Z.of_nat (S p0)) (turned w)) as (ps' & E).
      * exact Hf.
      * unfold turned. simpl. now rewrite Hp.
      * simpl in Hfuel. lia.
      * assumption.
      * lia.
      * cbn [tbl turned].
        rewrite (q_rest_next (tbl w) q (mkQuery key start stop (Some c) None true None)
                   (S p0) c) by (try reflexivity; exact Hlc).
        fold R. rewrite length_drop. lia.
      * exists ps'. rewrite E. cbn [tbl now turned].
        rewrite (q_rest_next (tbl w) q (mkQuery key start stop (Some c) None true None)
                   (S p0) c) by (try reflexivity; exact Hlc).
        fold R. rewrite length_drop.
        replace (count + Z.of_nat (S p0) + Z.of_nat (length R - S p0))
          with (count + Z.of_nat (length R)) by lia.
        reflexivity.
    + rewrite take_ge by lia.
      rewrite (int32_small (Z.of_nat (length R))) by (unfold maxInt32 in *; lia).
      rewrite int32_small by (unfold maxInt32 in *; lia).
      exists ps. unfold ret. now rewrite Hturn.
Qed.

(** X10: on a store that answers, [XLEN(key, start, stop)] is the number
    of items of the stream with IDs between [start] and [stop], both
    included, however the store cuts the pages (a stream shorter than
    2^31 items: the counter is an [int32]); with [count] at least this
    number, it is the number of items that [XRANGE] returns. *)
Theorem xlen_counts_range key start stop count w :
  faults w = [] -> String.ltb stop start = false ->
  let ids := sort_keys (tbl w) key start stop in
  Z.of_nat (length ids) <= count <= maxInt32 ->
  exists w1 w2,
    XLEN key start stop w = Done (Z.of_nat (length ids), None) w1 /\
    tbl w1 = tbl w /\
    XRANGE key start stop count w = Done (items_of (tbl w) key ids, None) w2 /\
    length (items_of (tbl w) key ids) = length ids.
Proof.
  intros Hf Hr ids Hc. unfold XLEN, bind. rewrite loop_fuel_eq.
  assert (HR : q_rest (tbl w) (mkQuery key start stop None None true None) = ids).
  { unfold q_rest, q_scan. simpl. apply filter_true. }
  destruct (XLEN_loop_spec key start stop (S (S (length (pages w) + size (tbl w))))
              (pages w) None 0 w) as (ps' & E);
    try assumption; try reflexivity; try lia.
  { rewrite HR. lia. }
  rewrite HR in E. cbn [Z.add] in E.
  destruct (xRange_spec key start stop count true w) as (ps'' & E');
    try assumption; [lia|].
  eexists _, _. split; [exact E|]. split; [reflexivity|]. split.
  - unfold XRANGE. rewrite E'. fold ids. now rewrite take_ge by lia.
  - unfold items_of. apply length_fmap.
Qed.

Lemma xlen_counts_range_witness :
  exists w', XLEN "s" XStart XEnd paged_world = Done (3, None) w'.
Proof.
  destruct (xlen_counts_range "s" XStart XEnd 5 paged_world) as (w1 & _ & E & _).
  - reflexivity.
  - reflexivity.
  - vm_compute. split; discriminate.
  - exists w1. exact E.
Defined.

End Ranges.

(** ** XADD: round trip, failure, automatic IDs *)

Section Appends.

Implicit Types (t : Table) (key : string) (id : XID).

(** [parseStreamItem] reads back the fields that [toAV] wrote. *)
Lemma parse_toAV id (fields : gmap string AttributeValue) :
  parseStreamItem (id, StreamItem_toAV (mkStreamItem id fields)) =
  mkStreamItem id fields.
Proof.
  unfold parseStreamItem, StreamItem_toAV. cbn [fst snd Fields]. f_equal.
  set (l := omap _ _).
  assert (Hin : forall k v, (k, v) ∈ l <-> fields !! k = Some v).
  { intros k v. unfold l. rewrite list_elem_of_omap. split.
    - intros ([k0 v0] & Hkv & E). apply elem_of_map_to_list in Hkv.
      cbn [fst snd] in E. destruct k0 as [|c k']; [discriminate|].
      destruct (Ascii.ascii_dec c "_") as [->|Hc].
      + inversion E; subst. now rewrite (lookup_kmap (String "_")) in Hkv.
      + apply lookup_kmap_Some in Hkv; [|apply _].
        destruct Hkv as (k1 & [= -> _] & _). congruence.
    - intros Hk. exists (String "_" k, v). split; [|reflexivity].
      apply elem_of_map_to_list. now rewrite (lookup_kmap (String "_")). }
  apply map_eq. intros k.
  destruct (list_to_map l !! k) as [v|] eqn:E.
  - apply elem_of_list_to_map_2 in E. apply Hin in E. now rewrite E.
  - apply not_elem_of_list_to_map in E.
    destruct (fields !! k) as [v|] eqn:F; [|reflexivity].
    exfalso. apply E. apply Hin in F.
    now apply (list_elem_of_fmap_2 fst) in F.
Qed.

Lemma set_tbl_twice t t' w : set_tbl t' (set_tbl t w) = set_tbl t' w.
Proof. reflexivity. Qed.

(** An explicit ID that the stream accepts is appended at once or after
    the lazy initialization. *)
Lemma XADD_accepts key id fields w :
  faults w = [] -> id <> XAutoID -> accepts (tbl w) key id ->
  XADD key id fields w =
  Done (id, None)
       (set_tbl (appended (with_watermark (tbl w) key) key id fields) w).
Proof.
  intros Hf Hid Ha. rewrite XADD_explicit by assumption.
  rewrite xadd_tx_quiet by assumption. unfold accepts, with_watermark in *.
  destruct (watermark (tbl w) key) as [[wm|n]|] eqn:Ew; [| contradiction |].
  - apply ltb_lt in Ha. now rewrite Ha.
  - cbn [conditionFailureError]. rewrite xInit_absent by assumption.
    rewrite xadd_tx_quiet by assumption. cbn [tbl set_tbl].
    rewrite watermark_initialised. apply ltb_lt in Ha. now rewrite Ha.
Qed.

(** X11: an item appended with an explicit ID that the stream accepts is
    read back by [XRANGE(key, id, id, 1)] with exactly the fields it
    was given, and the watermark of the stream is then that ID. *)
Theorem xadd_then_xrange key id fields w :
  faults w = [] -> id <> XAutoID -> accepts (tbl w) key id ->
  exists w1 w2,
    XADD key id fields w = Done (id, None) w1 /\
    watermark (tbl w1) key = Some (AVS id) /\
    XRANGE key id id 1 w1 = Done ([mkStreamItem id fields], None) w2 /\
    tbl w2 = tbl w1.
Proof.
  intros Hf Hid Ha. rewrite XADD_accepts by assumption.
  eexists _, _. split; [reflexivity|]. cbn [tbl set_tbl].
  split; [apply watermark_appended|].
  rewrite XRANGE_one by (try assumption; apply ltb_irrefl).
  cbn [tbl set_tbl]. rewrite first_item_point, item_appended, parse_toAV.
  split; reflexivity.
Qed.

Lemma xadd_then_xrange_witness :
  exists w1 w2,
    XADD "s" id_5_2 {[ "a" := AVS "1" ]} (quiet_world stream_one) =
      Done (id_5_2, None) w1 /\
    XRANGE "s" id_5_2 id_5_2 1 w1 =
      Done ([mkStreamItem id_5_2 {[ "a" := AVS "1" ]}], None) w2.
Proof.
  destruct (xadd_then_xrange "s" id_5_2 {[ "a" := AVS "1" ]} (quiet_world stream_one))
    as (w1 & w2 & E1 & _ & E2 & _).
  - reflexivity.
  - discriminate.
  - reflexivity.
  - exists w1, w2. split; assumption.
Defined.

Lemma xInit_cases key w r w' :
  xInit key w = Done r w' ->
  tbl w' = tbl w \/
  (watermark (tbl w) key = None /\ tbl w' = initialised (tbl w) key /\ r = None).
Proof.
  unfold xInit, bind. rewrite TransactWriteItems_unfold.
  assert (Hb := xinit_tx_body key (popped w)).
  change (tbl (popped w)) with (tbl w) in Hb.
  destruct (faults w) as [|[[]|] fs]; try rewrite Hb.
  2,3: cbn; intros [= _ <-]; now left.
  all: destruct (watermark (tbl w) key) eqn:Ew; cbn; intros [= <- <-];
    [now left | right; repeat split].
Qed.

Lemma initialised_item t key x : initialised t key !! (key, x) = t !! (key, x).
Proof.
  unfold initialised. apply lookup_insert_ne, seq_key_ne_item.
Qed.

(** X12: [XADD] with an explicit ID is all or nothing: when it returns an
    error, whatever the store did, it returns the empty ID and no item
    of the stream has been written; the only write there can have been
    is the initialization of an absent watermark record to [XStart]. *)
Theorem xadd_error_stores_nothing key id fields w r e w' :
  id <> XAutoID ->
  XADD key id fields w = Done (r, Some e) w' ->
  r = EmptyString /\
  (forall x, tbl w' !! (key, x) = tbl w !! (key, x)) /\
  (tbl w' = tbl w \/
   (watermark (tbl w) key = None /\ tbl w' = initialised (tbl w) key)).
Proof.
  intros Hid. rewrite XADD_explicit by assumption.
  assert (Hcases : forall w0 : World,
    tbl w0 = tbl w \/ (watermark (tbl w) key = None /\ tbl w0 = initialised (tbl w) key) ->
    (forall x, tbl w0 !! (key, x) = tbl w !! (key, x)) /\
    (tbl w0 = tbl w \/
     (watermark (tbl w) key = None /\ tbl w0 = initialised (tbl w) key))).
  { intros w0 H. split; [|exact H]. intros x.
    destruct H as [->|[_ ->]]; [reflexivity | apply initialised_item]. }
  destruct (xadd_tx_cases key id fields w)
    as [(e1 & w1 & E1 & T1)|(w1 & wm & E1 & _)]; rewrite E1; [|discriminate].
  destruct (conditionFailureError (Some e1)).
  2: { intros [= <- _ <-]. split; [reflexivity|]. apply Hcases. now left. }
  destruct (xInit key w1) as [[e2|] w2| |] eqn:E2; try discriminate.
  - intros [= <- _ <-]. split; [reflexivity|]. apply Hcases.
    apply xInit_cases in E2. rewrite T1 in E2.
    destruct E2 as [E2|(_ & _ & ?)]; [now left | discriminate].
  - apply xInit_cases in E2. rewrite T1 in E2.
    destruct (xadd_tx_cases key id fields w2)
      as [(e3 & w3 & E3 & T3)|(w3 & wm & E3 & _)]; rewrite E3; [|discriminate].
    intros [= <- _ <-]. split; [reflexivity|]. apply Hcases. rewrite T3.
    destruct E2 as [E2|(Ew & E2 & _)]; [now left | now right].
Qed.

Lemma xadd_error_stores_nothing_witness :
  exists e w',
    XADD "s" id_5_1 ∅ (quiet_world stream_max) = Done (EmptyString, Some e) w' /\
    tbl w' = stream_max.
Proof.
  assert (E : XADD "s" id_5_1 ∅ (quiet_world stream_max) =
              Done (EmptyString, Some ErrConditionalCheckFailed) (quiet_world stream_max))
    by (vm_compute; reflexivity).
  eexists _, _. split; [exact E|].
  destruct (xadd_error_stores_nothing "s" id_5_1 ∅ (quiet_world stream_max)
              EmptyString ErrConditionalCheckFailed (quiet_world stream_max))
    as (_ & _ & H).
  - discriminate.
  - exact E.
  - reflexivity.
Defined.

End Appends.

(** ** The counter and the automatic IDs *)

Section Counter.

Implicit Types (t : Table) (key : string) (k : string * string).

Lemma INCRBY_quiet key delta w n :
  faults w = [] -> number_at (tbl w) (key, emptySK) = Some n ->
  INCRBY key delta w =
  Done (int64 (n + delta), None)
       (set_tbl (with_number (tbl w) (key, emptySK) (n + delta)) w).
Proof.
  intros Hf Hn. unfold INCRBY, incr, IntValue, bind.
  rewrite UpdateItem_quiet by assumption.
  cbn [conditions clauses addClause newExpresionBuilder app forallb
       apply_clauses apply_clause].
  change (toAV (mkKey key emptySK)) with (key, emptySK).
  unfold number_at in Hn. unfold with_number.
  destruct (tbl w !! (key, emptySK)) as [attrs|] eqn:E; cbn [default id].
  - destruct (attrs !! vk) as [[s|m]|] eqn:Ev; [discriminate| |].
    + inversion Hn; subst. cbn [fst snd ret]. rewrite lookup_insert_eq. reflexivity.
    + inversion Hn; subst. cbn [fst snd ret]. rewrite lookup_insert_eq. reflexivity.
  - inversion Hn; subst. rewrite lookup_empty.
    cbn [fst snd ret]. rewrite lookup_insert_eq. reflexivity.
Qed.

Lemma number_at_with_number t k n : number_at (with_number t k n) k = Some n.
Proof.
  unfold number_at, with_number. rewrite lookup_insert_eq.
  now rewrite lookup_insert_eq.
Qed.

Lemma number_at_other t k k' n :
  k' <> k -> number_at (with_number t k n) k' = number_at t k'.
Proof.
  intros Hne. unfold number_at, with_number. now rewrite lookup_insert_ne.
Qed.

(** X13: [INCRBY] adds to the number at the key, an absent key counting
    as 0, and returns the sum; [DECRBY] with the same amount takes the
    number back.  On a key that holds a string, nothing is written and
    the store's error is returned. *)
Theorem decrby_undoes_incrby key delta w :
  faults w = [] -> - 2 ^ 63 < delta <= maxInt64 ->
  (forall n, number_at (tbl w) (key, emptySK) = Some n ->
     - 2 ^ 63 <= n + delta <= maxInt64 ->
     exists w1 w2,
       INCRBY key delta w = Done (n + delta, None) w1 /\
       number_at (tbl w1) (key, emptySK) = Some (n + delta) /\
       DECRBY key delta w1 = Done (int64 n, None) w2 /\
       number_at (tbl w2) (key, emptySK) = Some n) /\
  (number_at (tbl w) (key, emptySK) = None ->
     INCRBY key delta w = Done (0, Some ErrStore) w).
Proof.
  intros Hf Hd. split.
  - intros n Hn Hsum. rewrite (INCRBY_quiet key delta w n) by assumption.
    eexists _, _. split; [|split; [|split]].
    + f_equal. f_equal. unfold int64, maxInt64 in *.
      rewrite Z.mod_small by lia. lia.
    + cbn [tbl set_tbl]. apply number_at_with_number.
    + unfold DECRBY.
      rewrite (INCRBY_quiet key _ _ (n + delta)); [| assumption |].
      2: { cbn [tbl set_tbl]. apply number_at_with_number. }
      replace (int64 (- delta)) with (- delta).
      2: { unfold int64, maxInt64 in *. rewrite Z.mod_small by lia. lia. }
      replace (n + delta + - delta) with n by lia. reflexivity.
    + cbn [tbl set_tbl]. apply number_at_with_number.
  - intros Hn. unfold INCRBY, incr, IntValue, bind.
    rewrite UpdateItem_quiet by assumption.
    cbn [conditions clauses addClause newExpresionBuilder app forallb
         apply_clauses apply_clause].
    change (toAV (mkKey key emptySK)) with (key, emptySK).
    unfold number_at in Hn.
    destruct (tbl w !! (key, emptySK)) as [attrs|] eqn:E; [|discriminate].
    cbn [default id].
    destruct (attrs !! vk) as [[s|m]|] eqn:Ev; try discriminate. reflexivity.
Qed.

Lemma decrby_undoes_incrby_witness :
  exists w1 w2,
    INCRBY "n" 5 (quiet_world ∅) = Done (5, None) w1 /\
    DECRBY "n" 5 w1 = Done (0, None) w2.
Proof.
  destruct (decrby_undoes_incrby "n" 5 (quiet_world ∅)) as [H _].
  - reflexivity.
  - unfold maxInt64. lia.
  - destruct (H 0) as (w1 & w2 & E1 & _ & E2 & _).
    + reflexivity.
    + unfold maxInt64. lia.
    + exists w1, w2. split; assumption.
Defined.

Lemma NewXID_ne_auto ts s : NewXID ts s <> XAutoID.
Proof.
  unfold NewXID, strings.Join. cbn [String.concat].
  destruct (fmt.Sprintf_020d (time.Time_Unix ts)) as [|c [|c' r]]; try discriminate.
Qed.

(** With the automatic ID, [XADD] draws the next number of the counter
    and goes on as with the ID minted from it. *)
Lemma XADD_auto key fields w :
  XADD key XAutoID fields w =
  match INCR (fst (xcountKey key)) w with
  | Done (n, None) w1 => XADD key (NewXID (now w) (uint64 n)) fields w1
  | Done (_, Some e) w1 => Done (XAutoID, Some e) w1
  | Panic => Panic
  | OutOfFuel => OutOfFuel
  end.
Proof.
  unfold XADD at 1. cbn [XADD_loop]. change (String.eqb XAutoID XAutoID) with true.
  cbv iota. unfold bind at 1. unfold bind at 1. unfold Now at 1. unfold bind at 1.
  change (strings.Join ["_redimo"; "xcount"; key] "/") with (fst (xcountKey key)).
  destruct (INCR (fst (xcountKey key)) w) as [[n [e|]] w1| |]; try reflexivity.
  cbn [fst snd]. unfold XADD. cbn [XADD_loop].
  pose proof (NewXID_ne_auto (now w) (uint64 n)) as Hne.
  apply String.eqb_neq in Hne.
  unfold bind, ret. repeat (rewrite Hne; cbv beta iota). reflexivity.
Qed.

Lemma xcountKey_ne_seq key : xcountKey key <> toAV (xSequenceKey key).
Proof. intros E. apply (f_equal snd) in E. discriminate. Qed.

Lemma xcountKey_ne_item key s x : valid_pair s x -> xcountKey key <> (key, encode s x).
Proof.
  intros Hv E. apply (f_equal snd) in E. cbn [snd xcountKey] in E.
  apply (f_equal String.length) in E. rewrite (length_encode s x Hv) in E.
  discriminate.
Qed.

Lemma watermark_with_number t key n :
  watermark (with_number t (xcountKey key) n) key = watermark t key.
Proof.
  unfold watermark, with_number. rewrite lookup_insert_ne; [reflexivity|].
  apply xcountKey_ne_seq.
Qed.

Lemma number_at_appended t key id fields k :
  k <> toAV (xSequenceKey key) -> k <> (key, id) ->
  number_at (appended t key id fields) k = number_at t k.
Proof.
  intros H1 H2. unfold number_at, appended.
  now rewrite !lookup_insert_ne by congruence.
Qed.

Lemma number_at_with_watermark t key k :
  k <> toAV (xSequenceKey key) -> number_at (with_watermark t key) k = number_at t k.
Proof.
  intros H. unfold with_watermark. destruct (watermark t key); [reflexivity|].
  unfold number_at, initialised. now rewrite lookup_insert_ne by congruence.
Qed.

(** One append with the automatic ID, on a store that answers. *)
Lemma XADD_auto_quiet key fields w n :
  faults w = [] -> number_at (tbl w) (xcountKey key) = Some n ->
  0 <= n < maxInt64 -> 0 <= time.sec (now w) <= maxInt64 ->
  let id := encode (time.sec (now w)) (n + 1) in
  accepts (tbl w) key id ->
  exists w1,
    XADD key XAutoID fields w = Done (id, None) w1 /\
    faults w1 = [] /\ pages w1 = pages w /\
    number_at (tbl w1) (xcountKey key) = Some (n + 1) /\
    watermark (tbl w1) key = Some (AVS id) /\
    tbl w1 !! (key, id) = Some (StreamItem_toAV (mkStreamItem id fields)).
Proof.
  intros Hf Hn Hr Ht id Ha. rewrite XADD_auto. unfold INCR.
  rewrite (INCRBY_quiet _ 1 w n) by assumption.
  change ((xcountKey key).1, emptySK) with (xcountKey key).
  assert (Ei : int64 (n + 1) = n + 1).
  { unfold int64, maxInt64 in *. rewrite Z.mod_small by lia. lia. }
  assert (Eu : uint64 (n + 1) = n + 1).
  { unfold uint64, maxInt64 in *. rewrite Z.mod_small by lia. reflexivity. }
  rewrite Ei, Eu.
  change (NewXID (now w) (n + 1)) with id.
  assert (Hv : valid_pair (time.sec (now w)) (n + 1)).
  { split; [assumption|]. unfold maxInt64, maxUint64 in *. lia. }
  assert (Hid : id <> XAutoID) by apply NewXID_ne_auto.
  rewrite XADD_accepts; [| assumption | assumption |].
  2: { unfold accepts in *. cbn [tbl set_tbl]. now rewrite watermark_with_number. }
  eexists. split; [reflexivity|]. cbn [tbl set_tbl faults pages].
  split; [assumption|]. split; [reflexivity|]. split; [|split].
  - rewrite number_at_appended, number_at_with_watermark.
    + apply number_at_with_number.
    + apply xcountKey_ne_seq.
    + apply xcountKey_ne_seq.
    + now apply xcountKey_ne_item.
  - apply watermark_appended.
  - apply item_appended.
Qed.

(** X14: automatic IDs grow.  [XADD] with [XAutoID] returns the XID of
    the current second with the next number of the stream's counter;
    a second such append, made when the clock has not gone back,
    returns a strictly greater ID, and both items are in the stream. *)
Theorem xadd_auto_ids_increase key (f1 f2 : gmap string AttributeValue) w n (t2 : Z) :
  faults w = [] -> number_at (tbl w) (xcountKey key) = Some n ->
  0 <= n -> n + 2 <= maxInt64 ->
  0 <= time.sec (now w) <= t2 -> t2 <= maxInt64 ->
  let id1 := encode (time.sec (now w)) (n + 1) in
  let id2 := encode t2 (n + 2) in
  accepts (tbl w) key id1 ->
  exists w1 w2,
    XADD key XAutoID f1 w = Done (id1, None) w1 /\
    XADD key XAutoID f2 (mkWorld (tbl w1) (time.Unix t2 0) [] (pages w1)) =
      Done (id2, None) w2 /\
    str_lt id1 id2 /\
    tbl w2 !! (key, id1) = Some (StreamItem_toAV (mkStreamItem id1 f1)) /\
    tbl w2 !! (key, id2) = Some (StreamItem_toAV (mkStreamItem id2 f2)).
Proof.
  intros Hf Hn Hn0 Hn2 Ht Ht2 id1 id2 Ha.
  assert (Hv1 : valid_pair (time.sec (now w)) (n + 1)).
  { unfold valid_pair, maxInt64, maxUint64 in *. lia. }
  assert (Hv2 : valid_pair t2 (n + 2)).
  { unfold valid_pair, maxInt64, maxUint64 in *. lia. }
  assert (Hlt : str_lt id1 id2) by (apply encode_lt; try assumption; lia).
  destruct (XADD_auto_quiet key f1 w n) as (w1 & E1 & _ & _ & N1 & W1 & I1);
    try assumption; try lia.
  set (w1' := mkWorld (tbl w1) (time.Unix t2 0) [] (pages w1)).
  assert (Hquiet : faults w1' = []) by reflexivity.
  pose proof (XADD_auto key f2 w1') as E2. unfold INCR in E2.
  rewrite (INCRBY_quiet _ 1 w1' (n + 1)) in E2 by assumption.
  change ((xcountKey key).1, emptySK) with (xcountKey key) in E2.
  assert (Ei : int64 (n + 1 + 1) = n + 2).
  { unfold int64, maxInt64 in *. rewrite Z.mod_small by lia. lia. }
  assert (Eu : uint64 (n + 2) = n + 2).
  { unfold uint64, maxInt64 in *. rewrite Z.mod_small by lia. reflexivity. }
  rewrite Ei, Eu in E2.
  change (NewXID (now w1') (n + 2)) with id2 in E2.
  rewrite (XADD_accepts key id2) in E2; [| reflexivity | apply NewXID_ne_auto |].
  2: { unfold accepts. cbn [tbl set_tbl]. rewrite watermark_with_number.
       cbn [tbl w1']. now rewrite W1. }
  exists w1. eexists. split; [exact E1|]. split; [exact E2|].
  split; [exact Hlt|]. cbn [tbl set_tbl w1']. split.
  - unfold with_watermark. rewrite watermark_with_number, W1.
    unfold appended. rewrite lookup_insert_ne by apply seq_key_ne_item.
    rewrite lookup_insert_ne.
    2: { intros E. apply (f_equal snd) in E. cbn [snd] in E.
         apply str_lt_ne in Hlt. congruence. }
    unfold with_number. rewrite lookup_insert_ne.
    2: { now apply xcountKey_ne_item. }
    exact I1.
  - apply item_appended.
Qed.

Lemma xadd_auto_ids_increase_witness :
  exists w1 w2,
    XADD "s" XAutoID ∅ (quiet_world ∅) = Done (encode 100 1, None) w1 /\
    XADD "s" XAutoID ∅ (mkWorld (tbl w1) (time.Unix 100 0) [] (pages w1)) =
      Done (encode 100 2, None) w2 /\
    str_lt (encode 100 1) (encode 100 2).
Proof.
  destruct (xadd_auto_ids_increase "s" ∅ ∅ (quiet_world ∅) 0 100)
    as (w1 & w2 & E1 & E2 & Hlt & _).
  - reflexivity.
  - reflexivity.
  - lia.
  - unfold maxInt64. lia.
  - simpl. lia.
  - unfold maxInt64. lia.
  - reflexivity.
  - exists w1, w2. split; [exact E1|]. split; [exact E2 | exact Hlt].
Defined.

End Counter.

(** ** XDEL, and XCLAIM of what is not pending *)

Section Removal.

Implicit Types (t : Table) (key : string) (id : XID).

(** An explicit ID that is not above the watermark is refused, whatever
    the store does. *)
Lemma XADD_not_above key id fields w wm :
  id <> XAutoID -> watermark (tbl w) key = Some (AVS wm) -> ~ str_lt wm id ->
  exists e w', XADD key id fields w = Done (EmptyString, Some e) w' /\ tbl w' = tbl w.
Proof.
  intros Hid Hwm Hnlt. rewrite XADD_explicit by assumption.
  destruct (xadd_tx_cases key id fields w)
    as [(e & w1 & E1 & T1)|(w1 & wm' & _ & _ & Hw' & Hlt)].
  2: { rewrite Hwm in Hw'. inversion Hw'; subst. contradiction. }
  rewrite E1. destruct (conditionFailureError (Some e)); [|eauto].
  destruct (xInit_present key w1 (AVS wm)) as (r & w2 & E2 & T2).
  { now rewrite T1. }
  rewrite E2. destruct r as [e'|].
  { eexists _, _. split; [reflexivity | congruence]. }
  destruct (xadd_tx_cases key id fields w2)
    as [(e3 & w3 & E3 & T3)|(w3 & wm' & _ & _ & Hw' & Hlt)].
  2: { rewrite T2, T1, Hwm in Hw'. inversion Hw'; subst. contradiction. }
  rewrite E3. eexists _, _. split; [reflexivity | congruence].
Qed.

(** X15: on a store that answers, [XDEL] removes the listed items and
    reports those that were there; nothing else changes, the watermark
    included: an ID that was deleted, not being above the watermark,
    cannot be appended again. *)
Theorem xdel_keeps_watermark key ids w :
  faults w = [] ->
  exists deleted w',
    XDEL key ids w = Done (deleted, None) w' /\
    (forall id, id ∈ deleted <-> id ∈ ids /\ is_Some (tbl w !! (key, id))) /\
    (forall k, tbl w' !! k =
               if bool_decide (k ∈ (fun id => (key, id)) <$> ids) then None
               else tbl w !! k) /\
    watermark (tbl w') key = watermark (tbl w) key /\
    (forall id fields wm,
       id <> XAutoID -> watermark (tbl w) key = Some (AVS wm) -> ~ str_lt wm id ->
       exists e w'', XADD key id fields w' = Done (EmptyString, Some e) w'').
Proof.
  intros Hf. unfold XDEL. rewrite XDEL_loop_quiet by assumption.
  eexists _, _. split; [reflexivity|]. cbn [tbl set_tbl].
  assert (Hlook : forall k, snd (del_run key ids [] (tbl w)) !! k =
               if bool_decide (k ∈ (fun id => (key, id)) <$> ids) then None
               else tbl w !! k) by (intros k; apply del_run_lookup).
  assert (Hw : watermark (snd (del_run key ids [] (tbl w))) key = watermark (tbl w) key).
  { unfold watermark. rewrite Hlook. rewrite bool_decide_eq_false_2; [reflexivity|].
    intros H. apply list_elem_of_fmap in H. destruct H as (x & E & _).
    revert E. apply seq_key_ne_item. }
  split; [|split; [exact Hlook | split; [exact Hw|]]].
  - intros id. rewrite del_run_elem. split.
    + intros [H|H]; [inversion H | exact H].
    + auto.
  - intros id fields wm Hid Hwm Hnlt.
    destruct (XADD_not_above key id fields
                (set_tbl (snd (del_run key ids [] (tbl w))) w) wm)
      as (e & w'' & E & _); try assumption.
    + cbn [tbl set_tbl]. now rewrite Hw.
    + eauto.
Qed.

Lemma xdel_keeps_watermark_witness :
  exists deleted w' e w'',
    XDEL "s" [id_5_1] (quiet_world stream_one) = Done (deleted, None) w' /\
    tbl w' !! ("s", id_5_1) = None /\
    XADD "s" id_5_1 ∅ w' = Done (EmptyString, Some e) w''.
Proof.
  destruct (xdel_keeps_watermark "s" [id_5_1] (quiet_world stream_one) eq_refl)
    as (deleted & w' & E & _ & Hl & _ & Hadd).
  destruct (Hadd id_5_1 ∅ id_5_1) as (e & w'' & E2).
  - discriminate.
  - reflexivity.
  - vm_compute. discriminate.
  - exists deleted, w', e, w''. split; [exact E|]. split; [|exact E2].
    rewrite Hl. reflexivity.
Defined.

Lemma XCLAIM_loop_absent key group consumer before ids : forall items w,
  faults w = [] ->
  (forall id, id ∈ ids -> tbl w !! (xGroupKey key group, id) = None) ->
  XCLAIM_loop key group consumer before ids items w = Done (items, None) w.
Proof.
  induction ids as [|id rest IH]; intros items w Hf Hnone; [reflexivity|].
  rewrite XCLAIM_loop_cons. rewrite UpdateItem_quiet by assumption.
  rewrite (Hnone id) by apply list_elem_of_here.
  cbn [claim_builder conditions updateSET addClause addConditionLessThanOrEqualTo
       addConditionExists addCondition newExpresionBuilder app forallb holds
       attr_of]. rewrite bool_decide_eq_false_2 by (intros [? ?]; discriminate).
  cbn [andb snd conditionFailureError].
  apply IH; [assumption|]. intros x Hx. apply Hnone. now apply list_elem_of_further.
Qed.

(** X16: [XCLAIM] never creates a pending entry: an ID that has none is
    passed over without error and without any write, even when the
    stream holds an item with that ID. *)
Theorem xclaim_skips_absent_entries key group consumer before ids w :
  faults w = [] ->
  (forall id, id ∈ ids -> tbl w !! (xGroupKey key group, id) = None) ->
  XCLAIM key group consumer before ids w = Done ([], None) w.
Proof. intros Hf Hnone. unfold XCLAIM. now apply XCLAIM_loop_absent. Qed.

Lemma xclaim_skips_absent_entries_witness :
  XCLAIM "s" "g" "b" (time.Unix 60 0) [id_5_1; id_5_2] (quiet_world stream_two) =
  Done ([], None) (quiet_world stream_two).
Proof.
  apply xclaim_skips_absent_entries; [reflexivity|].
  intros id Hid. apply elem_of_cons in Hid. destruct Hid as [->|Hid].
  - reflexivity.
  - apply list_elem_of_singleton in Hid. subst. reflexivity.
Defined.

End Removal.

(** ** Reads of a group, one after the other *)

Section Deliveries.

Variables (key group consumer : string).

Let gk := xGroupKey key group.
Let ck := toAV (xGroupCursorKey key group).

Implicit Types (t : Table) (x y : XID) (opt : XReadOption).

Lemma XRANGE_bound start stop count w r w' :
  0 <= count <= maxInt32 ->
  XRANGE key start stop count w = Done r w' ->
  (length (fst r) <= Z.to_nat count)%nat.
Proof.
  intros Hc E. unfold XRANGE, xRange, bind in E. rewrite loop_fuel_eq in E.
  rewrite xRange_loop_paged in E. apply paged_loop_bound in E; [|exact Hc].
  simpl in E. lia.
Qed.

Lemma readNew_attempt_one opt w r w' :
  readNew_attempt key group consumer opt w = Done (inl r) w' ->
  (length (fst r) <= 1)%nat.
Proof.
  rewrite readNew_attempt_unfold.
  destruct (xGroupCursorGet key group w) as [[cur [e|]] w1| |]; try discriminate.
  { intros [= <- _]. simpl. lia. }
  destruct (Next cur) as [start|]; [|discriminate].
  destruct (XRANGE key start XEnd 1 w1) as [[items err] w2| |] eqn:EX;
    try discriminate.
  apply XRANGE_bound in EX; [|unfold maxInt32; lia]. cbn [fst] in EX.
  destruct items as [|item more]; [intros [= <- _]; simpl; lia|].
  destruct err as [e|]; [intros [= <- _]; exact EX|].
  destruct (TransactWriteItems _ w2) as [[e|] w3| |]; try discriminate.
  - destruct (negb _); [|discriminate]. intros [= <- _]. exact EX.
  - intros [= <- _]. exact EX.
Qed.

Lemma readNew_loop_one opt budget : forall w r w',
  readNew_loop budget key group consumer opt w = Done r w' ->
  (length (fst r) <= 1)%nat.
Proof.
  induction budget as [|budget IH]; intros w r w'.
  - intros [= <- _]. simpl. lia.
  - cbn [readNew_loop]. unfold bind.
    destruct (readNew_attempt key group consumer opt w) as [[r0|[]] w1| |] eqn:EA;
      try discriminate.
    + intros [= <- _]. now apply readNew_attempt_one in EA.
    + apply IH.
Qed.

(** X17: a read of new items delivers at most one item per call,
    whatever [maxCount] asks for and whatever the store does; the
    argument is not looked at in these two modes. *)
Theorem xreadgroup_new_at_most_one opt maxCount w items err w' :
  opt <> XReadPending ->
  XREADGROUP key group consumer opt maxCount w = Done (items, err) w' ->
  (length items <= 1)%nat /\
  XREADGROUP key group consumer opt 1 w = Done (items, err) w'.
Proof.
  intros Ho E.
  assert (E' : readNew_loop 5 key group consumer opt w = Done (items, err) w')
    by (destruct opt; [congruence | exact E | exact E]).
  split.
  - apply readNew_loop_one in E'. exact E'.
  - destruct opt; [congruence | exact E' | exact E'].
Qed.

Lemma after_read_cursor opt tm x t :
  (x ≤ XEnd)%string ->
  cursor_of key group (after_read key group consumer opt tm x t) = Some (AVS x).
Proof.
  intros Hx. unfold cursor_of, after_read. fold ck. fold gk.
  assert (Hne : (gk, x) <> ck) by now apply cursor_sk_outside.
  destruct opt; rewrite ?lookup_insert_ne by exact Hne;
    rewrite lookup_insert_eq; apply lookup_insert_eq.
Qed.

Lemma after_read_stream opt tm x t y :
  after_read key group consumer opt tm x t !! (key, y) = t !! (key, y).
Proof.
  unfold after_read. fold ck. fold gk.
  assert (H1 : ck <> (key, y)).
  { intros E. apply (f_equal fst) in E. revert E. apply xGroupKey_ne. }
  assert (H2 : (gk, x) <> (key, y)).
  { intros E. apply (f_equal fst) in E. revert E. apply xGroupKey_ne. }
  destruct opt; rewrite ?lookup_insert_ne by exact H2;
    now rewrite lookup_insert_ne by exact H1.
Qed.

Lemma after_read_entry opt tm x t y :
  y <> x -> (y ≤ XEnd)%string ->
  after_read key group consumer opt tm x t !! (gk, y) = t !! (gk, y).
Proof.
  intros Hne Hy. unfold after_read. fold ck. fold gk.
  assert (H1 : ck <> (gk, y)) by (apply not_eq_sym; now apply cursor_sk_outside).
  assert (H2 : (gk, x) <> (gk, y)) by congruence.
  destruct opt; rewrite ?lookup_insert_ne by exact H2;
    now rewrite lookup_insert_ne by exact H1.
Qed.

Lemma after_read_ids opt tm x t :
  stream_ids (after_read key group consumer opt tm x t) key = stream_ids t key.
Proof.
  apply sort_keys_same_dom. intros y. now rewrite after_read_stream.
Qed.

Section FromCursor.

Variables (t s : Z) (w : World) (x : XID) (rest : list XID).
Hypothesis Hvalid : valid_pair t s.
Hypothesis Hbelow : s < maxUint64.
Hypothesis Hquiet : faults w = [].
Hypothesis Hcursor : cursor_of key group (tbl w) = Some (AVS (encode t s)).
Hypothesis Hregular : regular_stream (tbl w) key.
Hypothesis Hafter : after_id (encode t s) (stream_ids (tbl w) key) = x :: rest.
Hypothesis Hfresh : forall y, y ∈ x :: rest -> tbl w !! (gk, y) = None.

Lemma next_in_stream : x ∈ stream_ids (tbl w) key.
Proof.
  assert (H : x ∈ after_id (encode t s) (stream_ids (tbl w) key))
    by (rewrite Hafter; apply list_elem_of_here).
  apply elem_of_filter_stdlib in H. tauto.
Qed.

Lemma next_le_XEnd : (x ≤ XEnd)%string.
Proof.
  pose proof next_in_stream as H. apply elem_of_sort_keys in H. tauto.
Qed.

Lemma rest_after_next : after_id x (stream_ids (tbl w) key) = rest.
Proof.
  rewrite (after_last_of_page (stream_ids (tbl w) key) (encode t s) 1 x).
  - now rewrite Hafter.
  - apply sorted_sort_keys.
  - apply NoDup_sort_keys.
  - now rewrite Hafter.
Qed.

Lemma next_not_in_rest : x ∉ rest.
Proof.
  rewrite <- rest_after_next. intros H. apply elem_of_filter_stdlib in H.
  destruct H as [H _]. now rewrite ltb_irrefl in H.
Qed.

(** The first of two reads. *)
Lemma first_read opt maxCount :
  opt <> XReadPending ->
  XREADGROUP key group consumer opt maxCount w =
  Done (items_of (tbl w) key [x], None)
       (set_tbl (after_read key group consumer opt (now w) x (tbl w)) (turned w)).
Proof.
  intros Ho.
  apply (XREADGROUP_new_delivers key group consumer t s w Hvalid Hbelow Hquiet
           Hcursor opt maxCount x rest Ho).
  - now rewrite sort_keys_after.
  - apply Hfresh, list_elem_of_here.
Qed.

(** X18: two reads of new items in a row, on a store that answers and
    a stream of canonical IDs none of which is pending yet: the first
    delivers the oldest item after the cursor and moves the cursor to
    its ID, the second delivers the item after that one, or nothing
    when there is none; no item is delivered twice. *)
Theorem xreadgroup_successive_reads opt maxCount :
  opt <> XReadPending ->
  exists w1 w2,
    XREADGROUP key group consumer opt maxCount w =
      Done (items_of (tbl w) key [x], None) w1 /\
    cursor_of key group (tbl w1) = Some (AVS x) /\
    XREADGROUP key group consumer opt maxCount w1 =
      Done (items_of (tbl w) key (take 1 rest), None) w2 /\
    (x ∉ rest) /\
    (forall y, y ∈ rest -> str_lt x y).
Proof.
  intros Ho. rewrite first_read by assumption.
  set (w1 := set_tbl _ (turned w)).
  pose proof next_in_stream as Hin. pose proof next_le_XEnd as Hle.
  destruct (Hregular x Hin) as (t' & s' & Hv' & Hb' & Ex).
  assert (Hc1 : cursor_of key group (tbl w1) = Some (AVS (encode t' s'))).
  { unfold w1. cbn [tbl set_tbl]. rewrite after_read_cursor by assumption.
    now rewrite Ex. }
  assert (Hids : stream_ids (tbl w1) key = stream_ids (tbl w) key)
    by apply after_read_ids.
  assert (Hreg1 : regular_stream (tbl w1) key).
  { intros y Hy. rewrite Hids in Hy. now apply Hregular. }
  assert (Hrest : after_id (encode t' s') (stream_ids (tbl w1) key) = rest).
  { rewrite Hids, <- Ex. apply rest_after_next. }
  assert (Hgt : forall y, y ∈ rest -> str_lt x y).
  { intros y Hy. rewrite <- rest_after_next in Hy.
    apply elem_of_filter_stdlib in Hy. destruct Hy as [Hy _]. now apply ltb_lt. }
  assert (Hsecond : exists w2,
    XREADGROUP key group consumer opt maxCount w1 =
      Done (items_of (tbl w) key (take 1 rest), None) w2).
  { destruct rest as [|y more] eqn:Er.
    - eexists.
      rewrite (XREADGROUP_new_empty key group consumer t' s' w1 Hv' Hb' Hquiet Hc1
                 opt maxCount Ho); [reflexivity|].
      intros z Hz Hzle Hlt.
      assert (Hzin : z ∈ after_id (encode t' s') (stream_ids (tbl w1) key)).
      { apply elem_of_filter_stdlib. split; [now apply ltb_lt|].
        apply elem_of_sort_keys. repeat split; try assumption.
        apply elem_of_sort_keys in Hin. destruct Hin as (_ & Hlo & _).
        transitivity x; [exact Hlo|]. rewrite Ex. now apply str_lt_le. }
      rewrite Hrest in Hzin. inversion Hzin.
    - eexists.
      rewrite (XREADGROUP_new_delivers key group consumer t' s' w1 Hv' Hb' Hquiet Hc1
                 opt maxCount y more Ho).
      + unfold items_of, w1. cbn [take fmap list_fmap tbl set_tbl].
        rewrite after_read_stream. reflexivity.
      + now rewrite sort_keys_after.
      + unfold w1. cbn [tbl set_tbl]. fold gk.
        assert (Hy : y ∈ stream_ids (tbl w) key).
        { rewrite <- Hids.
          assert (H : y ∈ after_id (encode t' s') (stream_ids (tbl w1) key))
            by (rewrite Hrest; apply list_elem_of_here).
          apply elem_of_filter_stdlib in H. tauto. }
        rewrite after_read_entry.
        * apply Hfresh. apply list_elem_of_further, list_elem_of_here.
        * apply not_eq_sym, str_lt_ne, Hgt, list_elem_of_here.
        * apply elem_of_sort_keys in Hy. tauto. }
  destruct Hsecond as (w2 & E2).
  exists w1, w2. split; [reflexivity|].
  split; [now rewrite Hc1, Ex|].
  split; [exact E2|]. split; [apply next_not_in_rest | exact Hgt].
Qed.

Lemma parse_delivered c tm :
  parsePendingItem (x, delivered c tm) =
  mkPendingItem x c (time.Unix (int64 (time.Time_Unix tm)) 0) 1.
Proof. reflexivity. Qed.

Lemma pending_after_read :
  pending_ids (tbl w) key group = [] ->
  pending_ids (after_read key group consumer XReadNew (now w) x (tbl w)) key group
  = [x].
Proof.
  intros Hp. pose proof next_in_stream as Hin.
  apply elem_of_sort_keys in Hin. destruct Hin as (_ & Hlo & Hhi).
  apply sort_keys_characterised.
  - repeat constructor.
  - apply NoDup_singleton.
  - intros y. rewrite list_elem_of_singleton. fold gk. split.
    + intros ->. split; [|split; assumption].
      unfold after_read. rewrite lookup_insert_eq. eauto.
    + intros (Hs & Hylo & Hyhi).
      destruct (decide (y = x)) as [|Hne]; [assumption|]. exfalso.
      rewrite after_read_entry in Hs by assumption.
      assert (H : y ∈ pending_ids (tbl w) key group)
        by (apply elem_of_sort_keys; auto).
      rewrite Hp in H. inversion H.
Qed.

(** X19: what a read in mode [READ_NEW] delivers is pending until it
    is acknowledged.  On a group with no pending entry, [XPENDING]
    after the read lists the delivered ID with its consumer, the
    second of the delivery and count 1; [XACK] of that ID reports it
    and [XPENDING] is empty again.  A read in mode
    [READ_NEW_NO_ACK] leaves nothing pending. *)
Theorem delivery_pending_until_acked maxCount count :
  pending_ids (tbl w) key group = [] ->
  - 2 ^ 63 <= time.sec (now w) <= maxInt64 -> 1 <= count <= maxInt32 ->
  (exists w1 w2 w3 w4,
     XREADGROUP key group consumer XReadNew maxCount w =
       Done (items_of (tbl w) key [x], None) w1 /\
     XPENDING key group count w1 =
       Done ([mkPendingItem x consumer (time.Unix (time.sec (now w)) 0) 1], None)
            w2 /\
     XACK key group [x] w2 = Done ([x], None) w3 /\
     XPENDING key group count w3 = Done ([], None) w4) /\
  (exists w1,
     XREADGROUP key group consumer XReadNewAutoACK maxCount w =
       Done (items_of (tbl w) key [x], None) w1 /\
     pending_ids (tbl w1) key group = []).
Proof.
  intros Hp Hnow Hc. split.
  - rewrite first_read by discriminate.
    set (t1 := after_read key group consumer XReadNew (now w) x (tbl w)).
    destruct (XPENDING_spec key group count (set_tbl t1 (turned w)))
      as (ps2 & E2); [assumption | lia |].
    cbn [tbl set_tbl now turned] in E2.
    assert (Hids : pending_ids t1 key group = [x]) by now apply pending_after_read.
    rewrite Hids in E2.
    replace (take (Z.to_nat count) [x]) with [x] in E2
      by (symmetry; apply take_ge; simpl; lia).
    assert (Hentry : t1 !! (gk, x) = Some (delivered consumer (now w)))
      by apply lookup_insert_eq.
    unfold parsed_of in E2. cbn [fmap list_fmap] in E2. fold gk in E2.
    rewrite Hentry in E2. cbn [default id] in E2.
    rewrite parse_delivered in E2.
    replace (int64 (time.Time_Unix (now w))) with (time.sec (now w)) in E2.
    2: { unfold int64, time.Time_Unix, maxInt64 in *.
         rewrite Z.mod_small by lia. lia. }
    set (w2 := mkWorld t1 (now w) [] ps2) in *.
    assert (E3 : XACK key group [x] w2 =
                 Done ([x], None) (set_tbl (delete (gk, x) t1) w2)).
    { unfold XACK. rewrite XACK_loop_XDEL_loop. fold gk.
      rewrite XDEL_loop_quiet by reflexivity.
      cbn [del_run tbl w2 fst snd]. now rewrite Hentry. }
    destruct (XPENDING_spec key group count (set_tbl (delete (gk, x) t1) w2))
      as (ps4 & E4); [reflexivity | lia |].
    cbn [tbl set_tbl] in E4.
    assert (Hgone : pending_ids (delete (gk, x) t1) key group = []).
    { unfold pending_ids in Hids |- *. rewrite sort_keys_delete, Hids.
      cbn [List.filter]. now rewrite String.eqb_refl. }
    rewrite Hgone, take_nil in E4.
    eexists _, _, _, _. split; [reflexivity|]. split; [exact E2|].
    split; [exact E3 | exact E4].
  - rewrite first_read by discriminate. eexists. split; [reflexivity|].
    cbn [tbl set_tbl]. pose proof next_le_XEnd as Hle.
    rewrite <- Hp. apply sort_keys_same_dom. intros y. fold gk.
    unfold after_read. fold ck.
    destruct (decide ((gk, y) = ck)) as [E|Hne].
    + rewrite E, lookup_insert_eq. split; [|eauto]. intros _.
      unfold cursor_of in Hcursor. fold ck in Hcursor.
      destruct (tbl w !! ck); [eauto | discriminate].
    + now rewrite lookup_insert_ne by congruence.
Qed.

End FromCursor.

End Deliveries.

Section DeliveriesAt.

Lemma xreadgroup_new_at_most_one_witness :
  XREADGROUP "s" "g" "c" XReadNewAutoACK 10 (quiet_world group_ready) =
    Done ([mkStreamItem id_5_1 ∅], None) (quiet_world group_read) /\
  (length [mkStreamItem id_5_1 ∅] <= 1)%nat.
Proof.
  assert (E : XREADGROUP "s" "g" "c" XReadNewAutoACK 10 (quiet_world group_ready) =
    Done ([mkStreamItem id_5_1 ∅], None) (quiet_world group_read))
    by (vm_compute; reflexivity).
  split; [exact E|].
  apply (xreadgroup_new_at_most_one "s" "g" "c" XReadNewAutoACK 10 _ _ _ _ ltac:(discriminate) E).
Defined.

Lemma group_two_regular : regular_stream group_two "s".
Proof.
  intros x Hx. change (stream_ids group_two "s") with [id_5_1; id_5_2] in Hx.
  apply elem_of_cons in Hx. destruct Hx as [->|Hx].
  - exists 5, 1. repeat split; try reflexivity; unfold maxInt64, maxUint64; lia.
  - apply list_elem_of_singleton in Hx. subst.
    exists 5, 2. repeat split; try reflexivity; unfold maxInt64, maxUint64; lia.
Qed.

Lemma group_two_fresh y :
  y ∈ [id_5_1; id_5_2] -> group_two !! (xGroupKey "s" "g", y) = None.
Proof.
  intros Hy. apply elem_of_cons in Hy. destruct Hy as [->|Hy]; [reflexivity|].
  apply list_elem_of_singleton in Hy. subst. reflexivity.
Qed.

Lemma xreadgroup_successive_reads_witness :
  exists w1 w2,
    XREADGROUP "s" "g" "c" XReadNew 1 (quiet_world group_two) =
      Done ([mkStreamItem id_5_1 ∅], None) w1 /\
    XREADGROUP "s" "g" "c" XReadNew 1 w1 =
      Done ([mkStreamItem id_5_2 ∅], None) w2.
Proof.
  assert (Hv : valid_pair 0 0) by (unfold valid_pair, maxInt64, maxUint64; lia).
  assert (Hb : 0 < maxUint64) by (unfold maxUint64; lia).
  destruct (xreadgroup_successive_reads "s" "g" "c" 0 0 (quiet_world group_two)
              id_5_1 [id_5_2] Hv Hb eq_refl eq_refl group_two_regular eq_refl
              group_two_fresh XReadNew 1)
    as (w1 & w2 & E1 & _ & E2 & _); [discriminate|].
  exists w1, w2. split; [exact E1 | exact E2].
Defined.

Lemma delivery_pending_until_acked_witness :
  exists w1 w2 w3,
    XREADGROUP "s" "g" "c" XReadNew 1 (quiet_world group_two) =
      Done ([mkStreamItem id_5_1 ∅], None) w1 /\
    XPENDING "s" "g" 10 w1 =
      Done ([mkPendingItem id_5_1 "c" (time.Unix 100 0) 1], None) w2 /\
    XACK "s" "g" [id_5_1] w2 = Done ([id_5_1], None) w3.
Proof.
  assert (Hv : valid_pair 0 0) by (unfold valid_pair, maxInt64, maxUint64; lia).
  assert (Hb : 0 < maxUint64) by (unfold maxUint64; lia).
  destruct (delivery_pending_until_acked "s" "g" "c" 0 0 (quiet_world group_two)
              id_5_1 [id_5_2] Hv Hb eq_refl eq_refl group_two_regular eq_refl
              group_two_fresh 1 10)
    as [(w1 & w2 & w3 & w4 & E1 & E2 & E3 & _) _].
  - reflexivity.
  - simpl. unfold maxInt64. lia.
  - unfold maxInt32. lia.
  - exists w1, w2, w3. split; [exact E1|]. split; [exact E2 | exact E3].
Defined.

End DeliveriesAt.

(** ** Redelivery of pending entries *)

Section Redelivery.

Variables (key group consumer : string).

Let gk := xGroupKey key group.

Implicit Types (t : Table) (id : XID) (ids : list XID).

(** One entry of a page: its delivery is recorded and its item
    fetched. *)
Lemma readPending_page_cons id attrs rest items count w fields :
  faults w = [] -> tbl w !! (gk, id) = Some attrs ->
  attrs !! consumerKey = Some (AVS consumer) ->
  (forall s, attrs !! deliveryCountKey <> Some (AVS s)) ->
  tbl w !! (key, id) = Some fields ->
  readPending_page key group ((id, attrs) :: rest) items count w =
  readPending_page key group rest (items ++ [parseStreamItem (id, fields)])
    (int32 (count - 1))
    (turned (set_tbl (<[(gk, id) := redelivered attrs (now w)]> (tbl w)) w)).
Proof.
  intros Hf He Hc Hd Hi.
  cbn [readPending_page]. unfold bind at 1. unfold updateDeliveryAction, bind at 1.
  unfold Now, ret. cbn [fst snd]. unfold bind at 1.
  rewrite UpdateItem_quiet by assumption.
  change (toAV (mkKey (xGroupKey key group) (pi_ID (parsePendingItem (id, attrs)))))
    with (gk, id).
  change (Consumer (parsePendingItem (id, attrs)))
    with (ReturnValue_String (attrs !! consumerKey)).
  change (pi_ID (parsePendingItem (id, attrs))) with id.
  rewrite He, Hc.
  cbn [ReturnValue_String conditions clauses addClause updateSET addConditionEquality
       addCondition newExpresionBuilder app forallb holds attr_of StringValue].
  rewrite Hc, bool_decide_eq_true_2 by reflexivity.
  cbn [andb from_option Datatypes.id apply_clauses apply_clause IntValue].
  rewrite lookup_insert_ne by discriminate.
  unfold redelivered, IntValue.
  destruct (attrs !! deliveryCountKey) as [[s|n]|] eqn:E; [now destruct (Hd s)| |].
  all: cbn [snd fst]; unfold bind at 1.
  all: rewrite XRANGE_one by (try assumption; apply ltb_irrefl).
  all: cbn [fst snd tbl set_tbl]; rewrite first_item_point.
  all: rewrite (stream_item_kept key group), Hi; reflexivity.
Qed.

Lemma redeliver_cons tm id ids t :
  redeliver gk tm (id :: ids) t =
  redeliver gk tm ids (<[(gk, id) := redelivered (default ∅ (t !! (gk, id))) tm]> t).
Proof. reflexivity. Qed.

Lemma redeliver_app tm ids1 ids2 t :
  redeliver gk tm (ids1 ++ ids2) t = redeliver gk tm ids2 (redeliver gk tm ids1 t).
Proof. unfold redeliver. apply foldl_app. Qed.

Lemma redeliver_lookup_other tm ids : forall t k,
  k ∉ (fun id => (gk, id)) <$> ids -> redeliver gk tm ids t !! k = t !! k.
Proof.
  induction ids as [|id rest IH]; intros t k Hk; [reflexivity|].
  rewrite redeliver_cons.
  rewrite fmap_cons in Hk. apply not_elem_of_cons in Hk. destruct Hk as [Hne Hk].
  rewrite IH by assumption. now apply lookup_insert_ne.
Qed.

Lemma redeliver_stream tm ids t y : redeliver gk tm ids t !! (key, y) = t !! (key, y).
Proof.
  apply redeliver_lookup_other. intros H. apply list_elem_of_fmap in H.
  destruct H as (x & E & _). apply (f_equal fst) in E. symmetry in E. revert E.
  apply xGroupKey_ne.
Qed.

Lemma redeliver_dom tm ids : forall t k,
  is_Some (redeliver gk tm ids t !! k) <->
  is_Some (t !! k) \/ k ∈ (fun id => (gk, id)) <$> ids.
Proof.
  induction ids as [|id rest IH]; intros t k.
  - cbn. split; [auto|]. intros [H|H]; [assumption | inversion H].
  - rewrite redeliver_cons. rewrite IH.
    rewrite fmap_cons, elem_of_cons.
    destruct (decide (k = (gk, id))) as [->|Hne].
    + rewrite lookup_insert_eq. split; [auto|]. intros _. left. eauto.
    + rewrite lookup_insert_ne by congruence. tauto.
Qed.

Lemma owned_redeliver tm ids : forall t x,
  (forall id, id ∈ ids -> is_Some (t !! (gk, id))) ->
  owned (redeliver gk tm ids t) gk consumer x = owned t gk consumer x.
Proof.
  induction ids as [|id rest IH]; intros t x Hall; [reflexivity|].
  rewrite redeliver_cons.
  destruct (Hall id) as [e He]; [apply list_elem_of_here|].
  rewrite IH.
  - unfold owned. rewrite He. cbn [default from_option Datatypes.id].
    destruct (decide (x = id)) as [->|Hne].
    + rewrite lookup_insert_eq, He. unfold redelivered.
      now rewrite !lookup_insert_ne by discriminate.
    + now rewrite lookup_insert_ne by congruence.
  - intros y Hy. destruct (decide (y = id)) as [->|Hne].
    + rewrite lookup_insert_eq. eauto.
    + rewrite lookup_insert_ne by congruence. apply Hall.
      now apply list_elem_of_further.
Qed.

Lemma quiet_world_eta w : faults w = [] -> mkWorld (tbl w) (now w) [] (pages w) = w.
Proof. intros Hf. destruct w; simpl in *; now subst. Qed.

(** A page of entries of the consumer: each is recorded as delivered
    once more and its item is appended. *)
Lemma readPending_page_spec ids : forall items count w,
  faults w = [] -> NoDup ids ->
  (forall id, id ∈ ids ->
     owned (tbl w) gk consumer id = true /\ deliverable (tbl w) key gk id) ->
  Z.of_nat (length ids) <= count <= maxInt32 ->
  exists ps',
    readPending_page key group
      ((fun s => (s, default ∅ (tbl w !! (gk, s)))) <$> ids) items count w =
    Done (inr (items ++ items_of (tbl w) key ids, count - Z.of_nat (length ids)))
         (mkWorld (redeliver gk (now w) ids (tbl w)) (now w) [] ps').
Proof.
  induction ids as [|id rest IH]; intros items count w Hf Hnd Hall Hc.
  - exists (pages w). cbn. unfold ret. rewrite app_nil_r, Z.sub_0_r.
    now rewrite quiet_world_eta.
  - apply NoDup_cons in Hnd. destruct Hnd as [Hnin Hnd].
    destruct (Hall id) as [Ho [[fields Hi] Hd]]; [apply list_elem_of_here|].
    unfold owned in Ho. destruct (tbl w !! (gk, id)) as [attrs|] eqn:He;
      [|discriminate].
    apply bool_decide_eq_true in Ho.
    rewrite fmap_cons, He. cbn [default from_option Datatypes.id].
    rewrite (readPending_page_cons id attrs _ items count w fields)
      by (try assumption; intros s; now apply Hd).
    set (T1 := <[(gk, id) := redelivered attrs (now w)]> (tbl w)).
    set (w2 := turned (set_tbl T1 w)).
    assert (Hsame : forall s, s ∈ rest -> T1 !! (gk, s) = tbl w !! (gk, s)).
    { intros s Hs. unfold T1. apply lookup_insert_ne. congruence. }
    assert (Hstream : forall s, T1 !! (key, s) = tbl w !! (key, s)).
    { intros s. unfold T1. apply lookup_insert_ne. intros E.
      apply (f_equal fst) in E. revert E. apply xGroupKey_ne. }
    destruct (IH (items ++ [parseStreamItem (id, fields)]) (int32 (count - 1)) w2)
      as (ps' & E).
    + exact Hf.
    + exact Hnd.
    + intros s Hs. destruct (Hall s) as [Ho' [Hi' Hd']];
        [now apply list_elem_of_further|].
      unfold owned, deliverable. cbn [tbl w2 turned set_tbl].
      rewrite (Hsame s Hs), Hstream. repeat split; assumption.
    + rewrite int32_small by (unfold maxInt32 in *; simpl length in Hc; lia).
      simpl length in Hc. lia.
    + exists ps'.
      replace ((fun s => (s, default ∅ (tbl w !! (gk, s)))) <$> rest)
        with ((fun s => (s, default ∅ (tbl w2 !! (gk, s)))) <$> rest).
      2: { apply list_fmap_ext. intros i s Hs. cbn [tbl w2 turned set_tbl].
           rewrite Hsame; [reflexivity|]. now apply list_elem_of_lookup_2 in Hs. }
      rewrite E. cbn [tbl now w2 turned set_tbl].
      rewrite int32_small by (unfold maxInt32 in *; simpl length in Hc; lia).
      assert (HA : (items ++ [parseStreamItem (id, fields)]) ++ items_of T1 key rest =
                   items ++ items_of (tbl w) key (id :: rest)).
      { rewrite <- app_assoc. apply (f_equal (app items)).
        unfold items_of. rewrite fmap_cons, Hi.
        cbn [app default from_option Datatypes.id].
        apply (f_equal (cons (parseStreamItem (id, fields)))).
        apply list_fmap_ext. intros i s _. now rewrite Hstream. }
      assert (HB : count - 1 - Z.of_nat (length rest) =
                   count - Z.of_nat (length (id :: rest))) by (simpl length; lia).
      assert (HT : redeliver gk (now w) rest T1 =
                   redeliver gk (now w) (id :: rest) (tbl w)).
      { rewrite redeliver_cons, He. reflexivity. }
      rewrite HA, HB, HT. reflexivity.
Qed.

Lemma q_items_owned t cursor count read :
  q_items t (pending_query gk consumer cursor count) read =
  (fun s => (s, default ∅ (t !! (gk, s)))) <$>
    List.filter (owned t gk consumer) read.
Proof.
  unfold q_items. cbn [pending_query q_pk FilterExpression passes].
  unfold StringValue.
  induction read as [|s read IH]; [reflexivity|].
  cbn [omap list_omap List.filter]. rewrite IH.
  assert (Ho : owned t gk consumer s =
               match t !! (gk, s) with
               | Some attrs => bool_decide (attrs !! consumerKey = Some (AVS consumer))
               | None => false
               end) by reflexivity.
  rewrite Ho. destruct (t !! (gk, s)) as [attrs|] eqn:E; [|reflexivity].
  destruct (bool_decide (attrs !! consumerKey = Some (AVS consumer))); [|reflexivity].
  rewrite fmap_cons, E. reflexivity.
Qed.

Lemma length_sort_keys t p lo hi : (length (sort_keys t p lo hi) <= size t)%nat.
Proof.
  unfold sort_keys. rewrite merge_sort_Permutation, length_fmap.
  etransitivity; [apply length_filter|].
  now rewrite length_fmap, length_map_to_list.
Qed.

Lemma length_q_rest t q : (length (q_rest t q) <= size t)%nat.
Proof.
  unfold q_rest. etransitivity; [apply List.filter_length_le|].
  unfold q_scan. destruct (ScanIndexForward q); rewrite ?length_reverse;
    apply length_sort_keys.
Qed.

Lemma q_rest_same_dom t t' q :
  (forall x, is_Some (t' !! (q_pk q, x)) <-> is_Some (t !! (q_pk q, x))) ->
  q_rest t' q = q_rest t q.
Proof.
  intros H. unfold q_rest, q_scan. now rewrite (sort_keys_same_dom t t').
Qed.

(** The loop of [xGroupReadPending], from any state it can be in. *)
Lemma xGroupReadPending_loop_spec : forall fuel cursor count items w,
  faults w = [] -> 0 <= count <= maxInt32 ->
  let R := q_rest (tbl w) (pending_query gk consumer cursor count) in
  (length R < fuel)%nat ->
  (forall id, id ∈ R -> owned (tbl w) gk consumer id = true ->
              deliverable (tbl w) key gk id) ->
  let D := take (Z.to_nat count) (List.filter (owned (tbl w) gk consumer) R) in
  exists ps',
    xGroupReadPending_loop fuel key group consumer cursor count items w =
    Done (items ++ items_of (tbl w) key D, None)
         (mkWorld (redeliver gk (now w) D (tbl w)) (now w) [] ps').
Proof.
  induction fuel as [|fuel IH]; intros cursor count items w Hf Hc R Hfuel Hall D;
    [lia|].
  cbn [xGroupReadPending_loop]. destruct (Z.ltb_spec 0 count) as [Hpos|Hz].
  2: { assert (count = 0) by lia. subst count. subst D.
       change (Z.to_nat 0) with 0%nat. rewrite take_0.
       exists (pages w). unfold ret, items_of. cbn [fmap list_fmap redeliver foldl].
       now rewrite app_nil_r, quiet_world_eta. }
  unfold bind at 1.
  change (mkQuery (xGroupKey key group) XStart XEnd cursor (Some count) true
            (Some (consumerKey, StringValue consumer)))
    with (pending_query gk consumer cursor count).
  set (q := pending_query gk consumer cursor count) in *.
  rewrite Query_quiet; [| assumption | | reflexivity].
  2: { simpl. destruct (Z.ltb_spec count 1); [lia | reflexivity]. }
  cbn [fst snd Items LastEvaluatedKey].
  unfold q_lek, q_read. cbn [q_bound Limit q pending_query]. fold q. fold R.
  set (b := match cap_of w with
            | Some c => (Z.to_nat count `min` c)%nat
            | None => Z.to_nat count
            end).
  assert (Hb : (0 < b <= Z.to_nat count)%nat).
  { unfold b, cap_of. destruct (pages w); lia. }
  assert (Hbd : match cap_of w with
                | Some c => Some (Z.to_nat count `min` c)%nat
                | None => Some (Z.to_nat count)
                end = Some b) by (unfold b; destruct (cap_of w); reflexivity).
  rewrite Hbd. unfold q. rewrite q_items_owned. fold q.
  set (Mp := List.filter (owned (tbl w) gk consumer) (take b R)).
  assert (HN : NoDup R) by apply q_rest_NoDup.
  assert (HMp_in : forall id, id ∈ Mp -> id ∈ take b R /\
                               owned (tbl w) gk consumer id = true).
  { intros id Hid. apply elem_of_filter_stdlib in Hid. tauto. }
  assert (HMp_len : (length Mp <= b)%nat).
  { unfold Mp. etransitivity; [apply List.filter_length_le|].
    rewrite length_take. lia. }
  unfold bind at 1.
  destruct (readPending_page_spec Mp items count (turned w)) as (ps1 & E1).
  { exact Hf. }
  { apply NoDup_filter_stdlib. rewrite <- (take_drop b R) in HN.
    now apply NoDup_app in HN. }
  { intros id Hid. destruct (HMp_in id Hid) as [Hin Ho]. split; [exact Ho|].
    apply Hall; [|exact Ho]. now apply (subseteq_take b). }
  { lia. }
  cbn [tbl now turned] in E1. rewrite E1.
  set (w2 := mkWorld (redeliver gk (now w) Mp (tbl w)) (now w) [] ps1).
  assert (Hstored : forall id, id ∈ Mp -> is_Some (tbl w !! (gk, id))).
  { intros id Hid. destruct (HMp_in id Hid) as [_ Ho]. unfold owned in Ho.
    destruct (tbl w !! (gk, id)); [eauto | discriminate]. }
  assert (Howned : forall x, owned (tbl w2) gk consumer x = owned (tbl w) gk consumer x).
  { intros x. cbn [tbl w2]. now apply owned_redeliver. }
  assert (Hsplit : List.filter (owned (tbl w) gk consumer) R =
                   Mp ++ List.filter (owned (tbl w) gk consumer) (drop b R)).
  { rewrite <- (take_drop b R) at 1. apply List.filter_app. }
  destruct (Nat.leb_spec b (length R)) as [Hle|Hgt].
  - assert (Hlast : is_Some (last (take b R))).
    { apply last_is_Some. intros E. apply (f_equal length) in E.
      rewrite length_take in E. change (length (@nil string)) with 0%nat in E. lia. }
    destruct Hlast as [c Hlc]. rewrite Hlc.
    assert (HR2 : q_rest (tbl w2)
                    (pending_query gk consumer (Some c) (count - Z.of_nat (length Mp)))
                  = drop b R).
    { rewrite (q_rest_same_dom (tbl w)).
      - apply (q_rest_next (tbl w) q _ b c); try reflexivity. exact Hlc.
      - intros y. cbn [tbl w2 pending_query q_pk]. rewrite redeliver_dom.
        split; [|auto]. intros [H|H]; [assumption|].
        apply list_elem_of_fmap in H. destruct H as (id & [= ->] & Hid).
        now apply Hstored. }
    destruct (IH (Some c) (count - Z.of_nat (length Mp))
                (items ++ items_of (tbl w) key Mp) w2) as (ps' & E).
    + reflexivity.
    + lia.
    + rewrite HR2, length_drop. lia.
    + rewrite HR2. intros id Hid Ho.
      assert (HidR : id ∈ R) by now apply (subseteq_drop b).
      assert (Hnot : id ∉ Mp).
      { intros Hm. destruct (HMp_in id Hm) as [Ht _].
        rewrite <- (take_drop b R) in HN. apply NoDup_app in HN.
        destruct HN as (_ & Hdis & _). now apply (Hdis id). }
      rewrite Howned in Ho. destruct (Hall id HidR Ho) as [Hi Hd].
      unfold deliverable. cbn [tbl w2]. rewrite redeliver_stream.
      rewrite redeliver_lookup_other.
      2: { intros H. apply list_elem_of_fmap in H.
           destruct H as (x & [= ->] & Hx). contradiction. }
      split; assumption.
    + exists ps'. rewrite E, HR2. cbn [tbl now w2].
      rewrite (List.filter_ext _ _ Howned).
      set (F2 := List.filter (owned (tbl w) gk consumer) (drop b R)) in *.
      assert (HD : D = Mp ++ take (Z.to_nat (count - Z.of_nat (length Mp))) F2).
      { unfold D. rewrite Hsplit. rewrite take_app_ge by lia.
        f_equal. f_equal. lia. }
      rewrite HD, redeliver_app. rewrite <- app_assoc.
      unfold items_of at 3. rewrite fmap_app. fold (items_of (tbl w) key Mp).
      replace (items_of (redeliver gk (now w) Mp (tbl w)) key
                 (take (Z.to_nat (count - Z.of_nat (length Mp))) F2))
        with ((fun s => parseStreamItem (s, default ∅ (tbl w !! (key, s)))) <$>
                take (Z.to_nat (count - Z.of_nat (length Mp))) F2).
      2: { unfold items_of. apply list_fmap_ext. intros i s _.
           now rewrite redeliver_stream. }
      reflexivity.
  - assert (Htake : take b R = R) by (apply take_ge; lia).
    exists ps1. unfold ret.
    assert (HD : D = Mp).
    { unfold D, Mp. rewrite Htake. apply take_ge.
      etransitivity; [apply List.filter_length_le|]. lia. }
    now rewrite HD.
Qed.

Lemma redeliver_lookup_in tm ids : forall t id,
  NoDup ids -> id ∈ ids ->
  redeliver gk tm ids t !! (gk, id) =
  Some (redelivered (default ∅ (t !! (gk, id))) tm).
Proof.
  induction ids as [|x rest IH]; intros t id Hnd Hin; [inversion Hin|].
  apply NoDup_cons in Hnd. destruct Hnd as [Hx Hnd]. rewrite redeliver_cons.
  apply elem_of_cons in Hin. destruct Hin as [->|Hin].
  - rewrite redeliver_lookup_other.
    + apply lookup_insert_eq.
    + intros H. apply list_elem_of_fmap in H. destruct H as (y & [= ->] & Hy).
      contradiction.
  - rewrite IH by assumption. rewrite lookup_insert_ne; [reflexivity|].
    intros [= ->]. contradiction.
Qed.

(** X20: [XREADGROUP] in mode [PENDING], on a store that answers and
    however it cuts the pages: the consumer gets again the items of
    its first [count] pending entries, oldest first; each of these
    entries has its delivery count raised by one and its timestamp set
    to now; the entries of other consumers and everything else in the
    table stay as they were.  (The items are taken to be still in the
    stream.) *)
Theorem xreadgroup_pending_redelivers count w :
  faults w = [] -> 0 <= count <= maxInt32 ->
  let mine := List.filter (owned (tbl w) gk consumer) (pending_ids (tbl w) key group) in
  let D := take (Z.to_nat count) mine in
  (forall id, id ∈ mine -> deliverable (tbl w) key gk id) ->
  exists w',
    XREADGROUP key group consumer XReadPending count w =
      Done (items_of (tbl w) key D, None) w' /\
    (forall id e, id ∈ D -> tbl w !! (gk, id) = Some e ->
                  tbl w' !! (gk, id) = Some (redelivered e (now w))) /\
    (forall k, k ∉ (fun id => (gk, id)) <$> D -> tbl w' !! k = tbl w !! k).
Proof.
  intros Hf Hc mine D Hall. cbn [XREADGROUP].
  unfold xGroupReadPending, bind. rewrite loop_fuel_eq.
  assert (HR : q_rest (tbl w) (pending_query gk consumer None count) =
               pending_ids (tbl w) key group).
  { unfold q_rest, q_scan, pending_ids. simpl. apply filter_true. }
  destruct (xGroupReadPending_loop_spec
              (S (S (length (pages w) + size (tbl w)))) None count [] w)
    as (ps' & E); try assumption.
  - pose proof (length_q_rest (tbl w) (pending_query gk consumer None count)). lia.
  - rewrite HR. intros id Hid Ho. apply Hall. apply elem_of_filter_stdlib. auto.
  - rewrite HR in E. fold mine in E. fold D in E.
    eexists. split; [exact E|]. cbn [tbl].
    assert (HND : NoDup D).
    { assert (Hm : NoDup mine) by apply NoDup_filter_stdlib, NoDup_sort_keys.
      rewrite <- (take_drop (Z.to_nat count) mine) in Hm.
      now apply NoDup_app in Hm. }
    split.
    + intros id e Hid He. rewrite redeliver_lookup_in by assumption.
      now rewrite He.
    + intros k Hk. now apply redeliver_lookup_other.
Qed.

(** X21: the same read stops without a word at a pending entry whose
    item has left the stream.  When the oldest pending entry of the
    group belongs to the consumer and its item is gone, the call
    returns no item and no error, although it has recorded one more
    delivery on that entry; the later entries of the consumer are not
    looked at. *)
Theorem xreadgroup_pending_stops_at_missing_item count w id rest attrs :
  faults w = [] -> 1 <= count <= maxInt32 ->
  pending_ids (tbl w) key group = id :: rest ->
  tbl w !! (gk, id) = Some attrs ->
  attrs !! consumerKey = Some (AVS consumer) ->
  (forall s, attrs !! deliveryCountKey <> Some (AVS s)) ->
  tbl w !! (key, id) = None ->
  exists w',
    XREADGROUP key group consumer XReadPending count w = Done ([], None) w' /\
    tbl w' !! (gk, id) = Some (redelivered attrs (now w)) /\
    (forall k, k <> (gk, id) -> tbl w' !! k = tbl w !! k).
Proof.
  intros Hf Hc Hids He Hcn Hd Hi. cbn [XREADGROUP].
  unfold xGroupReadPending, bind. rewrite loop_fuel_eq.
  cbn [xGroupReadPending_loop]. destruct (Z.ltb_spec 0 count) as [_|]; [|lia].
  unfold bind at 1.
  change (mkQuery (xGroupKey key group) XStart XEnd None (Some count) true
            (Some (consumerKey, StringValue consumer)))
    with (pending_query gk consumer None count).
  rewrite Query_quiet; [| assumption | | reflexivity].
  2: { simpl. destruct (Z.ltb_spec count 1); [lia | reflexivity]. }
  cbn [fst snd Items LastEvaluatedKey]. rewrite q_items_owned.
  assert (HR : q_rest (tbl w) (pending_query gk consumer None count) = id :: rest).
  { rewrite <- Hids. unfold q_rest, q_scan, pending_ids. simpl. apply filter_true. }
  assert (Hread : exists more,
            q_read (tbl w) (pending_query gk consumer None count) (cap_of w) =
            id :: more).
  { unfold q_read. rewrite HR. cbn [q_bound Limit pending_query].
    destruct (cap_of w) as [c|] eqn:Ec.
    - unfold cap_of in Ec. destruct (pages w) as [|p0 ps]; [discriminate|].
      inversion Ec; subst.
      destruct (Z.to_nat count) as [|m] eqn:En; [lia|]. cbn. eauto.
    - destruct (Z.to_nat count) as [|m] eqn:En; [lia|]. cbn. eauto. }
  destruct Hread as [more ->]. cbn [List.filter].
  assert (Ho : owned (tbl w) gk consumer id = true).
  { unfold owned. rewrite He. now apply bool_decide_eq_true_2. }
  rewrite Ho, fmap_cons, He. cbn [default from_option Datatypes.id].
  unfold bind at 1. cbn [readPending_page].
  unfold bind at 1. unfold updateDeliveryAction, bind at 1.
  unfold Now, ret. cbn [fst snd]. unfold bind at 1.
  rewrite UpdateItem_quiet by assumption.
  change (toAV (mkKey (xGroupKey key group) (pi_ID (parsePendingItem (id, attrs)))))
    with (gk, id).
  change (Consumer (parsePendingItem (id, attrs)))
    with (ReturnValue_String (attrs !! consumerKey)).
  change (pi_ID (parsePendingItem (id, attrs))) with id.
  cbn [tbl turned]. rewrite He, Hcn.
  cbn [ReturnValue_String conditions clauses addClause updateSET addConditionEquality
       addCondition newExpresionBuilder app forallb holds attr_of StringValue].
  rewrite Hcn, bool_decide_eq_true_2 by reflexivity.
  cbn [andb from_option Datatypes.id apply_clauses apply_clause IntValue].
  rewrite lookup_insert_ne by discriminate.
  unfold IntValue.
  assert (Hstream : forall v : Attrs, <[(gk, id) := v]> (tbl w) !! (key, id) = None).
  { intros v. rewrite (stream_item_kept key group). exact Hi. }
  destruct (attrs !! deliveryCountKey) as [[s|n]|] eqn:E; [now destruct (Hd s)| |].
  all: cbn [snd fst]; unfold bind at 1.
  all: rewrite XRANGE_one by (try assumption; apply ltb_irrefl).
  all: cbn [fst snd tbl set_tbl turned]; rewrite first_item_point, Hstream.
  all: eexists; split; [reflexivity|]; cbn [tbl set_tbl turned].
  all: split; [rewrite lookup_insert_eq; unfold redelivered; now rewrite E|].
  all: intros k Hk; now apply lookup_insert_ne.
Qed.

End Redelivery.

Section RedeliveryAt.

Lemma pending_one_deliverable id :
  id ∈ List.filter (owned pending_one (xGroupKey "s" "g") "a")
         (pending_ids pending_one "s" "g") ->
  deliverable pending_one "s" (xGroupKey "s" "g") id.
Proof.
  change (pending_ids pending_one "s" "g") with [id_5_1].
  intros H. apply elem_of_filter_stdlib in H. destruct H as [_ H].
  apply list_elem_of_singleton in H. subst. split; [eexists; reflexivity|].
  intros attrs s H. inversion H; subst. discriminate.
Qed.

Lemma xreadgroup_pending_redelivers_witness :
  exists w',
    XREADGROUP "s" "g" "a" XReadPending 10 (quiet_world pending_one) =
      Done ([mkStreamItem id_5_1 ∅], None) w' /\
    tbl w' !! ("_redimo/s/g", id_5_1) =
      Some (redelivered pending_entry (time.Unix 100 0)).
Proof.
  destruct (xreadgroup_pending_redelivers "s" "g" "a" 10 (quiet_world pending_one))
    as (w' & E & Hl & _).
  - reflexivity.
  - unfold maxInt32. lia.
  - exact pending_one_deliverable.
  - exists w'. split; [exact E|].
    apply (Hl id_5_1 pending_entry); [|reflexivity].
    change (pending_ids (tbl (quiet_world pending_one)) "s" "g") with [id_5_1].
    apply list_elem_of_here.
Defined.

Lemma xreadgroup_pending_stops_at_missing_item_witness :
  exists w',
    XREADGROUP "s" "g" "a" XReadPending 10 (quiet_world pending_orphan) =
      Done ([], None) w' /\
    tbl w' !! ("_redimo/s/g", id_5_1) =
      Some (redelivered pending_entry (time.Unix 100 0)).
Proof.
  destruct (xreadgroup_pending_stops_at_missing_item "s" "g" "a" 10
              (quiet_world pending_orphan) id_5_1 [] pending_entry)
    as (w' & E & Hl & _).
  - reflexivity.
  - unfold maxInt32. lia.
  - reflexivity.
  - reflexivity.
  - reflexivity.
  - intros s. discriminate.
  - reflexivity.
  - exists w'. split; [exact E | exact Hl].
Defined.

End RedeliveryAt.

(** ** HSET, the key spaces, and reads after a trim *)

Section Hashes.

Implicit Types (t : Table) (key f : string) (v : AttributeValue).

(** The loop of [HSET] over fields that are all different. *)
Lemma HSET_loop_quiet key l : forall saved w,
  faults w = [] -> NoDup l.*1 ->
  exists saved' t',
    HSET_loop key l saved w = Done (saved', None) (set_tbl t' w) /\
    (forall f, saved' !! f =
       match (list_to_map l : gmap string AttributeValue) !! f with
       | Some v => match tbl w !! (key, f) with
                   | None => Some v
                   | Some _ => saved !! f
                   end
       | None => saved !! f
       end) /\
    (forall f, t' !! (key, f) =
       match (list_to_map l : gmap string AttributeValue) !! f with
       | Some v => Some (<[vk := v]> (default ∅ (tbl w !! (key, f))))
       | None => tbl w !! (key, f)
       end) /\
    (forall k, fst k <> key -> t' !! k = tbl w !! k).
Proof.
  induction l as [|[f v] rest IH]; intros saved w Hf Hnd.
  - exists saved, (tbl w). cbn [HSET_loop]. unfold ret. rewrite set_tbl_id.
    split; [reflexivity|]. repeat split; intros; now rewrite ?lookup_empty.
  - cbn [fmap list_fmap fst] in Hnd. apply NoDup_cons in Hnd.
    destruct Hnd as [Hnin Hnd].
    cbn [HSET_loop]. unfold bind at 1. rewrite UpdateItem_quiet by assumption.
    cbn [conditions clauses updateSET addClause newExpresionBuilder app forallb
         apply_clauses apply_clause fst snd].
    change (toAV (mkKey key f)) with (key, f).
    set (T1 := <[(key, f) := <[vk := v]> (default ∅ (tbl w !! (key, f)))]> (tbl w)).
    set (saved1 := match tbl w !! (key, f) with
                   | None => <[f := v]> saved
                   | Some _ => saved
                   end).
    destruct (IH saved1 (set_tbl T1 w) Hf Hnd) as (saved' & t' & E & Hs & Ht & Ho).
    exists saved', t'. split; [exact E|]. cbn [tbl set_tbl] in Hs, Ht, Ho.
    assert (Hrest : (list_to_map rest : gmap string AttributeValue) !! f = None)
      by now apply not_elem_of_list_to_map_1.
    split; [|split].
    + intros g. rewrite Hs. cbn [list_to_map foldr]. cbn [uncurry fst snd].
      destruct (decide (g = f)) as [->|Hne].
      * rewrite Hrest, lookup_insert_eq. unfold saved1.
        destruct (tbl w !! (key, f)); [reflexivity | apply lookup_insert_eq].
      * rewrite lookup_insert_ne by congruence.
        unfold T1. rewrite lookup_insert_ne by congruence.
        assert (Hsv : saved1 !! g = saved !! g).
        { unfold saved1. destruct (tbl w !! (key, f)); [reflexivity|].
          now apply lookup_insert_ne. }
        now rewrite Hsv.
    + intros g. rewrite Ht. cbn [list_to_map foldr]. cbn [uncurry fst snd].
      destruct (decide (g = f)) as [->|Hne].
      * rewrite Hrest, lookup_insert_eq. unfold T1. apply lookup_insert_eq.
      * rewrite lookup_insert_ne by congruence.
        unfold T1. now rewrite lookup_insert_ne by congruence.
    + intros k Hk. rewrite Ho by assumption. unfold T1.
      apply lookup_insert_ne. intros <-. now apply Hk.
Qed.

(** X22: on a store that answers, [HSET(key, fieldMap)] sets the value
    of every field of the map, keeping the other attributes of an
    item that was there; it returns the fields that did not exist
    before; nothing outside the hash changes. *)
Theorem hset_saves_fields key (fieldMap : gmap string AttributeValue) w :
  faults w = [] ->
  exists saved w',
    HSET key fieldMap w = Done (saved, None) w' /\
    (forall f, saved !! f =
       match tbl w !! (key, f) with None => fieldMap !! f | Some _ => None end) /\
    (forall f v, fieldMap !! f = Some v ->
       tbl w' !! (key, f) = Some (<[vk := v]> (default ∅ (tbl w !! (key, f))))) /\
    (forall f, fieldMap !! f = None -> tbl w' !! (key, f) = tbl w !! (key, f)) /\
    (forall k, fst k <> key -> tbl w' !! k = tbl w !! k).
Proof.
  intros Hf. unfold HSET.
  destruct (HSET_loop_quiet key (map_to_list fieldMap) ∅ w Hf)
    as (saved & t' & E & Hs & Ht & Ho); [apply NoDup_fst_map_to_list|].
  rewrite list_to_map_to_list in Hs, Ht.
  exists saved, (set_tbl t' w). split; [exact E|]. cbn [tbl set_tbl].
  split; [|split; [|split]].
  - intros f. rewrite Hs, lookup_empty.
    destruct (fieldMap !! f), (tbl w !! (key, f)); reflexivity.
  - intros f v Hv. now rewrite Ht, Hv.
  - intros f Hn. now rewrite Ht, Hn.
  - exact Ho.
Qed.

Lemma hset_saves_fields_witness :
  exists saved w',
    HSET "h" {[ "a" := AVS "1" ]} (quiet_world ∅) = Done (saved, None) w' /\
    saved !! "a" = Some (AVS "1") /\
    tbl w' !! ("h", "a") = Some {[ vk := AVS "1" ]}.
Proof.
  destruct (hset_saves_fields "h" {[ "a" := AVS "1" ]} (quiet_world ∅) eq_refl)
    as (saved & w' & E & Hs & Ht & _).
  exists saved, w'. split; [exact E|]. split.
  - rewrite Hs. reflexivity.
  - rewrite (Ht "a" (AVS "1")); reflexivity.
Defined.

End Hashes.

Section KeyNames.

Lemma slash_split a : forall b x y,
  no_slash a -> no_slash b ->
  a +:+ String "/" x = b +:+ String "/" y -> a = b /\ x = y.
Proof.
  induction a as [|c a IH]; intros [|d b] x y Ha Hb E.
  - rewrite !append_nil_l in E. now inversion E.
  - rewrite append_nil_l, append_cons in E. inversion E; subst.
    destruct Hb as [Hd _]. congruence.
  - rewrite append_nil_l, append_cons in E. inversion E; subst.
    destruct Ha as [Hc _]. congruence.
  - rewrite !append_cons in E. inversion E; subst.
    destruct Ha as [_ Ha], Hb as [_ Hb].
    destruct (IH b x y Ha Hb) as [-> ->]; [assumption | split; reflexivity].
Qed.

(** X23: the pending entries and the cursor of a group live in the
    partition [_redimo/<stream>/<group>].  Two groups share a partition
    only if they are the same group of the same stream, as long as the
    stream names hold no [/]; with a [/] in a stream name, two
    different pairs collide. *)
Theorem group_partitions_distinct key group key' group' :
  no_slash key -> no_slash key' ->
  (xGroupKey key group = xGroupKey key' group' <-> key = key' /\ group = group') /\
  xGroupKey (key +:+ "/" +:+ group) group' = xGroupKey key (group +:+ "/" +:+ group').
Proof.
  intros Hk Hk'. split; [split|].
  - rewrite !xGroupKey_eq. intros E. inversion E as [E'].
    now apply slash_split in E'.
  - now intros [-> ->].
  - rewrite !xGroupKey_eq. now rewrite !append_assoc.
Qed.

Lemma group_partitions_distinct_witness :
  xGroupKey "s" "g" <> xGroupKey "t" "g" /\
  xGroupKey "a/b" "c" = xGroupKey "a" "b/c".
Proof.
  split.
  - intros E.
    destruct (group_partitions_distinct "s" "g" "t" "g") as [[H _] _].
    + simpl. repeat split; discriminate.
    + simpl. repeat split; discriminate.
    + destruct (H E) as [E' _]. discriminate.
  - reflexivity.
Defined.

End KeyNames.

Section AfterTrim.

Implicit Types (t : Table) (key : string).

(** What [XTRIM] leaves, as a table. *)
Lemma XTRIM_keeps key N w :
  faults w = [] -> 0 <= N <= maxInt32 ->
  Z.of_nat (length (stream_ids (tbl w) key)) <= maxInt32 ->
  let ids := stream_ids (tbl w) key in
  let gone := take (length ids - Z.to_nat N) ids in
  exists w',
    XTRIM key N w = Done (Z.of_nat (length gone), None) w' /\
    tbl w' = del_tbl key (reverse gone) (tbl w) /\
    stream_ids (tbl w') key = drop (length ids - Z.to_nat N) ids.
Proof.
  intros Hf HN Hlen ids gone.
  assert (HR : q_rest (tbl w) (trim_query key None) = reverse ids).
  { unfold q_rest, q_scan. simpl. apply filter_true. }
  destruct (XTRIM_loop_spec key (pages w)
              (S (S (length (pages w) + size (tbl w)))) None N 0 w)
    as (w' & E & T); try assumption; try reflexivity; try lia.
  { rewrite HR, length_reverse. fold ids in Hlen. lia. }
  rewrite HR in E, T. rewrite drop_reverse in E, T. fold gone in E, T.
  rewrite length_reverse in E.
  assert (Hsplit : ids = gone ++ drop (length ids - Z.to_nat N) ids)
    by (symmetry; apply take_drop).
  assert (Hnd : NoDup ids) by apply NoDup_sort_keys.
  assert (Hss : StronglySorted String.le ids) by apply sorted_sort_keys.
  rewrite Hsplit in Hnd, Hss. apply NoDup_app in Hnd. destruct Hnd as (_ & Hdis & Hndd).
  exists w'. split; [|split; [exact T|]].
  - unfold XTRIM, bind. rewrite loop_fuel_eq. rewrite E. reflexivity.
  - apply sort_keys_characterised.
    + now apply StronglySorted_app_1_r in Hss.
    + exact Hndd.
    + intros x. rewrite T, del_tbl_lookup_key, elem_of_reverse. split.
      * intros Hx.
        assert (x ∈ ids) as Hin
          by now apply (subseteq_drop (length ids - Z.to_nat N)).
        apply elem_of_sort_keys in Hin. destruct Hin as (Hs & Hlo & Hhi).
        repeat split; try assumption.
        intros Hg. now apply (Hdis x).
      * intros ((Hng & Hs) & Hlo & Hhi).
        assert (x ∈ ids) as Hin by (apply elem_of_sort_keys; auto).
        rewrite Hsplit in Hin. apply elem_of_app in Hin.
        destruct Hin; [contradiction | assumption].
Qed.

(** X24: after [XTRIM(key, N)] the stream reads as its [N] newest
    items: [XLEN] counts them, [XRANGE] returns them with their fields
    untouched, and a second [XTRIM(key, N)] deletes nothing. *)
Theorem xtrim_then_read key N count w tm ps :
  faults w = [] -> 0 <= N <= maxInt32 ->
  let ids := stream_ids (tbl w) key in
  let kept := drop (length ids - Z.to_nat N) ids in
  Z.of_nat (length ids) <= count <= maxInt32 ->
  exists w',
    XTRIM key N w = Done (Z.of_nat (length ids - length kept), None) w' /\
    (exists w2, XLEN key XStart XEnd (mkWorld (tbl w') tm [] ps) =
                  Done (Z.of_nat (length kept), None) w2) /\
    (exists w2, XRANGE key XStart XEnd count (mkWorld (tbl w') tm [] ps) =
                  Done (items_of (tbl w) key kept, None) w2) /\
    (exists w2, XTRIM key N (mkWorld (tbl w') tm [] ps) = Done (0, None) w2 /\
                tbl w2 = tbl w').
Proof.
  intros Hf HN ids kept Hc.
  destruct (XTRIM_keeps key N w) as (w' & E & T & Hk); try assumption.
  { fold ids. lia. }
  fold ids in E, T, Hk. fold kept in Hk.
  set (gone := take (length ids - Z.to_nat N) ids) in *.
  assert (Hlen : length ids = (length gone + length kept)%nat).
  { unfold gone, kept. rewrite <- length_app, take_drop. reflexivity. }
  exists w'. split; [|split; [|split]].
  - rewrite E. do 3 f_equal. lia.
  - set (w1 := mkWorld (tbl w') tm [] ps).
    unfold XLEN, bind. rewrite loop_fuel_eq.
    assert (HR : q_rest (tbl w1) (mkQuery key XStart XEnd None None true None) = kept).
    { unfold q_rest, q_scan. simpl. rewrite filter_true. exact Hk. }
    destruct (XLEN_loop_spec key XStart XEnd
                (S (S (length (pages w1) + size (tbl w1)))) (pages w1) None 0 w1)
      as (ps' & E'); try reflexivity; try lia.
    { rewrite HR. lia. }
    rewrite HR in E'. cbn [Z.add] in E'. eexists. exact E'.
  - set (w1 := mkWorld (tbl w') tm [] ps).
    destruct (xRange_spec key XStart XEnd count true w1) as (ps' & E');
      try reflexivity; [lia|].
    eexists. unfold XRANGE. rewrite E'. cbn [tbl w1].
    fold (stream_ids (tbl w') key). rewrite Hk.
    rewrite take_ge by lia. do 2 f_equal.
    unfold items_of. apply list_fmap_ext. intros i x Hx.
    apply list_elem_of_lookup_2 in Hx.
    rewrite T, del_tbl_lookup. rewrite bool_decide_eq_false_2; [reflexivity|].
    intros H. apply list_elem_of_fmap in H. destruct H as (y & Ey & Hy).
    inversion Ey; subst y. rewrite elem_of_reverse in Hy.
    assert (Hnd : NoDup ids) by apply NoDup_sort_keys.
    rewrite <- (take_drop (length ids - Z.to_nat N) ids) in Hnd.
    apply NoDup_app in Hnd. destruct Hnd as (_ & Hdis & _).
    apply (Hdis x); [exact Hy | exact Hx].
  - set (w1 := mkWorld (tbl w') tm [] ps).
    destruct (XTRIM_keeps key N w1) as (w2 & E2 & T2 & _); try reflexivity.
    { assumption. }
    { cbn [tbl w1]. rewrite Hk. lia. }
    cbn [tbl w1] in E2, T2. rewrite Hk in E2, T2.
    assert (Hz : (length kept - Z.to_nat N = 0)%nat).
    { unfold kept. rewrite length_drop. lia. }
    rewrite Hz, take_0 in E2, T2. exists w2. split; [exact E2 | exact T2].
Qed.

Lemma xtrim_then_read_witness :
  exists w',
    XTRIM "s" 1 paged_world = Done (2, None) w' /\
    (exists w2, XLEN "s" XStart XEnd (quiet_world (tbl w')) = Done (1, None) w2) /\
    (exists w2, XRANGE "s" XStart XEnd 10 (quiet_world (tbl w')) =
                  Done ([mkStreamItem id_5_max ∅], None) w2).
Proof.
  destruct (xtrim_then_read "s" 1 10 paged_world (time.Unix 100 0) [])
    as (w' & E & HL & HR & _).
  - reflexivity.
  - unfold maxInt32. lia.
  - vm_compute. split; discriminate.
  - exists w'. split; [exact E|]. split; [exact HL | exact HR].
Defined.

End AfterTrim.

Section Resume.

(** X25: the resume law of [XREAD] where it holds.  On a store that
    answers and a stream whose IDs are all built from valid pairs with
    a sequence number below the greatest [uint64], [XREAD] from such
    an ID returns the next [count] items strictly after it, and a
    second [XREAD] from the last ID returned goes on right after it:
    it repeats no item and leaves none out. *)
Theorem xread_resumes_on_regular_stream key tm s count w :
  faults w = [] -> 0 <= count <= maxInt32 ->
  valid_pair tm s -> s < maxUint64 -> regular_stream (tbl w) key ->
  let n := Z.to_nat count in
  let A := after_id (encode tm s) (stream_ids (tbl w) key) in
  exists w1,
    XREAD key (encode tm s) count w = Done (items_of (tbl w) key (take n A), None) w1 /\
    forall lastID, last (take n A) = Some lastID ->
      exists w2,
        XREAD key lastID count w1 =
          Done (items_of (tbl w) key (take n (drop n A)), None) w2 /\
        (lastID ∉ take n (drop n A)) /\
        take n A ++ take n (drop n A) = take (n + n) A.
Proof. apply xread_resume. Qed.

Lemma xread_resumes_on_regular_stream_witness :
  exists w1 w2,
    XREAD "s" XStart 1 (quiet_world stream_two) =
      Done ([mkStreamItem id_5_1 ∅], None) w1 /\
    XREAD "s" id_5_1 1 w1 = Done ([mkStreamItem id_5_2 ∅], None) w2.
Proof.
  destruct (xread_resumes_on_regular_stream "s" 0 0 1 (quiet_world stream_two))
    as (w1 & E1 & H); try reflexivity;
    [ unfold maxInt32; lia
    | unfold valid_pair, maxInt64, maxUint64; lia
    | exact stream_two_regular |].
  destruct (H id_5_1 eq_refl) as (w2 & E2 & _).
  exists w1, w2. split; [exact E1 | exact E2].
Defined.

End Resume.
